(** * Header chain of a sharded node: canonical mapping, reorgs, heads registry

    A shallow embedding of [core/headerchain.go].  The persistent store, the
    three LRU caches, the current head and the heads registry form one state
    record; every method of [HeaderChain] is a computation in a small state
    monad with two abnormal outcomes: a Go run-time panic (nil dereference,
    index out of range) and exhaustion of the fuel that bounds the
    [for { ... }] loops walking parent links. *)

From stdpp Require Import base option list gmap strings pretty.
From Stdlib Require Import NArith ZArith Lia Sorting.Sorted Permutation.

Local Open Scope N_scope.

(** ** Basic data *)

(** [common.Hash]: a 32-byte value, read as a number.  [common.Hash{}] is 0. *)
Abbreviation Hash := N.
Definition zeroHash : Hash := 0.

(** [common.HashLength]: the size of a [common.Hash] in bytes. *)
Definition HashLength : N := 32.

(** Unsigned 64-bit arithmetic as the source uses it on block numbers. *)
Definition two64 : N := 2 ^ 64.
Definition sub64 (a b : N) : N := (a mod two64 + two64 - b mod two64) mod two64.

(** Arithmetic on a [byte], as in [Location[ctx]-1]. *)
Definition subByte (a b : N) : N := (a mod 256 + 256 - b mod 256) mod 256.

(** [types.Header], seen from the node's operating context
    [types.QuaiNetworkContext]: [hParent] is [ParentHash[ctx]] (what
    [Parent()] and [header.ParentHash[types.QuaiNetworkContext]] read),
    [hNumber] is [Number[ctx].Uint64()] (what [Number64()] reads),
    [hLocation] the location bytes and [hHash] the value of [Hash()]. *)
Record Header : Type := mkHeader {
  hHash : Hash;
  hParent : Hash;
  hNumber : N;
  hLocation : list N
}.

#[global] Instance Header_eq_dec : EqDecision Header.
Proof. solve_decision. Defined.

(** [types.Block]: a header together with an opaque body. *)
Record Block : Type := mkBlock {
  blockHeader : Header;
  blockBody : N
}.

(** [ChainEvent{Block, Hash, Logs}] as sent on the chain feed. *)
Record ChainEvent : Type := mkChainEvent {
  evBlock : Block;
  evHash : Hash;
  evLogs : list N
}.

(** A Go [error] value; [None] stands for [nil]. *)
Abbreviation error := (option string).

(** ** The LRU caches ([github.com/hashicorp/golang-lru])

    Entries are kept most recently used first.  [Add] refreshes or inserts
    at the front and evicts the oldest entry once the size is exceeded;
    [Get] moves a hit to the front; [Contains] does not touch recency. *)
Module lru.
Record Cache (V : Type) : Type := mkCache {
  size : nat;
  items : list (Hash * V)
}.
Arguments mkCache {V} _ _.
Arguments size {V} _.
Arguments items {V} _.

Definition New {V} (n : nat) : Cache V := mkCache n [].

Fixpoint find {V} (k : Hash) (l : list (Hash * V)) : option V :=
  match l with
  | [] => None
  | (k', v) :: l' => if N.eqb k k' then Some v else find k l'
  end.

Fixpoint remove {V} (k : Hash) (l : list (Hash * V)) : list (Hash * V) :=
  match l with
  | [] => []
  | (k', v) :: l' => if N.eqb k k' then l' else (k', v) :: remove k l'
  end.

Definition Contains {V} (k : Hash) (c : Cache V) : bool :=
  match find k (items c) with Some _ => true | None => false end.

Definition Get {V} (k : Hash) (c : Cache V) : option V * Cache V :=
  match find k (items c) with
  | Some v => (Some v, mkCache (size c) ((k, v) :: remove k (items c)))
  | None => (None, c)
  end.

Definition Add {V} (k : Hash) (v : V) (c : Cache V) : Cache V :=
  match find k (items c) with
  | Some _ => mkCache (size c) ((k, v) :: remove k (items c))
  | None =>
      let l := (k, v) :: items c in
      mkCache (size c)
        (if Nat.ltb (size c) (length l) then removelast l else l)
  end.
End lru.

Definition headerCacheLimit : nat := 512.
Definition tdCacheLimit : nat := 1024.
Definition numberCacheLimit : nat := 2048.

(** ** The persistence gateway ([core/rawdb] over [ethdb.Database]) *)

Record Database : Type := mkDatabase {
  dbHeaders : gmap (Hash * N) Header;
  dbHeaderNumbers : gmap Hash N;
  dbCanonical : gmap N Hash;
  dbTd : gmap (Hash * N) (list (option Z));
  dbHeadBlockHash : Hash;
  dbHeadsHashes : list Hash
}.

Module rawdb.
(** Modelled from the spec: the functions of package [core/rawdb], which
    is not part of the sources at hand.  The spec lists them as raw
    key/value primitives of the persistence gateway: read/write/delete of
    a header by (hash, number), read/write/delete of the canonical
    number-to-hash mapping, read/write of the head-block hash, read of the
    total-difficulty vector by (hash, number), read of a block number by
    hash, existence check for a header by (hash, number). *)
Definition ReadHeader (db : Database) (hash : Hash) (number : N) : option Header :=
  dbHeaders db !! (hash, number).

(** Modelled from the spec: read of a block number by hash. *)
Definition ReadHeaderNumber (db : Database) (hash : Hash) : option N :=
  dbHeaderNumbers db !! hash.

(** Modelled from the spec: existence check for a header by (hash, number). *)
Definition HasHeader (db : Database) (hash : Hash) (number : N) : bool :=
  bool_decide (is_Some (dbHeaders db !! (hash, number))).

(** Modelled from the spec: write of a header by (hash, number).  It also
    records the number under the hash; the spec's round trip of an
    appended header through [GetHeaderByHash] needs that entry. *)
Definition WriteHeader (header : Header) (db : Database) : Database :=
  mkDatabase (<[(hHash header, hNumber header) := header]> (dbHeaders db))
             (<[hHash header := hNumber header]> (dbHeaderNumbers db))
             (dbCanonical db) (dbTd db) (dbHeadBlockHash db) (dbHeadsHashes db).

(** Modelled from the spec: delete of a header by (hash, number), the
    inverse of [WriteHeader]: the record and the number under the hash. *)
Definition DeleteHeader (hash : Hash) (number : N) (db : Database) : Database :=
  mkDatabase (delete (hash, number) (dbHeaders db))
             (delete hash (dbHeaderNumbers db))
             (dbCanonical db) (dbTd db) (dbHeadBlockHash db) (dbHeadsHashes db).

(** Modelled from the spec: read of the canonical number-to-hash mapping;
    an absent entry reads as the zero hash, which [GetHeaderByNumber]
    tests for. *)
Definition ReadCanonicalHash (db : Database) (number : N) : Hash :=
  default zeroHash (dbCanonical db !! number).

(** Modelled from the spec: write of a canonical entry. *)
Definition WriteCanonicalHash (hash : Hash) (number : N) (db : Database) : Database :=
  mkDatabase (dbHeaders db) (dbHeaderNumbers db)
             (<[number := hash]> (dbCanonical db))
             (dbTd db) (dbHeadBlockHash db) (dbHeadsHashes db).

(** Modelled from the spec: delete of a canonical entry. *)
Definition DeleteCanonicalHash (number : N) (db : Database) : Database :=
  mkDatabase (dbHeaders db) (dbHeaderNumbers db)
             (delete number (dbCanonical db))
             (dbTd db) (dbHeadBlockHash db) (dbHeadsHashes db).

(** Modelled from the spec: write of the head-block hash. *)
Definition WriteHeadBlockHash (hash : Hash) (db : Database) : Database :=
  mkDatabase (dbHeaders db) (dbHeaderNumbers db) (dbCanonical db) (dbTd db)
             hash (dbHeadsHashes db).

(** Modelled from the spec: read of the total-difficulty vector by
    (hash, number); [None] is the nil slice of an absent record. *)
Definition ReadTd (db : Database) (hash : Hash) (number : N) : option (list (option Z)) :=
  dbTd db !! (hash, number).

(** Modelled from the spec: read of the head-block hash; the zero hash
    while none was written. *)
Definition ReadHeadBlockHash (db : Database) : Hash := dbHeadBlockHash db.

(** Modelled from the spec: read and write of the list of registered
    branch-tip hashes. *)
Definition ReadHeadsHashes (db : Database) : list Hash := dbHeadsHashes db.

Definition WriteHeadsHashes (hashes : list Hash) (db : Database) : Database :=
  mkDatabase (dbHeaders db) (dbHeaderNumbers db) (dbCanonical db) (dbTd db)
             (dbHeadBlockHash db) hashes.
End rawdb.

(** ** The header chain *)

(** The fields of [HeaderChain] that the methods below read or write, over
    the state [BC] of the chain-body collaborator [hc.bc].
    [genesisHashes] is [hc.config.GenesisHashes]; [chainFeed] and
    [logsFeed] record what was sent on [hc.bc.chainFeed] and
    [hc.bc.logsFeed]; [currentHeader] is [None] while nothing has been
    stored in the atomic cell; an entry of [heads] is [None] for a nil
    pointer. *)
Record HeaderChain (BC : Type) : Type := mkHeaderChain {
  genesisHashes : list Hash;
  bc : BC;
  chainFeed : list ChainEvent;
  logsFeed : list (list N);
  headerDb : Database;
  genesisHeader : option Header;
  currentHeader : option Header;
  currentHeaderHash : Hash;
  headerCache : lru.Cache Header;
  tdCache : lru.Cache (list (option Z));
  numberCache : lru.Cache N;
  heads : list (option Header)
}.
Arguments mkHeaderChain {BC} _ _ _ _ _ _ _ _ _ _ _ _.
Arguments genesisHashes {BC} _.
Arguments bc {BC} _.
Arguments chainFeed {BC} _.
Arguments logsFeed {BC} _.
Arguments headerDb {BC} _.
Arguments genesisHeader {BC} _.
Arguments currentHeader {BC} _.
Arguments currentHeaderHash {BC} _.
Arguments headerCache {BC} _.
Arguments tdCache {BC} _.
Arguments numberCache {BC} _.
Arguments heads {BC} _.

Definition set_bc {BC} (f : BC -> BC) (s : HeaderChain BC) : HeaderChain BC :=
  mkHeaderChain (genesisHashes s) (f (bc s)) (chainFeed s) (logsFeed s) (headerDb s)
    (genesisHeader s) (currentHeader s) (currentHeaderHash s)
    (headerCache s) (tdCache s) (numberCache s) (heads s).

Definition set_chainFeed {BC} (f : list ChainEvent -> list ChainEvent)
    (s : HeaderChain BC) : HeaderChain BC :=
  mkHeaderChain (genesisHashes s) (bc s) (f (chainFeed s)) (logsFeed s) (headerDb s)
    (genesisHeader s) (currentHeader s) (currentHeaderHash s)
    (headerCache s) (tdCache s) (numberCache s) (heads s).

Definition set_logsFeed {BC} (f : list (list N) -> list (list N))
    (s : HeaderChain BC) : HeaderChain BC :=
  mkHeaderChain (genesisHashes s) (bc s) (chainFeed s) (f (logsFeed s)) (headerDb s)
    (genesisHeader s) (currentHeader s) (currentHeaderHash s)
    (headerCache s) (tdCache s) (numberCache s) (heads s).

Definition set_headerDb {BC} (f : Database -> Database) (s : HeaderChain BC) : HeaderChain BC :=
  mkHeaderChain (genesisHashes s) (bc s) (chainFeed s) (logsFeed s) (f (headerDb s))
    (genesisHeader s) (currentHeader s) (currentHeaderHash s)
    (headerCache s) (tdCache s) (numberCache s) (heads s).

Definition set_currentHeader {BC} (h : Header) (s : HeaderChain BC) : HeaderChain BC :=
  mkHeaderChain (genesisHashes s) (bc s) (chainFeed s) (logsFeed s) (headerDb s)
    (genesisHeader s) (Some h) (currentHeaderHash s)
    (headerCache s) (tdCache s) (numberCache s) (heads s).

Definition set_currentHeaderHash {BC} (h : Hash) (s : HeaderChain BC) : HeaderChain BC :=
  mkHeaderChain (genesisHashes s) (bc s) (chainFeed s) (logsFeed s) (headerDb s)
    (genesisHeader s) (currentHeader s) h
    (headerCache s) (tdCache s) (numberCache s) (heads s).

Definition set_headerCache {BC} (c : lru.Cache Header) (s : HeaderChain BC) : HeaderChain BC :=
  mkHeaderChain (genesisHashes s) (bc s) (chainFeed s) (logsFeed s) (headerDb s)
    (genesisHeader s) (currentHeader s) (currentHeaderHash s)
    c (tdCache s) (numberCache s) (heads s).

Definition set_tdCache {BC} (c : lru.Cache (list (option Z))) (s : HeaderChain BC) : HeaderChain BC :=
  mkHeaderChain (genesisHashes s) (bc s) (chainFeed s) (logsFeed s) (headerDb s)
    (genesisHeader s) (currentHeader s) (currentHeaderHash s)
    (headerCache s) c (numberCache s) (heads s).

Definition set_numberCache {BC} (c : lru.Cache N) (s : HeaderChain BC) : HeaderChain BC :=
  mkHeaderChain (genesisHashes s) (bc s) (chainFeed s) (logsFeed s) (headerDb s)
    (genesisHeader s) (currentHeader s) (currentHeaderHash s)
    (headerCache s) (tdCache s) c (heads s).

Definition set_heads {BC} (l : list (option Header)) (s : HeaderChain BC) : HeaderChain BC :=
  mkHeaderChain (genesisHashes s) (bc s) (chainFeed s) (logsFeed s) (headerDb s)
    (genesisHeader s) (currentHeader s) (currentHeaderHash s)
    (headerCache s) (tdCache s) (numberCache s) l.

(** *** Computations on the chain

    [Ret a s]: the call returned [a] and left the chain in [s].
    [Panic s]: a run-time panic unwound the call; [s] is what had been
    written until then.  [OutOfFuel]: the bound on loop iterations was
    reached. *)
Inductive result (S A : Type) : Type :=
| Ret (a : A) (s : S)
| Panic (s : S)
| OutOfFuel.
Arguments Ret {S A} _ _.
Arguments Panic {S A} _.
Arguments OutOfFuel {S A}.

Definition M (S A : Type) : Type := S -> result S A.

Definition ret {S A} (a : A) : M S A := fun s => Ret a s.

Definition bind {S A B} (m : M S A) (k : A -> M S B) : M S B :=
  fun s =>
    match m s with
    | Ret a s' => k a s'
    | Panic s' => Panic s'
    | OutOfFuel => OutOfFuel
    end.

Definition panic {S A} : M S A := fun s => Panic s.
Definition outOfFuel {S A} : M S A := fun _ => OutOfFuel.
Definition gets {S A} (f : S -> A) : M S A := fun s => Ret (f s) s.
Definition modify {S} (f : S -> S) : M S unit := fun s => Ret tt (f s).

Notation "x <- m ;; k" := (bind m (fun x => k))
  (at level 100, m at next level, right associativity).
Notation "m ;;; k" := (bind m (fun _ => k))
  (at level 100, right associativity).

(** The chain a call leaves behind, whether it returned or panicked. *)
Definition finalState {S A} (r : result S A) : option S :=
  match r with
  | Ret _ s => Some s
  | Panic s => Some s
  | OutOfFuel => None
  end.

Definition returned {S A} (r : result S A) : option A :=
  match r with
  | Ret a _ => Some a
  | _ => None
  end.

(** [holds r Q E]: if [r] returned, the result and the chain satisfy [Q];
    if it panicked, the chain satisfies [E]. *)
Definition holds {S A} (r : result S A) (Q : A -> S -> Prop) (E : S -> Prop) : Prop :=
  match r with
  | Ret a s => Q a s
  | Panic s => E s
  | OutOfFuel => True
  end.

(** [triple P m Q E]: started in a chain satisfying [P], the computation
    [m] ends as [holds] says. *)
Definition triple {S A} (P : S -> Prop) (m : M S A) (Q : A -> S -> Prop) (E : S -> Prop) : Prop :=
  forall s, P s -> holds (m s) Q E.

(** [keeps I m]: [m] maintains [I], whether it returns or panics. *)
Definition keeps {S A} (I : S -> Prop) (m : M S A) : Prop :=
  triple I m (fun _ => I) I.

(** A property of the chain that does not look at the three caches. *)
Definition cacheStable {BC} (I : HeaderChain BC -> Prop) : Prop :=
  (forall s c, I s -> I (set_headerCache c s)) /\
  (forall s c, I s -> I (set_numberCache c s)) /\
  (forall s c, I s -> I (set_tdCache c s)).

(** Modelled from the spec: what [HeaderChain] takes from the rest of the
    program.  The chain-body collaborator ([BlockChain], in package [core]
    but not in the sources at hand) has the operations the spec lists for
    it, [Appendable(block) -> error], [Append(block) -> (logs, error)] and
    [Trim(header)], acting on its own state; the consensus collaborator is
    [VerifyHeader(chainView, header, sealVerificationRequired) -> error].
    The chain view it is handed is the header chain itself (line 207), so
    its verdict is a computation on the chain: what it reads through the
    cached lookups fills the caches.  That it does nothing but read is the
    law [ChainView] below.  [batchWrite] is the outcome of committing a
    write batch to the key/value store.

    The package-level values [types.QuaiNetworkContext], [params.ZONE] and
    [maxHeadsQueueLimit] are declared elsewhere and taken as parameters.
    [types.Header] is declared elsewhere too: calling [Hash()] on a nil
    header either panics ([nilHeaderHash = None]) or yields the hash of the
    empty encoding ([Some h]); the general theorems hold for both, and the
    concrete chains say which one they run with. *)
Class Env : Type := mkEnv {
  BlockChain : Type;
  bcAppendable : BlockChain -> Block -> error;
  bcAppend : Block -> BlockChain -> (list N * error) * BlockChain;
  bcTrim : Header -> BlockChain -> BlockChain;
  VerifyHeader : Header -> M (HeaderChain BlockChain) error;
  batchWrite : Database -> Header -> error;
  QuaiNetworkContext : nat;
  ZONE : nat;
  maxHeadsQueueLimit : nat;
  nilHeaderHash : option Hash
}.

(** ** Methods of [HeaderChain] *)

Section Methods.
Context `{Env}.

Local Abbreviation HC := (HeaderChain BlockChain).
Local Abbreviation Op := (M HC).

(** *** Reading a header through a possibly nil pointer *)

Definition Hash_ (h : option Header) : Op Hash :=
  match h with
  | Some x => ret (hHash x)
  | None => match nilHeaderHash with Some v => ret v | None => panic end
  end.

Definition Number64 (h : option Header) : Op N :=
  match h with Some x => ret (hNumber x) | None => panic end.

Definition Parent (h : option Header) : Op Hash :=
  match h with Some x => ret (hParent x) | None => panic end.

Definition Location (h : option Header) : Op (list N) :=
  match h with Some x => ret (hLocation x) | None => panic end.

(** [hc.config.GenesisHashes[i]] *)
Definition GenesisHash (i : nat) : Op Hash :=
  l <- gets genesisHashes ;;
  match l !! i with Some g => ret g | None => panic end.

(** [sliceHeaders[h.Location[types.QuaiNetworkContext]-1] = h] *)
Definition setSlice (sliceHeaders : list (option Header)) (h : Header) :
    Op (list (option Header)) :=
  match hLocation h !! QuaiNetworkContext with
  | None => panic
  | Some b =>
      let i := N.to_nat (subByte b 1) in
      if Nat.ltb i (length sliceHeaders)
      then ret (<[i := Some h]> sliceHeaders)
      else panic
  end.

(** *** Cached lookups (lines 476-488, 598-622) *)

Definition GetBlockNumber (hash : Hash) : Op (option N) :=
  c <- gets numberCache ;;
  match lru.Get hash c with
  | (Some number, c') => modify (set_numberCache c') ;;; ret (Some number)
  | (None, _) =>
      db <- gets headerDb ;;
      match rawdb.ReadHeaderNumber db hash with
      | Some number =>
          modify (fun s => set_numberCache (lru.Add hash number (numberCache s)) s) ;;;
          ret (Some number)
      | None => ret None
      end
  end.

Definition GetHeader (hash : Hash) (number : N) : Op (option Header) :=
  c <- gets headerCache ;;
  match lru.Get hash c with
  | (Some header, c') => modify (set_headerCache c') ;;; ret (Some header)
  | (None, _) =>
      db <- gets headerDb ;;
      match rawdb.ReadHeader db hash number with
      | None => ret None
      | Some header =>
          modify (fun s => set_headerCache (lru.Add hash header (headerCache s)) s) ;;;
          ret (Some header)
      end
  end.

Definition GetHeaderByHash (hash : Hash) : Op (option Header) :=
  number <- GetBlockNumber hash ;;
  match number with
  | None => ret None
  | Some n => GetHeader hash n
  end.

(** [hc.currentHeader.Load()] asserted to be a header pointer: the type
    assertion panics while the cell is empty. *)
Definition CurrentHeader : Op Header :=
  h <- gets currentHeader ;;
  match h with Some x => ret x | None => panic end.

(** *** [findCommonHeader] (lines 380-392) *)

Fixpoint findCommonHeader (fuel : nat) (header : option Header) : Op (option Header) :=
  match fuel with
  | O => outOfFuel
  | S fuel' =>
      match header with
      | None => ret None
      | Some h =>
          db <- gets headerDb ;;
          let canonicalHash := rawdb.ReadCanonicalHash db (hNumber h) in
          if N.eqb canonicalHash (hHash h) then GetHeaderByHash canonicalHash
          else
            g <- GenesisHash QuaiNetworkContext ;;
            if N.eqb canonicalHash g then GetHeaderByHash canonicalHash
            else
              header' <- GetHeader (hParent h) (sub64 (hNumber h) 1) ;;
              findCommonHeader fuel' header'
      end
  end.

(** *** [trim] (lines 357-377) *)

Fixpoint trim (fuel : nat) (commonHeader parent : option Header) : Op error :=
  match fuel with
  | O => outOfFuel
  | S fuel' =>
      ph <- Hash_ parent ;;
      ch <- Hash_ commonHeader ;;
      if N.eqb ph ch then ret None
      else
        dh <- Hash_ parent ;;
        dn <- Number64 parent ;;
        modify (set_headerDb (rawdb.DeleteHeader dh dn)) ;;;
        match parent with
        | None => panic
        | Some p =>
            modify (set_bc (bcTrim p)) ;;;
            parent' <- GetHeader (hParent p) (sub64 (hNumber p) 1) ;;
            match parent' with
            | None => ret None
            | Some _ => trim fuel' commonHeader parent'
            end
        end
  end.

(** *** [ResetWithGenesisBlock] (lines 343-354): every registered head is
    trimmed back to [hc.genesisHeader]; the result of [trim] is dropped. *)

Fixpoint trimAll (fuel : nat) (hs : list (option Header)) : Op unit :=
  match hs with
  | [] => ret tt
  | head :: rest =>
      g <- gets genesisHeader ;;
      trim fuel g head ;;;
      trimAll fuel rest
  end.

Definition ResetWithGenesisBlock (fuel : nat) (genesis : option Header) : Op error :=
  hs <- gets heads ;;
  trimAll fuel hs ;;;
  ret None.

Definition Reset (fuel : nat) : Op error :=
  g <- gets genesisHeader ;;
  ResetWithGenesisBlock fuel g.

(** *** [SetCurrentHeader] (lines 217-334) *)

(** Lines 250-265: the old side has reached the common header; the new
    side walks on.  Each round moves to the parent first and pushes what it
    found. *)
Fixpoint collectNew (fuel : nat) (commonHeader newHeader : option Header)
    (hashStack : list (option Header)) : Op (list (option Header)) :=
  match fuel with
  | O => outOfFuel
  | S fuel' =>
      nh <- Hash_ newHeader ;;
      ch <- Hash_ commonHeader ;;
      if N.eqb nh ch then ret hashStack
      else
        np <- Parent newHeader ;;
        nn <- Number64 newHeader ;;
        newHeader' <- GetHeader np (sub64 nn 1) ;;
        let hashStack' := hashStack ++ [newHeader'] in
        nh' <- Hash_ newHeader' ;;
        g <- GenesisHash 0 ;;
        if N.eqb nh' g then ret hashStack'
        else
          match newHeader' with
          | None => ret hashStack'
          | Some _ => collectNew fuel' commonHeader newHeader' hashStack'
          end
  end.

(** Lines 276-292: the new side has reached the common header; the old
    side keeps deleting canonical entries. *)
Fixpoint unwindOld (fuel : nat) (commonHeader prevHeader : option Header) : Op unit :=
  match fuel with
  | O => outOfFuel
  | S fuel' =>
      ph <- Hash_ prevHeader ;;
      ch <- Hash_ commonHeader ;;
      if N.eqb ph ch then ret tt
      else
        n <- Number64 prevHeader ;;
        modify (set_headerDb (rawdb.DeleteCanonicalHash n)) ;;;
        p <- Parent prevHeader ;;
        prevHeader' <- GetHeader p (sub64 n 1) ;;
        ph' <- Hash_ prevHeader' ;;
        g <- GenesisHash 0 ;;
        if N.eqb ph' g then ret tt
        else
          match prevHeader' with
          | None => ret tt
          | Some _ => unwindOld fuel' commonHeader prevHeader'
          end
  end.

(** Lines 247-315: the outer loop.  It returns the stack of headers to
    replay and the per-location slots. *)
Fixpoint reorgLoop (fuel : nat) (commonHeader prevHeader newHeader : option Header)
    (hashStack sliceHeaders : list (option Header)) :
    Op (list (option Header) * list (option Header)) :=
  match fuel with
  | O => outOfFuel
  | S fuel' =>
      ph <- Hash_ prevHeader ;;
      ch <- Hash_ commonHeader ;;
      if N.eqb ph ch then
        hashStack' <- collectNew fuel commonHeader newHeader hashStack ;;
        ret (hashStack', sliceHeaders)
      else
        n <- Number64 prevHeader ;;
        modify (set_headerDb (rawdb.DeleteCanonicalHash n)) ;;;
        p <- Parent prevHeader ;;
        prevHeader' <- GetHeader p (sub64 n 1) ;;
        nh <- Hash_ newHeader ;;
        ch' <- Hash_ commonHeader ;;
        if N.eqb nh ch' then
          unwindOld fuel commonHeader prevHeader' ;;;
          ret (hashStack, sliceHeaders)
        else
          let hashStack' := hashStack ++ [newHeader] in
          np <- Parent newHeader ;;
          nn <- Number64 newHeader ;;
          newHeader' <- GetHeader np (sub64 nn 1) ;;
          ph' <- Hash_ prevHeader' ;;
          g <- GenesisHash 0 ;;
          if N.eqb ph' g then ret (hashStack', sliceHeaders)
          else
            match prevHeader' with
            | None => ret (hashStack', sliceHeaders)
            | Some pv =>
                sliceHeaders' <-
                  (if negb (Nat.eqb QuaiNetworkContext ZONE)
                   then setSlice sliceHeaders pv
                   else ret sliceHeaders) ;;
                reorgLoop fuel' commonHeader prevHeader' newHeader' hashStack' sliceHeaders'
            end
  end.

(** Lines 321-331, run on the reversed stack: the last header pushed is
    written first. *)
Fixpoint replay (stack sliceHeaders : list (option Header)) : Op (list (option Header)) :=
  match stack with
  | [] => ret sliceHeaders
  | x :: rest =>
      h <- Hash_ x ;;
      n <- Number64 x ;;
      modify (set_headerDb (rawdb.WriteCanonicalHash h n)) ;;;
      sliceHeaders' <-
        (if negb (Nat.eqb QuaiNetworkContext ZONE) then
           match x with
           | None => panic
           | Some hx =>
               if negb (Nat.eqb (length (hLocation hx)) 0)
               then setSlice sliceHeaders hx
               else ret sliceHeaders
           end
         else ret sliceHeaders) ;;
      replay rest sliceHeaders'
  end.

(** [head] is the header the non-nil argument points to. *)
Definition SetCurrentHeader (fuel : nat) (head : Header) :
    Op (list (option Header) * error) :=
  prevHeader <- CurrentHeader ;;
  let sliceHeaders : list (option Header) := replicate 3 None in
  modify (set_currentHeader head) ;;;
  modify (set_currentHeaderHash (hHash head)) ;;;
  modify (set_headerDb (rawdb.WriteHeadBlockHash (hHash head))) ;;;
  if N.eqb (hHash prevHeader) (hParent head) then
    modify (set_headerDb (rawdb.WriteCanonicalHash (hHash head) (hNumber head))) ;;;
    sliceHeaders' <-
      (if negb (Nat.eqb QuaiNetworkContext ZONE)
       then setSlice sliceHeaders head
       else ret sliceHeaders) ;;
    ret (sliceHeaders', None)
  else
    commonHeader <- findCommonHeader fuel (Some head) ;;
    r <- reorgLoop fuel commonHeader (Some prevHeader) (Some head) [] sliceHeaders ;;
    sliceHeaders' <- replay (rev (fst r)) (snd r) ;;
    ret (sliceHeaders', None).

(** *** [Append] (lines 144-213) *)

(** [sort.Slice(hc.heads, less)] with [less] comparing [Number] in the
    operating context (lines 198-200).  [less(i, j)] reads entry [i], then
    entry [j], and reading the number of a nil entry panics.

    The library sorts in place and is not stable.  On a short slice (up
    to six entries in every version of the library, up to twelve from Go
    1.19 on) it runs the insertion sort below: each entry in turn moves
    towards the front while it is less than the entry before it, so it
    stays behind the entries of the same number, and a panic leaves the
    slice as the swaps made until then have it.  On a longer slice the
    library starts with another pass; what it returns is a sorted
    rearrangement as well, and it panics on a nil entry as well, but the
    order among entries of the same number and the order a panic leaves
    behind are its own and not followed here. *)
Definition less (a b : option Header) : option bool :=
  match a, b with
  | Some x, Some y => Some (N.ltb (hNumber x) (hNumber y))
  | _, _ => None
  end.

(** The inner loop: [e] moves past the entries in front of it, given
    nearest first, and the result is again nearest first, [e] included;
    the flag is false when [less] has panicked. *)
Fixpoint sink (e : option Header) (before : list (option Header)) :
    list (option Header) * bool :=
  match before with
  | [] => ([e], true)
  | p :: before' =>
      match less e p with
      | None => (e :: before, false)
      | Some true => let r := sink e before' in (p :: fst r, snd r)
      | Some false => (e :: before, true)
      end
  end.

(** The outer loop over the entries [rest] still to be inserted. *)
Fixpoint insertionSort (before rest : list (option Header)) :
    list (option Header) * bool :=
  match rest with
  | [] => (rev before, true)
  | e :: rest' =>
      let r := sink e before in
      if snd r then insertionSort (fst r) rest'
      else (rev (fst r) ++ rest', false)
  end.

Definition sortSlice (l : list (option Header)) : list (option Header) * bool :=
  match l with
  | [] => ([], true)
  | x :: rest => insertionSort [x] rest
  end.

Fixpoint nonNil (l : list (option Header)) : option (list Header) :=
  match l with
  | [] => Some []
  | None :: _ => None
  | Some x :: l' => match nonNil l' with Some r => Some (x :: r) | None => None end
  end.

Definition sortHeads : Op unit :=
  hs <- gets heads ;;
  let r := sortSlice hs in
  modify (set_heads (fst r)) ;;;
  if snd r then ret tt else panic.

Definition Appendable (block : Block) : Op error :=
  err <- VerifyHeader (blockHeader block) ;;
  match err with
  | Some e => ret (Some e)
  | None => b <- gets bc ;; ret (bcAppendable b block)
  end.

(** Lines 178-194: garbage collection once the registry holds
    [maxHeadsQueueLimit] heads. *)
Definition evictOldest (fuel : nat) : Op error :=
  hs <- gets heads ;;
  if Nat.eqb (length hs) maxHeadsQueueLimit then
    match hs with
    | [] => panic
    | oldest :: rest =>
        commonHeader <- findCommonHeader fuel oldest ;;
        match commonHeader with
        | None => ret (Some "nil head in hc.heads"%string)
        | Some _ =>
            err <- trim fuel commonHeader oldest ;;
            match err with
            | Some e => ret (Some e)
            | None => modify (set_heads rest) ;;; ret None
            end
        end
    end
  else ret None.

(** Lines 196-201: the new head joins the registry, which is sorted again. *)
Definition registerHead (header : Header) : Op unit :=
  modify (fun s => set_heads (heads s ++ [Some header]) s) ;;;
  sortHeads.

Definition Append (fuel : nat) (block : Block) : Op error :=
  err <- Appendable block ;;
  match err with
  | Some e => ret (Some e)
  | None =>
      let header := blockHeader block in
      db <- gets headerDb ;;
      match batchWrite db header with
      | Some e => ret (Some e)
      | None =>
          modify (set_headerDb (rawdb.WriteHeader header)) ;;;
          b <- gets bc ;;
          let r := bcAppend block b in
          modify (set_bc (fun _ => snd r)) ;;;
          match snd (fst r) with
          | Some e =>
              modify (set_headerDb (rawdb.DeleteHeader (hHash header) (hNumber header))) ;;;
              ret (Some e)
          | None =>
              let logs := fst (fst r) in
              modify (set_chainFeed (fun l => l ++ [mkChainEvent block (hHash header) logs])) ;;;
              (if Nat.ltb 0 (length logs)
               then modify (set_logsFeed (fun l => l ++ [logs]))
               else ret tt) ;;;
              gc <- evictOldest fuel ;;
              match gc with
              | Some e => ret (Some e)
              | None => registerHead header ;;; ret None
              end
          end
      end
  end.

(** *** [GetAncestor] (lines 518-550)

    The counter [ancestor] of the [for ancestor != 0] loop drives the
    recursion; the budget behind the pointer [maxNonCanonical] is threaded
    through and returned as third component. *)
Fixpoint GetAncestor_loop (ancestor : nat) (hash : Hash) (number maxNonCanonical : N) :
    Op (Hash * N * N) :=
  match ancestor with
  | O => ret (hash, number, maxNonCanonical)
  | S ancestor' =>
      db <- gets headerDb ;;
      let walk : Op (Hash * N * N) :=
        if N.eqb maxNonCanonical 0 then ret (zeroHash, 0, maxNonCanonical)
        else
          let maxNonCanonical' := sub64 maxNonCanonical 1 in
          header <- GetHeader hash number ;;
          match header with
          | None => ret (zeroHash, 0, maxNonCanonical')
          | Some h => GetAncestor_loop ancestor' (hParent h) (sub64 number 1) maxNonCanonical'
          end in
      if N.eqb (rawdb.ReadCanonicalHash db number) hash then
        let ancestorHash := rawdb.ReadCanonicalHash db (sub64 number (N.of_nat ancestor)) in
        if N.eqb (rawdb.ReadCanonicalHash db number) hash
        then ret (ancestorHash, sub64 number (N.of_nat ancestor), maxNonCanonical)
        else walk
      else walk
  end.

Definition GetAncestor (hash : Hash) (number ancestor maxNonCanonical : N) :
    Op (Hash * N * N) :=
  if N.ltb number ancestor then ret (zeroHash, 0, maxNonCanonical)
  else if N.eqb ancestor 1 then
    header <- GetHeader hash number ;;
    match header with
    | Some h => ret (hParent h, sub64 number 1, maxNonCanonical)
    | None => ret (zeroHash, 0, maxNonCanonical)
    end
  else GetAncestor_loop (N.to_nat ancestor) hash number maxNonCanonical.

(** *** [GetAncestorByLocation] (lines 555-570)

    The [header] assigned inside the loop is a new variable of the loop
    body; the loop condition keeps reading the outer one. *)
Fixpoint GetAncestorByLocation_loop (fuel : nat) (header : option Header)
    (location : list N) : Op (option Header * error) :=
  match fuel with
  | O => outOfFuel
  | S fuel' =>
      loc <- Location header ;;
      if bool_decide (loc = location) then ret (header, None)
      else
        hash <- Parent header ;;
        inner <- GetHeaderByHash hash ;;
        match inner with
        | Some _ => ret (None, Some "error finding header by hash"%string)
        | None => GetAncestorByLocation_loop fuel' header location
        end
  end.

Definition GetAncestorByLocation (fuel : nat) (hash : Hash) (location : list N) :
    Op (option Header * error) :=
  header <- GetHeaderByHash hash ;;
  match header with
  | Some _ => ret (None, Some "error finding header by hash"%string)
  | None => GetAncestorByLocation_loop fuel header location
  end.

(** *** [GetTd], [GetTdByHash] (lines 574-596)

    A Go slice of big-integer pointers: [None] for the nil slice, and
    inside a slice [None] for a nil pointer. *)
Definition GetTd (hash : Hash) (number : N) : Op (option (list (option Z))) :=
  db <- gets headerDb ;;
  match rawdb.ReadTd db hash number with
  | None => ret (Some (replicate 3 None))
  | Some td =>
      modify (fun s => set_tdCache (lru.Add hash td (tdCache s)) s) ;;;
      ret (Some td)
  end.

Definition GetTdByHash (hash : Hash) : Op (option (list (option Z))) :=
  number <- GetBlockNumber hash ;;
  match number with
  | None => ret (Some (replicate 3 None))
  | Some n => GetTd hash n
  end.

(** *** Lookups by number and existence (lines 624-648) *)

Definition HasHeader (hash : Hash) (number : N) : Op bool :=
  nc <- gets numberCache ;;
  hcache <- gets headerCache ;;
  if lru.Contains hash nc || lru.Contains hash hcache then ret true
  else
    db <- gets headerDb ;;
    ret (rawdb.HasHeader db hash number).

Definition GetHeaderByNumber (number : N) : Op (option Header) :=
  db <- gets headerDb ;;
  let hash := rawdb.ReadCanonicalHash db number in
  if N.eqb hash zeroHash then ret None
  else GetHeader hash number.

Definition GetCanonicalHash (number : N) : Op Hash :=
  db <- gets headerDb ;;
  ret (rawdb.ReadCanonicalHash db number).

(** *** [empty] (lines 445-452) *)

Definition empty : Op bool :=
  g <- gets genesisHeader ;;
  genesis <- Hash_ g ;;
  db <- gets headerDb ;;
  if N.eqb (rawdb.ReadHeadBlockHash db) genesis then ret true else ret false.

(** *** [SetGenesis] (lines 662-664) *)

Definition SetGenesis (head : option Header) : Op unit :=
  modify (fun s =>
    mkHeaderChain (genesisHashes s) (bc s) (chainFeed s) (logsFeed s) (headerDb s)
      head (currentHeader s) (currentHeaderHash s)
      (headerCache s) (tdCache s) (numberCache s) (heads s)).

(** *** The loop of [GetBlockHashesFromHash] (lines 500-509)

    The counter [i] of the loop runs up to [max] and drives the recursion;
    [header] is never nil inside the loop.  Block numbers are below
    [2^64], so [Number.Sign() == 0] says that [hNumber] is 0. *)
Fixpoint GetBlockHashesFromHash_loop (max : nat) (header : Header) (chain : list Hash) :
    Op (list Hash) :=
  match max with
  | O => ret chain
  | S max' =>
      let next := hParent header in
      header' <- GetHeader next (sub64 (hNumber header) 1) ;;
      match header' with
      | None => ret chain
      | Some h =>
          let chain' := chain ++ [next] in
          if N.eqb (hNumber h) 0 then ret chain'
          else GetBlockHashesFromHash_loop max' h chain'
      end
  end.

(** *** [loadLastState] (lines 396-418) *)

Fixpoint loadHeads (hashes : list Hash) (heads : list (option Header)) :
    Op (list (option Header)) :=
  match hashes with
  | [] => ret heads
  | hash :: rest =>
      h <- GetHeaderByHash hash ;;
      loadHeads rest (heads ++ [h])
  end.

Definition loadLastState : Op error :=
  db <- gets headerDb ;;
  let headsHashes := rawdb.ReadHeadsHashes db in
  let head := rawdb.ReadHeadBlockHash db in
  (if negb (N.eqb head zeroHash) then
     chead <- GetHeaderByHash head ;;
     match chead with
     | Some c =>
         modify (set_currentHeader c) ;;;
         modify (set_currentHeaderHash (hHash c))
     | None => ret tt
     end
   else ret tt) ;;;
  cur <- CurrentHeader ;;
  modify (set_currentHeaderHash (hHash cur)) ;;;
  hs <- loadHeads headsHashes [] ;;
  modify (set_heads hs) ;;;
  ret None.

End Methods.

(** ** Hash listings (lines 492-511)

    Modelled from the Go runtime: [make] with a capacity refuses, with a
    panic, a slice whose capacity times the size of an element exceeds
    [maxAlloc], a constant of the platform ([2^48] on 64-bit Linux), or
    whose capacity does not fit an [int].  An allocation within that
    bound which the machine cannot serve ends the process; that is not
    modelled. *)
Class Runtime : Type := mkRuntime {
  maxAlloc : N
}.

Section HashListing.
Context `{Env} {rt : Runtime}.

(** [GetBlockHashesFromHash]: the result is [None] for the nil slice.
    Line 499 allocates room for [max] hashes before the first parent is
    looked up. *)
Definition GetBlockHashesFromHash (hash : Hash) (max : N) :
    M (HeaderChain BlockChain) (option (list Hash)) :=
  header <- GetHeaderByHash hash ;;
  match header with
  | None => ret None
  | Some h =>
      if N.ltb maxAlloc (HashLength * max) then panic
      else
        chain <- GetBlockHashesFromHash_loop (N.to_nat max) h [] ;;
        ret (Some chain)
  end.

End HashListing.

(** ** The service flags (lines 86-89, 420-464)

    The fields of [HeaderChain] that only [Stop], [StopInsert] and
    [insertStopped] use, kept in a record around the chain.
    [running] and [procInterrupt] are the two [int32] flags; [quitClosed]
    says that the channel [hc.quit] has been closed, [scopeClosed] that
    [hc.bc.scope.Close()] has been called.  No method of the file adds to
    the wait group, so [hc.wg.Wait()] returns at once. *)
Record Service (BC : Type) : Type := mkService {
  chainOf : HeaderChain BC;
  running : Z;
  procInterrupt : Z;
  quitClosed : bool;
  scopeClosed : bool
}.
Arguments mkService {BC} _ _ _ _ _.
Arguments chainOf {BC} _.
Arguments running {BC} _.
Arguments procInterrupt {BC} _.
Arguments quitClosed {BC} _.
Arguments scopeClosed {BC} _.

Definition set_chainOf {BC} (c : HeaderChain BC) (sv : Service BC) : Service BC :=
  mkService c (running sv) (procInterrupt sv) (quitClosed sv) (scopeClosed sv).

Definition set_running {BC} (v : Z) (sv : Service BC) : Service BC :=
  mkService (chainOf sv) v (procInterrupt sv) (quitClosed sv) (scopeClosed sv).

Definition set_procInterrupt {BC} (v : Z) (sv : Service BC) : Service BC :=
  mkService (chainOf sv) (running sv) v (quitClosed sv) (scopeClosed sv).

Definition set_quitClosed {BC} (v : bool) (sv : Service BC) : Service BC :=
  mkService (chainOf sv) (running sv) (procInterrupt sv) v (scopeClosed sv).

Definition set_scopeClosed {BC} (v : bool) (sv : Service BC) : Service BC :=
  mkService (chainOf sv) (running sv) (procInterrupt sv) (quitClosed sv) v.

(** A computation on the chain, run inside the service. *)
Definition onChain {BC A} (m : M (HeaderChain BC) A) : M (Service BC) A :=
  fun sv =>
    match m (chainOf sv) with
    | Ret a c => Ret a (set_chainOf c sv)
    | Panic c => Panic (set_chainOf c sv)
    | OutOfFuel => OutOfFuel
    end.

Section ServiceMethods.
Context `{Env}.

Local Abbreviation HC := (HeaderChain BlockChain).
Local Abbreviation Sv := (M (Service BlockChain)).

Definition StopInsert : Sv unit := modify (set_procInterrupt 1%Z).

Definition insertStopped : Sv bool :=
  v <- gets procInterrupt ;;
  ret (Z.eqb v 1).

(** Lines 427-430. *)
Fixpoint headHashes (hs : list (option Header)) (hashes : list Hash) : M HC (list Hash) :=
  match hs with
  | [] => ret hashes
  | h :: rest =>
      x <- Hash_ h ;;
      headHashes rest (hashes ++ [x])
  end.

(** Closing a closed channel panics. *)
Definition closeQuit : Sv unit :=
  q <- gets quitClosed ;;
  if q then panic else modify (set_quitClosed true).

(** Lines 427-433: the hashes of the registered heads and the hash of
    the current header are written to the store. *)
Definition saveHeads : M HC unit :=
  hs <- gets heads ;;
  hashes <- headHashes hs [] ;;
  modify (set_headerDb (rawdb.WriteHeadsHashes hashes)) ;;;
  cur <- CurrentHeader ;;
  modify (set_headerDb (rawdb.WriteHeadBlockHash (hHash cur))).

Definition Stop : Sv unit :=
  r <- gets running ;;
  if negb (Z.eqb r 0) then ret tt
  else
    modify (set_running 1%Z) ;;;
    onChain saveHeads ;;;
    modify (set_scopeClosed true) ;;;
    closeQuit ;;;
    StopInsert.

End ServiceMethods.

(** ** Range checks (lines 675-692)

    Modelled from the spec: [params.FullerOntology], the slice of integers
    with the number of regions and the number of zones per region, is
    declared in another package. *)
Class Ontology : Type := mkOntology {
  FullerOntology : list Z
}.

Section RangeChecks.
Context `{Env} `{Ontology}.

Local Abbreviation Op := (M (HeaderChain BlockChain)).

Definition CheckContext (context : Z) : Op error :=
  if Z.ltb context 0 || Z.ltb (Z.of_nat (length FullerOntology)) context
  then ret (Some "the provided path is outside the allowable range"%string)
  else ret None.

(** [int(location[i]) < 1 || int(location[i]) > params.FullerOntology[i]],
    with the panics of the two index expressions; the right operand is
    evaluated only when the left one is false. *)
Definition outsideRange (location : list N) (i : nat) : Op bool :=
  match location !! i with
  | None => panic
  | Some b =>
      if Z.ltb (Z.of_N b) 1 then ret true
      else
        match FullerOntology !! i with
        | None => panic
        | Some limit => ret (Z.ltb limit (Z.of_N b))
        end
  end.

Definition CheckLocationRange (location : list N) : Op error :=
  r <- outsideRange location 0 ;;
  if r then ret (Some "the provided location is outside the allowable region range"%string)
  else
    z <- outsideRange location 1 ;;
    if z then ret (Some "the provided location is outside the allowable zone range"%string)
    else ret None.

End RangeChecks.

(** ** Blocks and export (lines 656-659, 669-673, 727-776, 819-836)

    Modelled from the spec: the chain-body collaborator answers
    [GetBlock(hash, number) -> block|nil].  [EncodeRLP] belongs to
    [types.Block], declared in another package: it is taken as the bytes
    it writes to the writer and the error it returns.  The writer is the
    list of the bytes written so far. *)
Class BlockSource (BC : Type) : Type := mkBlockSource {
  bcGetBlock : BC -> Hash -> N -> option Block;
  EncodeRLP : Block -> list N * error
}.

Definition add64 (a b : N) : N := (a + b) mod two64.

Section Blocks.
Context `{Env} `{BlockSource BlockChain}.

Local Abbreviation Op := (M (HeaderChain BlockChain)).

Definition GetBlock (hash : Hash) (number : N) : Op (option Block) :=
  b <- gets bc ;;
  ret (bcGetBlock b hash number).

Definition GetBlockByHash (hash : Hash) : Op (option Block) :=
  number <- GetBlockNumber hash ;;
  match number with
  | None => ret None
  | Some n => GetBlock hash n
  end.

Definition GetBlockByNumber (number : N) : Op (option Block) :=
  db <- gets headerDb ;;
  let hash := rawdb.ReadCanonicalHash db number in
  if N.eqb hash zeroHash then ret None
  else GetBlock hash number.

Definition CurrentBlock : Op (option Block) :=
  cur <- CurrentHeader ;;
  GetBlockByHash (hHash cur).

(** [GetBlocksFromHash]: the nil slice and the empty slice are both [[]];
    the counter [i] runs up to the signed [n]. *)
Fixpoint GetBlocksFromHash_loop (n : nat) (hash : Hash) (number : N) (blocks : list Block) :
    Op (list Block) :=
  match n with
  | O => ret blocks
  | S n' =>
      block <- GetBlock hash number ;;
      match block with
      | None => ret blocks
      | Some b =>
          GetBlocksFromHash_loop n' (hParent (blockHeader b)) (sub64 number 1) (blocks ++ [b])
      end
  end.

Definition GetBlocksFromHash (hash : Hash) (n : Z) : Op (list Block) :=
  number <- GetBlockNumber hash ;;
  match number with
  | None => ret []
  | Some num => GetBlocksFromHash_loop (Z.to_nat n) hash num []
  end.

(** [ExportN]: the loop [for nr := first; nr <= last; nr++] on unsigned
    64-bit numbers; the result is the writer and the error. *)
Fixpoint ExportN_loop (fuel : nat) (w : list N) (nr last : N) : Op (list N * error) :=
  match fuel with
  | O => outOfFuel
  | S fuel' =>
      if N.ltb last nr then ret (w, None)
      else
        block <- GetBlockByNumber nr ;;
        match block with
        | None =>
            ret (w, Some ("export failed on #" +:+ pretty nr +:+ ": not found")%string)
        | Some b =>
            match snd (EncodeRLP b) with
            | Some e => ret (w ++ fst (EncodeRLP b), Some e)
            | None => ExportN_loop fuel' (w ++ fst (EncodeRLP b)) (add64 nr 1) last
            end
        end
  end.

Definition ExportN (fuel : nat) (w : list N) (first last : N) : Op (list N * error) :=
  if N.ltb last first then
    ret (w, Some ("export failed: first (" +:+ pretty first +:+
                  ") is greater than last (" +:+ pretty last +:+ ")")%string)
  else ExportN_loop fuel w first last.

Definition Export (fuel : nat) (w : list N) : Op (list N * error) :=
  cur <- CurrentHeader ;;
  ExportN fuel w 0 (hNumber cur).

End Blocks.

(** ** Notions used to state the properties *)

(** The registry holds no nil entry and its numbers never decrease. *)
Definition ascending (l : list (option Header)) : Prop :=
  exists hs, nonNil l = Some hs /\
    StronglySorted (fun a b => hNumber a <= hNumber b) hs.

(** The entries in front of the one the sort is inserting, nearest
    first: no nil entry, and the numbers never increase. *)
Definition descending (l : list (option Header)) : Prop :=
  exists hs, nonNil l = Some hs /\
    StronglySorted (fun a b => hNumber b <= hNumber a) hs.

(** The stored branch of [h]: [h], its parent, and so on while the store
    holds the parent under the preceding number. *)
Fixpoint ancestry (fuel : nat) (db : Database) (h : Header) : list Header :=
  h :: match fuel with
       | O => []
       | S fuel' =>
           match rawdb.ReadHeader db (hParent h) (sub64 (hNumber h) 1) with
           | Some p => ancestry fuel' db p
           | None => []
           end
       end.


Section Notions.
Context `{Env}.

(** Every entry of a vector is a difficulty of value zero, one a caller
    can read as a number. *)
Definition zeroDifficulties (v : list (option Z)) : Prop :=
  Forall (fun e => e = Some 0%Z) v.

(** A property of the chain that reading a header or a block number
    maintains. *)
Definition readStable (I : HeaderChain BlockChain -> Prop) : Prop :=
  (forall hash number, keeps I (GetHeader hash number)) /\
  (forall hash, keeps I (GetBlockNumber hash)).

(** A property of the chain that every lookup of the chain view
    maintains: headers, block numbers and total difficulties. *)
Definition viewStable (I : HeaderChain BlockChain -> Prop) : Prop :=
  readStable I /\ (forall hash number, keeps I (GetTd hash number)).

(** Modelled from the spec: the consensus collaborator has read access to
    the chain as a chain view (header, number and total-difficulty
    lookups).  Whatever those lookups maintain, the verification of a
    header maintains. *)
Class ChainView : Prop := mkChainView {
  VerifyHeader_reads :
    forall (header : Header) (I : HeaderChain BlockChain -> Prop),
      viewStable I -> keeps I (VerifyHeader header)
}.

(** The chain once [Append] has written the header, appended the body and
    notified the subscribers (lines 156-173), before garbage collection.
    [s] is the chain the checks have left. *)
Definition afterBody (block : Block) (s : HeaderChain BlockChain) : HeaderChain BlockChain :=
  let header := blockHeader block in
  let r := bcAppend block (bc s) in
  let logs := fst (fst r) in
  let s1 := set_bc (fun _ => snd r) (set_headerDb (rawdb.WriteHeader header) s) in
  let s2 := set_chainFeed (fun l => l ++ [mkChainEvent block (hHash header) logs]) s1 in
  if Nat.ltb 0 (length logs) then set_logsFeed (fun l => l ++ [logs]) s2 else s2.

(** The chain once [SetCurrentHeader] has stored the new head, its hash
    and the head-block hash (lines 224-229). *)
Definition headStored (head : Header) (s : HeaderChain BlockChain) : HeaderChain BlockChain :=
  set_headerDb (rawdb.WriteHeadBlockHash (hHash head))
    (set_currentHeaderHash (hHash head) (set_currentHeader head s)).

(** All checks of [Append] before garbage collection pass: the header is
    verified, which leaves the chain [s0], the body chain takes the block,
    the batch is written and the body is appended. *)
Definition appended (block : Block) (s s0 : HeaderChain BlockChain) : Prop :=
  VerifyHeader (blockHeader block) s = Ret None s0 /\
  bcAppendable (bc s0) block = None /\
  batchWrite (headerDb s0) (blockHeader block) = None /\
  snd (fst (bcAppend block (bc s0))) = None.

(** The first [k] positions of the walk of [GetAncestor] from
    [(hash, number)] are off the canonical chain: none of them is
    short-circuited.  The walk ends early where a header is missing. *)
Fixpoint neverCanonical (k : nat) (hash : Hash) (number : N) :
    M (HeaderChain BlockChain) bool :=
  match k with
  | O => ret true
  | S k' =>
      db <- gets headerDb ;;
      if N.eqb (rawdb.ReadCanonicalHash db number) hash then ret false
      else
        header <- GetHeader hash number ;;
        match header with
        | None => ret true
        | Some h => neverCanonical k' (hParent h) (sub64 number 1)
        end
  end.


(** The total-difficulty guarantee in the spec's words: without a record
    the vector returned has the length of the contexts and zero
    difficulties as entries. *)
Definition absentTdIsZero : Prop :=
  forall hash number (s : HeaderChain BlockChain) v,
    rawdb.ReadTd (headerDb s) hash number = None ->
    returned (GetTd hash number s) = Some (Some v) ->
    length v = 3%nat /\ zeroDifficulties v.

End Notions.

(** Two chains that differ at most in their caches. *)
Definition sameButCaches {BC} (s s' : HeaderChain BC) : Prop :=
  genesisHashes s' = genesisHashes s /\ bc s' = bc s /\
  chainFeed s' = chainFeed s /\ logsFeed s' = logsFeed s /\
  headerDb s' = headerDb s /\ genesisHeader s' = genesisHeader s /\
  currentHeader s' = currentHeader s /\ currentHeaderHash s' = currentHeaderHash s /\
  heads s' = heads s.

(** [c] lies on the stored branch of [x], numbers strictly decreasing on
    the way down. *)
Inductive descends (db : Database) (c : Header) : Header -> Prop :=
| descends_here : descends db c c
| descends_step x p :
    rawdb.ReadHeader db (hParent x) (sub64 (hNumber x) 1) = Some p ->
    hNumber p < hNumber x ->
    descends db c p ->
    descends db c x.

(** Under one hash the store holds one header, and the header cache holds
    nothing else. *)
Definition storeFunctional (db : Database) : Prop :=
  forall h n n' x y,
    dbHeaders db !! (h, n) = Some x -> dbHeaders db !! (h, n') = Some y -> x = y.

(** Every record is stored under the hash of its header. *)
Definition hashKeyed (db : Database) : Prop :=
  forall k n x, dbHeaders db !! (k, n) = Some x -> hHash x = k.

(** A parent of [h], wherever the store holds one, is stored under the
    number before that of [h] and has a smaller number. *)
Definition linked (db : Database) (h : Header) : Prop :=
  forall m p, dbHeaders db !! (hParent h, m) = Some p ->
    m = sub64 (hNumber h) 1 /\ hNumber p < hNumber h.

Definition wellLinked (db : Database) : Prop :=
  forall k x, dbHeaders db !! k = Some x -> linked db x.

(** [hashKeyed] and [wellLinked] checked on the entries of the store. *)
Definition keyedEntries (l : list (Hash * N * Header)) : Prop :=
  Forall (fun e => hHash e.2 = e.1.1) l.

Definition linkedEntries (l : list (Hash * N * Header)) : Prop :=
  Forall (fun e1 =>
    Forall (fun e2 =>
      e2.1.1 = hParent e1.2 ->
      e2.1.2 = sub64 (hNumber e1.2) 1 /\ hNumber e2.2 < hNumber e1.2) l) l.

(** [storeFunctional] checked on the entries of the store. *)
Definition functionalEntries (l : list (Hash * N * Header)) : Prop :=
  Forall (fun e1 => Forall (fun e2 => e1.1.1 = e2.1.1 -> e1.2 = e2.2) l) l.

Definition cacheAgrees {BC} (s : HeaderChain BC) : Prop :=
  forall k x, (k, x) ∈ lru.items (headerCache s) ->
    exists n, dbHeaders (headerDb s) !! (k, n) = Some x.

(** [y] lies on the stored branch of [p], above the header [c] of that
    branch and with another hash than [c]. *)
Definition strictlyAbove (db : Database) (c p y : Header) : Prop :=
  descends db c y /\ descends db y p /\ hHash y <> hHash c.

(** What unwinding the canonical mapping from [p] down to [c] leaves:
    entries are only deleted, those of a number up to that of [c] are all
    there, those of the headers above [c] are gone, and the header records
    are untouched. *)
Definition unwound {BC} (db : Database) (c p : Header) (s s' : HeaderChain BC) : Prop :=
  (forall n v, dbCanonical (headerDb s') !! n = Some v -> dbCanonical (headerDb s) !! n = Some v) /\
  (forall n, n <= hNumber c -> dbCanonical (headerDb s') !! n = dbCanonical (headerDb s) !! n) /\
  (forall y, strictlyAbove db c p y -> dbCanonical (headerDb s') !! hNumber y = None) /\
  dbHeaders (headerDb s') = dbHeaders (headerDb s).

(** The branches of [p] and of [n] reach [c] after the same number of
    parent steps, numbers decreasing on the way; [c] is the first header
    of either branch with its hash. *)
Inductive sameDepth (db : Database) (c : Header) : Header -> Header -> Prop :=
| sameDepth_here : sameDepth db c c c
| sameDepth_step p n p' n' :
    hHash p <> hHash c -> hHash n <> hHash c ->
    rawdb.ReadHeader db (hParent p) (sub64 (hNumber p) 1) = Some p' ->
    hNumber p' < hNumber p ->
    rawdb.ReadHeader db (hParent n) (sub64 (hNumber n) 1) = Some n' ->
    hNumber n' < hNumber n ->
    sameDepth db c p' n' ->
    sameDepth db c p n.

(** What replaying the headers [l] leaves in the canonical mapping: the
    entries of other numbers are untouched, and when the numbers of [l]
    differ from one another each header of [l] is the entry of its number. *)
Definition replayed {BC} (l : list Header) (s s' : HeaderChain BC) : Prop :=
  (forall m, (forall y, y ∈ l -> hNumber y <> m) ->
     dbCanonical (headerDb s') !! m = dbCanonical (headerDb s) !! m) /\
  (NoDup (map hNumber l) ->
   forall y, y ∈ l -> dbCanonical (headerDb s') !! hNumber y = Some (hHash y)) /\
  dbHeaders (headerDb s') = dbHeaders (headerDb s).

(** The number of every record is the one kept under its hash, as
    [rawdb.WriteHeader] leaves it. *)
Definition numbersRecorded (db : Database) : Prop :=
  forall k n x, dbHeaders db !! (k, n) = Some x -> dbHeaderNumbers db !! k = Some n.

(** The number cache holds only numbers the store keeps under the hash. *)
Definition numberCacheAgrees {BC} (s : HeaderChain BC) : Prop :=
  forall k n, (k, n) ∈ lru.items (numberCache s) ->
    dbHeaderNumbers (headerDb s) !! k = Some n.

(** [numbersRecorded] checked on the entries of the store. *)
Definition recordedEntries (db : Database) (l : list (Hash * N * Header)) : Prop :=
  Forall (fun e => dbHeaderNumbers db !! e.1.1 = Some e.1.2) l.


(** What [trim] maintains on its way down a branch of [db0]: no record is
    added, the records of number at most [m] are all there, and the header
    cache holds only headers of [db0]. *)
Definition trimInv {BC} (db0 : Database) (m : N) (s : HeaderChain BC) : Prop :=
  (forall k x, dbHeaders (headerDb s) !! k = Some x -> dbHeaders db0 !! k = Some x) /\
  (forall k n, n <= m -> dbHeaders (headerDb s) !! (k, n) = dbHeaders db0 !! (k, n)) /\
  (forall k y, (k, y) ∈ lru.items (headerCache s) ->
     exists n, dbHeaders db0 !! (k, n) = Some y).

Section SlotNotions.
Context `{Env}.

(** The location of [y] names a slot of the three-slot slice that
    [SetCurrentHeader] returns, or the chain runs in the zone context,
    where no slot is assigned. *)
Definition validSlot (y : Header) : Prop :=
  QuaiNetworkContext = ZONE \/
  exists b, hLocation y !! QuaiNetworkContext = Some b /\ 1 <= b <= 3.

End SlotNotions.

(** *** Sequences of calls *)

Section CallNotions.
Context `{Env}.

(** The headers the chain stores, caches and registers all belong to the
    headers of [U]. *)
Definition within (U : Database) (s : HeaderChain BlockChain) : Prop :=
  (forall k x, dbHeaders (headerDb s) !! k = Some x -> dbHeaders U !! k = Some x) /\
  (forall k y, (k, y) ∈ lru.items (headerCache s) ->
     exists n, dbHeaders U !! (k, n) = Some y) /\
  (forall h, Some h ∈ heads s -> exists n, dbHeaders U !! (hHash h, n) = Some h).

(** A chain within [U] that stores its genesis header [g] at number 0,
    the genesis hash of the context being the hash of [g]. *)
Definition rooted (U : Database) (g : Header) (s : HeaderChain BlockChain) : Prop :=
  within U s /\
  genesisHeader s = Some g /\
  genesisHashes s !! QuaiNetworkContext = Some (hHash g) /\
  dbHeaders (headerDb s) !! (hHash g, 0) = Some g.

(** The calls that write to the chain or fill its caches. *)
Inductive call : Type :=
| callAppend (fuel : nat) (block : Block)
| callSetCurrentHeader (fuel : nat) (head : Header)
| callReset (fuel : nat)
| callGetHeader (hash : Hash) (number : N)
| callGetHeaderByHash (hash : Hash).

(** The chain a call leaves behind, whether it returns or panics. *)
Definition afterCall (c : call) (s : HeaderChain BlockChain) : option (HeaderChain BlockChain) :=
  match c with
  | callAppend fuel block => finalState (Append fuel block s)
  | callSetCurrentHeader fuel head => finalState (SetCurrentHeader fuel head s)
  | callReset fuel => finalState (Reset fuel s)
  | callGetHeader hash number => finalState (GetHeader hash number s)
  | callGetHeaderByHash hash => finalState (GetHeaderByHash hash s)
  end.

Fixpoint afterCalls (l : list call) (s : HeaderChain BlockChain) :
    option (HeaderChain BlockChain) :=
  match l with
  | [] => Some s
  | c :: l' =>
      match afterCall c s with
      | Some s' => afterCalls l' s'
      | None => None
      end
  end.

(** The header of an appended block is a header of [U], stored there
    under its hash and number, and is not the genesis header. *)
Definition admitted (U : Database) (g : Header) (c : call) : Prop :=
  match c with
  | callAppend _ block =>
      dbHeaders U !! (hHash (blockHeader block), hNumber (blockHeader block))
        = Some (blockHeader block) /\
      hHash (blockHeader block) <> hHash g
  | _ => True
  end.

End CallNotions.

(** ** A small concrete chain

    One node in the top context (context 0 of three, zone context 2) with
    room for two registered heads.  The consensus collaborator accepts a
    header whose parent is stored, which it reads in the store itself; the
    chain-body collaborator keeps the list of appended block hashes and
    rejects a block whose body is 0. *)
Module Demo.

Definition demoVerify (h : Header) : M (HeaderChain (list Hash)) error :=
  db <- gets headerDb ;;
  match rawdb.ReadHeader db (hParent h) (sub64 (hNumber h) 1) with
  | Some _ => ret None
  | None => ret (Some "unknown ancestor"%string)
  end.

Definition demoAppend (b : Block) (st : list Hash) : (list N * error) * list Hash :=
  if N.eqb (blockBody b) 0
  then (([], Some "body rejected"%string), st)
  else (([blockBody b], None), st ++ [hHash (blockHeader b)]).

Definition env : Env :=
  {| BlockChain := list Hash;
     bcAppendable := fun _ _ => None;
     bcAppend := demoAppend;
     bcTrim := fun h st => filter (fun x => x ≠ hHash h) st;
     VerifyHeader := demoVerify;
     batchWrite := fun _ _ => None;
     QuaiNetworkContext := 0;
     ZONE := 2;
     maxHeadsQueueLimit := 2;
     nilHeaderHash := None |}.

Definition G : Header := mkHeader 100 0 0 [].
Definition C1 : Header := mkHeader 110 100 1 [1; 1].
Definition A2 : Header := mkHeader 120 110 2 [1; 1].
Definition B1 : Header := mkHeader 210 100 1 [1; 2].
Definition B2 : Header := mkHeader 220 110 2 [1; 2].
Definition B3 : Header := mkHeader 230 220 3 [1; 2].
Definition B4 : Header := mkHeader 240 230 4 [1; 2].

Definition emptyDb : Database := mkDatabase ∅ ∅ ∅ ∅ zeroHash [].

Definition store (hs canon : list Header) : Database :=
  foldr (fun h => rawdb.WriteCanonicalHash (hHash h) (hNumber h))
        (foldr rawdb.WriteHeader emptyDb hs) canon.

(** A chain whose store holds [hs], whose canonical mapping follows
    [canon], whose current head is [cur] and whose registry is [reg]. *)
Definition chain (hs canon : list Header) (cur : Header) (reg : list (option Header)) :
    HeaderChain (list Hash) :=
  mkHeaderChain [100; 101; 102] [] [] [] (store hs canon) (Some G) (Some cur) (hHash cur)
    (lru.New headerCacheLimit) (lru.New tdCacheLimit) (lru.New numberCacheLimit) reg.

(** Canonical chain G - C1 - A2 with head A2; the branch C1 - B2 - B3 - B4
    is stored but not canonical. *)
Definition forked : HeaderChain (list Hash) :=
  chain [G; C1; A2; B2; B3; B4] [G; C1; A2] A2 [].

Definition A3 : Header := mkHeader 130 120 3 [1; 1].

(** Canonical chain G alone; C1 and A2 are stored and registered, which
    fills the registry. *)
Definition full : HeaderChain (list Hash) :=
  chain [G; C1; A2] [G] G [Some C1; Some A2].

(** The same store with a nil entry in front of the registry. *)
Definition withNilHead : HeaderChain (list Hash) :=
  chain [G; C1; A2] [G] G [None; Some A2].

(** The chain [forked] with B4 and A2 registered. *)
Definition forkedHeads : HeaderChain (list Hash) :=
  chain [G; C1; A2; B2; B3; B4] [G; C1; A2] A2 [Some A2; Some B4].

(** A chain whose canonical mapping names B1 at number 1 although the
    current head C1 is on another branch. *)
Definition astray : HeaderChain (list Hash) :=
  chain [G; C1; B1] [G; B1] C1 [].

Definition blockA3 : Block := mkBlock A3 7.
Definition emptyBlockA3 : Block := mkBlock A3 0.

(** The canonical entries of a chain at the numbers [0 .. n-1]. *)
Definition canonicalUpTo {BC} (n : nat) (s : HeaderChain BC) : list (option Hash) :=
  map (fun i => dbCanonical (headerDb s) !! N.of_nat i) (seq 0 n).

End Demo.

(** ** Further concrete cases

    The chains of [Demo] seen as a service, with an ontology of three
    regions and three zones and a body chain that answers for the blocks
    it was given. *)
Module Cases.

Definition ontology : Ontology := {| FullerOntology := [3; 3]%Z |}.

(** 64-bit Linux. *)
Definition runtime : Runtime := {| maxAlloc := 2 ^ 48 |}.

Definition blockOf (h : Header) : Block := mkBlock h (hNumber h + 1).

Definition known : list Header :=
  [Demo.G; Demo.C1; Demo.A2; Demo.B1; Demo.B2; Demo.B3; Demo.B4; Demo.A3].

Definition getBlock (st : list Hash) (hash : Hash) (number : N) : option Block :=
  if bool_decide (hash ∈ st) then
    blockOf <$> List.find (fun h => N.eqb (hHash h) hash && N.eqb (hNumber h) number) known
  else None.

Definition blocks : BlockSource (list Hash) :=
  {| bcGetBlock := getBlock;
     EncodeRLP := fun b => ([hHash (blockHeader b); blockBody b], None) |}.

(** The chain [forked] with the bodies of its canonical blocks appended. *)
Definition withBodies : HeaderChain (list Hash) :=
  set_bc (fun _ => [100; 110; 120]) Demo.forked.

(** A running service over the chain [forkedHeads]. *)
Definition service : Service (list Hash) :=
  mkService Demo.forkedHeads 0 0 false false.

(** The same service with a nil entry in its registry. *)
Definition serviceNilHead : Service (list Hash) :=
  mkService Demo.withNilHead 0 0 false false.

(** A chain never stopped on: nothing in the cell, no head-block hash. *)
Definition fresh : HeaderChain (list Hash) :=
  mkHeaderChain [100; 101; 102] [] [] [] (Demo.store [Demo.G] [Demo.G]) (Some Demo.G) None
    zeroHash (lru.New headerCacheLimit) (lru.New tdCacheLimit) (lru.New numberCacheLimit) [].

(** The chain [forked] whose saved heads name A2 and a hash without
    record. *)
Definition savedUnknown : HeaderChain (list Hash) :=
  set_headerDb (rawdb.WriteHeadBlockHash 120)
    (set_headerDb (rawdb.WriteHeadsHashes [120; 999]) Demo.forked).

(** A block whose parent is not stored. *)
Definition orphan : Block := mkBlock (mkHeader 999 998 5 [1; 1]) 7.

(** The environment of [Demo] with a consensus collaborator that reads
    through the chain view, as an engine does: a header the chain finds
    is known and accepted; otherwise its parent must be found and its
    location must name a region and a zone.  (The lookups depend on the
    environment only through the type of the body chain, which the two
    environments share.) *)
Definition viewVerify (h : Header) : M (HeaderChain (list Hash)) error :=
  known <- GetHeader (H := Demo.env) (hHash h) (hNumber h) ;;
  match known with
  | Some _ => ret None
  | None =>
      parent <- GetHeader (H := Demo.env) (hParent h) (sub64 (hNumber h) 1) ;;
      match parent with
      | None => ret (Some "unknown ancestor"%string)
      | Some _ =>
          if Nat.eqb (length (hLocation h)) 2 then ret None
          else ret (Some "invalid location"%string)
      end
  end.

Definition reading : Env :=
  {| BlockChain := list Hash;
     bcAppendable := fun _ _ => None;
     bcAppend := Demo.demoAppend;
     bcTrim := fun h st => filter (fun x => x ≠ hHash h) st;
     VerifyHeader := viewVerify;
     batchWrite := fun _ _ => None;
     QuaiNetworkContext := 0;
     ZONE := 2;
     maxHeadsQueueLimit := 2;
     nilHeaderHash := None |}.

(** A child of A2 without location. *)
Definition misplaced : Block := mkBlock (mkHeader 131 120 3 []) 7.

(** The chain [forked] with A3, which it does not store, in the header
    cache. *)
Definition primed : HeaderChain (list Hash) :=
  set_headerCache (lru.Add 130 Demo.A3 (headerCache Demo.forked)) Demo.forked.

(** The environment of [Demo] where [Hash()] on a nil header yields a
    hash, as the nil tests that follow the calls of [Hash()] in
    [SetCurrentHeader] expect (lines 258-264, 285-291, 301-307). *)
Definition tolerant : Env :=
  {| BlockChain := list Hash;
     bcAppendable := fun _ _ => None;
     bcAppend := Demo.demoAppend;
     bcTrim := fun h st => filter (fun x => x ≠ hHash h) st;
     VerifyHeader := Demo.demoVerify;
     batchWrite := fun _ _ => None;
     QuaiNetworkContext := 0;
     ZONE := 2;
     maxHeadsQueueLimit := 2;
     nilHeaderHash := Some 999 |}.

(** A chain that holds the genesis header and nothing else. *)
Definition genesisOnly : HeaderChain (list Hash) :=
  Demo.chain [Demo.G] [Demo.G] Demo.G [].

(** C1 and A2 are appended and selected in turn, then B2, B3 and A3 are
    appended; the last call finds the registry full with B2 and B3 and
    evicts B2.  The result lists the errors of the calls. *)
Definition build : M (HeaderChain (list Hash)) (list error) :=
  e1 <- Append (H := tolerant) 10 (blockOf Demo.C1) ;;
  r1 <- SetCurrentHeader (H := tolerant) 10 Demo.C1 ;;
  e2 <- Append (H := tolerant) 10 (blockOf Demo.A2) ;;
  r2 <- SetCurrentHeader (H := tolerant) 10 Demo.A2 ;;
  e3 <- Append (H := tolerant) 10 (blockOf Demo.B2) ;;
  e4 <- Append (H := tolerant) 10 (blockOf Demo.B3) ;;
  e5 <- Append (H := tolerant) 10 (blockOf Demo.A3) ;;
  ret [e1; snd r1; e2; snd r2; e3; e4; e5].

(** After that, B3 is selected. *)
Definition buildThenSelect : M (HeaderChain (list Hash)) (list error) :=
  es <- build ;;
  r <- SetCurrentHeader (H := tolerant) 10 Demo.B3 ;;
  ret (es ++ [snd r]).

(** The headers of [known] as a family, and a sequence of calls on
    them: the chain is built as in [build], B2 is read and so cached
    before its eviction, and B3 is selected. *)
Definition family : Database := Demo.store known [].

Definition calls : list call :=
  [callAppend 10 (blockOf Demo.C1); callSetCurrentHeader 10 Demo.C1;
   callAppend 10 (blockOf Demo.A2); callSetCurrentHeader 10 Demo.A2;
   callAppend 10 (blockOf Demo.B2); callAppend 10 (blockOf Demo.B3);
   callGetHeaderByHash 220;
   callAppend 10 (blockOf Demo.A3); callSetCurrentHeader 10 Demo.B3].

(** A chain built anew over a store: empty caches, empty registry,
    nothing in the cell. *)
Definition restarted (db : Database) : HeaderChain (list Hash) :=
  mkHeaderChain [100; 101; 102] [] [] [] db (Some Demo.G) None
    zeroHash (lru.New headerCacheLimit) (lru.New tdCacheLimit) (lru.New numberCacheLimit) [].

End Cases.

(** ** Reasoning rules for computations *)

Section Rules.
Context {S : Type}.

Lemma triple_ret {A} (P : S -> Prop) (a : A) Q E :
  (forall s, P s -> Q a s) -> triple P (ret a) Q E.
Proof. intros HQ s Hs. exact (HQ s Hs). Qed.

Lemma triple_bind {A B} (P : S -> Prop) (m : M S A) (k : A -> M S B) Q R E :
  triple P m Q E -> (forall a, triple (Q a) (k a) R E) -> triple P (bind m k) R E.
Proof.
  intros Hm Hk s Hs. specialize (Hm s Hs). unfold bind.
  destruct (m s) as [a s'| s' |]; simpl in *; auto.
  exact (Hk a s' Hm).
Qed.

Lemma holds_bind {A B} (m : M S A) (k : A -> M S B) s Q R E E' :
  holds (m s) Q E' -> (forall s1, E' s1 -> E s1) ->
  (forall a s1, Q a s1 -> holds (k a s1) R E) ->
  holds (bind m k s) R E.
Proof.
  intros Hm HE Hk. unfold bind. destruct (m s) as [a s1|s1|]; simpl in *; auto.
Qed.


Lemma holds_weaken {A} (r : result S A) (Q Q' : A -> S -> Prop) (E E' : S -> Prop) :
  holds r Q E -> (forall a s, Q a s -> Q' a s) -> (forall s, E s -> E' s) ->
  holds r Q' E'.
Proof. intros Hr HQ HE. destruct r; simpl in *; auto. Qed.

Lemma triple_weaken {A} (P P' : S -> Prop) (m : M S A) (Q Q' : A -> S -> Prop) (E E' : S -> Prop) :
  triple P m Q E ->
  (forall s, P' s -> P s) -> (forall a s, Q a s -> Q' a s) -> (forall s, E s -> E' s) ->
  triple P' m Q' E'.
Proof.
  intros Hm HP HQ HE s Hs. specialize (Hm s (HP s Hs)).
  destruct (m s); simpl in *; auto.
Qed.

Lemma bind_ret_l {A B} (a : A) (k : A -> M S B) : bind (ret a) k = k a.
Proof. reflexivity. Qed.

Lemma bind_modify {B} (f : S -> S) (k : unit -> M S B) s :
  bind (modify f) k s = k tt (f s).
Proof. reflexivity. Qed.

Lemma bind_gets {A B} (f : S -> A) (k : A -> M S B) s :
  bind (gets f) k s = k (f s) s.
Proof. reflexivity. Qed.

Lemma keeps_ret {A} (I : S -> Prop) (a : A) : keeps I (ret a).
Proof. intros s Hs. exact Hs. Qed.

Lemma keeps_panic {A} (I : S -> Prop) : keeps I (@panic S A).
Proof. intros s Hs. exact Hs. Qed.

Lemma keeps_outOfFuel {A} (I : S -> Prop) : keeps I (@outOfFuel S A).
Proof. intros s Hs. exact Logic.I. Qed.

Lemma keeps_gets {A} (I : S -> Prop) (f : S -> A) : keeps I (gets f).
Proof. intros s Hs. exact Hs. Qed.

Lemma keeps_modify (I : S -> Prop) (f : S -> S) :
  (forall s, I s -> I (f s)) -> keeps I (modify f).
Proof. intros Hf s Hs. exact (Hf s Hs). Qed.

Lemma keeps_bind {A B} (I : S -> Prop) (m : M S A) (k : A -> M S B) :
  keeps I m -> (forall a, keeps I (k a)) -> keeps I (bind m k).
Proof. intros Hm Hk. eapply triple_bind; [exact Hm | exact Hk]. Qed.


Lemma keeps_final {A} (I : S -> Prop) (m : M S A) s s' :
  keeps I m -> I s -> finalState (m s) = Some s' -> I s'.
Proof.
  intros Hm Hs Hf. specialize (Hm s Hs).
  destruct (m s); simpl in *; congruence.
Qed.

End Rules.

(** One step of a proof that a computation keeps an invariant: split the
    binds and the case distinctions of the code. *)
Ltac keeps_split :=
  match goal with
  | |- keeps _ (bind _ _) => apply keeps_bind; [ | intros ? ]
  | |- keeps _ (ret _) => apply keeps_ret
  | |- keeps _ panic => apply keeps_panic
  | |- keeps _ outOfFuel => apply keeps_outOfFuel
  | |- keeps _ (gets _) => apply keeps_gets
  | |- keeps _ (match ?x with _ => _ end) => destruct x
  | |- keeps _ (let _ := _ in _) => cbv zeta
  end.

(** ** Unsigned arithmetic *)

Lemma two64_pos : 0 < two64.
Proof. reflexivity. Qed.

Lemma sub64_small a b : b <= a -> a < two64 -> sub64 a b = a - b.
Proof.
  intros Hba Ha. pose proof two64_pos as Hpos. unfold sub64.
  rewrite (N.mod_small a), (N.mod_small b) by lia.
  replace (a + two64 - b) with (a - b + 1 * two64) by lia.
  rewrite N.Div0.mod_add. apply N.mod_small. lia.
Qed.

Lemma sub64_pred a : 0 < a -> sub64 a 1 <= a - 1.
Proof.
  intros Ha. pose proof two64_pos as Hpos.
  destruct (N.lt_ge_cases a two64) as [Hlt|Hge].
  - rewrite sub64_small by lia. lia.
  - assert (sub64 a 1 < two64) by (unfold sub64; apply N.mod_lt; lia). lia.
Qed.

(** ** The store *)

Lemma storeFunctional_check db :
  functionalEntries (map_to_list (dbHeaders db)) -> storeFunctional db.
Proof.
  unfold functionalEntries. rewrite Forall_forall. intros Hall h n n' x y Hx Hy.
  apply elem_of_map_to_list in Hx, Hy.
  specialize (Hall _ Hx). rewrite Forall_forall in Hall.
  exact (Hall _ Hy eq_refl).
Qed.

Lemma hashKeyed_check db :
  keyedEntries (map_to_list (dbHeaders db)) -> hashKeyed db.
Proof.
  unfold keyedEntries. rewrite Forall_forall. intros Hall k n x Hx.
  apply elem_of_map_to_list in Hx. exact (Hall _ Hx).
Qed.

Lemma wellLinked_check db :
  linkedEntries (map_to_list (dbHeaders db)) -> wellLinked db.
Proof.
  unfold linkedEntries. rewrite Forall_forall. intros Hall k x Hx m p Hp.
  apply elem_of_map_to_list in Hx, Hp.
  specialize (Hall _ Hx). rewrite Forall_forall in Hall.
  exact (Hall _ Hp eq_refl).
Qed.

(** ** The caches *)

Lemma lru_find_elem {V} (k : Hash) (v : V) l : lru.find k l = Some v -> (k, v) ∈ l.
Proof.
  induction l as [|[k' v'] l IH]; simpl; [ discriminate | ].
  destruct (N.eqb_spec k k') as [->|Hne].
  - intros [= ->]. left.
  - intros Hf. right. apply IH, Hf.
Qed.

Lemma lru_remove_elem {V} (k : Hash) (e : Hash * V) l : e ∈ lru.remove k l -> e ∈ l.
Proof.
  induction l as [|[k' v'] l IH]; simpl; [ intros He; exact He | ].
  destruct (N.eqb k k').
  - intros He. right. exact He.
  - intros He. apply elem_of_cons in He as [->|He]; [ left | right; apply IH, He ].
Qed.

Lemma removelast_elem {A} (e : A) l : e ∈ removelast l -> e ∈ l.
Proof.
  induction l as [|x l IH]; simpl; [ intros He; exact He | ].
  destruct l as [|y l]; [ intros He; inversion He | ].
  intros He. apply elem_of_cons in He as [->|He]; [ left | right; apply IH, He ].
Qed.

Lemma lru_Get_elem {V} (k : Hash) (c : lru.Cache V) e :
  e ∈ lru.items (snd (lru.Get k c)) -> e ∈ lru.items c.
Proof.
  unfold lru.Get. destruct (lru.find k (lru.items c)) as [v|] eqn:Hf; simpl.
  - intros He. apply elem_of_cons in He as [->|He].
    + apply lru_find_elem, Hf.
    + apply lru_remove_elem in He. exact He.
  - intros He. exact He.
Qed.

Lemma lru_Get_hit {V} (k : Hash) (c : lru.Cache V) v :
  fst (lru.Get k c) = Some v -> (k, v) ∈ lru.items c.
Proof.
  unfold lru.Get. destruct (lru.find k (lru.items c)) as [v'|] eqn:Hf; simpl.
  - intros [= ->]. apply lru_find_elem, Hf.
  - discriminate.
Qed.

Lemma lru_Add_elem {V} (k : Hash) (v : V) (c : lru.Cache V) e :
  e ∈ lru.items (lru.Add k v c) -> e = (k, v) \/ e ∈ lru.items c.
Proof.
  unfold lru.Add. destruct (lru.find k (lru.items c)) as [v'|]; cbn [lru.items].
  - intros He. apply elem_of_cons in He as [->|He]; [ left; reflexivity | ].
    right. apply lru_remove_elem in He. exact He.
  - destruct (Nat.ltb _ _); intros He.
    + apply removelast_elem in He.
      apply elem_of_cons in He as [->|He]; [ left; reflexivity | right; exact He ].
    + apply elem_of_cons in He as [->|He]; [ left; reflexivity | right; exact He ].
Qed.

Section Frames.
Context `{Env} {view : ChainView}.

Local Abbreviation HC := (HeaderChain BlockChain).
Implicit Types (I : HC -> Prop) (s : HC) (h : option Header).

Lemma Hash__keeps I h : keeps I (Hash_ h).
Proof. unfold Hash_. repeat keeps_split. Qed.

Lemma Number64_keeps I h : keeps I (Number64 h).
Proof. unfold Number64. repeat keeps_split. Qed.

Lemma Parent_keeps I h : keeps I (Parent h).
Proof. unfold Parent. repeat keeps_split. Qed.

Lemma Location_keeps I h : keeps I (Location h).
Proof. unfold Location. repeat keeps_split. Qed.

Lemma GenesisHash_keeps I i : keeps I (GenesisHash i).
Proof. unfold GenesisHash. repeat keeps_split. Qed.

Lemma setSlice_keeps I l x : keeps I (setSlice l x).
Proof. unfold setSlice. repeat keeps_split. Qed.

Lemma CurrentHeader_keeps I : keeps I CurrentHeader.
Proof. unfold CurrentHeader. repeat keeps_split. Qed.

Lemma cacheStable_readStable I : cacheStable I -> readStable I.
Proof.
  intros (Hh & Hn & _). split.
  - intros hash number. unfold GetHeader.
    repeat keeps_split; apply keeps_modify; intros; apply Hh; assumption.
  - intros hash. unfold GetBlockNumber.
    repeat keeps_split; apply keeps_modify; intros; apply Hn; assumption.
Qed.

Lemma cacheStable_viewStable I : cacheStable I -> viewStable I.
Proof.
  intros HI. split; [ apply cacheStable_readStable; exact HI | ].
  destruct HI as (_ & _ & Ht). intros hash number. unfold GetTd.
  repeat keeps_split; apply keeps_modify; intros; apply Ht; assumption.
Qed.

Lemma GetHeaderByHash_keeps I hash : readStable I -> keeps I (GetHeaderByHash hash).
Proof.
  intros [Hget Hnum]. unfold GetHeaderByHash.
  apply keeps_bind; [ apply Hnum | intros [n|] ]; [ apply Hget | apply keeps_ret ].
Qed.

(** Steps that every loop below is made of. *)
Ltac keeps_read HI :=
  first
    [ keeps_split
    | apply Hash__keeps | apply Number64_keeps | apply Parent_keeps
    | apply Location_keeps | apply GenesisHash_keeps | apply setSlice_keeps
    | apply CurrentHeader_keeps
    | apply (proj1 HI) | apply (proj2 HI)
    | apply GetHeaderByHash_keeps; exact HI ].

Lemma findCommonHeader_keeps I fuel h : readStable I -> keeps I (findCommonHeader fuel h).
Proof.
  intros HI. revert h. induction fuel as [|fuel IH]; intros h; simpl.
  - apply keeps_outOfFuel.
  - destruct h as [x|]; [ | apply keeps_ret ].
    repeat keeps_read HI. apply IH.
Qed.

Lemma sameButCaches_stable s0 : cacheStable (sameButCaches s0).
Proof.
  unfold cacheStable, sameButCaches.
  split; [ | split ]; intros s1 c Hs; exact Hs.
Qed.

Lemma sameButCaches_refl s : sameButCaches s s.
Proof. repeat split. Qed.

(** Verifying a header only fills caches. *)
Lemma VerifyHeader_frame header s s' :
  finalState (VerifyHeader header s) = Some s' -> sameButCaches s s'.
Proof.
  apply (keeps_final (sameButCaches s)).
  - apply VerifyHeader_reads, cacheStable_viewStable, sameButCaches_stable.
  - apply sameButCaches_refl.
Qed.

Lemma Appendable_keeps I block : viewStable I -> keeps I (Appendable block).
Proof.
  intros HI. unfold Appendable.
  apply keeps_bind; [ apply VerifyHeader_reads; exact HI | intros [e|] ].
  - apply keeps_ret.
  - apply keeps_bind; [ apply keeps_gets | intros b; apply keeps_ret ].
Qed.

(** Looking for the common header only fills caches. *)
Lemma findCommonHeader_frame fuel h s s' :
  finalState (findCommonHeader fuel h s) = Some s' -> sameButCaches s s'.
Proof.
  apply (keeps_final (sameButCaches s)).
  - apply findCommonHeader_keeps, cacheStable_readStable, sameButCaches_stable.
  - apply sameButCaches_refl.
Qed.

(** [trim] deletes header records only under hashes other than the common
    header's, calls the body chain, and fills caches. *)
Lemma trim_keeps I fuel c p :
  readStable I ->
  (forall s hash n, (forall x, c = Some x -> hash <> hHash x) -> I s ->
     I (set_headerDb (rawdb.DeleteHeader hash n) s)) ->
  (forall s x, I s -> I (set_bc (bcTrim x) s)) ->
  keeps I (trim fuel c p).
Proof.
  intros HI Hdel Hbc. revert p. induction fuel as [|fuel IH]; intros p; simpl.
  - apply keeps_outOfFuel.
  - assert (Htail : forall px, keeps I
      (modify (set_bc (bcTrim px)) ;;;
       parent' <- GetHeader (hParent px) (sub64 (hNumber px) 1) ;;
       match parent' with Some _ => trim fuel c parent' | None => ret None end)).
    { intros px. apply keeps_bind; [ apply keeps_modify; intros; apply Hbc; assumption | intros _ ].
      apply keeps_bind; [ apply (proj1 HI) | intros [x|] ];
        [ apply IH | apply keeps_ret ]. }
    destruct p as [px|]; simpl.
    + rewrite bind_ret_l. destruct c as [cx|]; simpl.
      * rewrite bind_ret_l. destruct (N.eqb_spec (hHash px) (hHash cx)) as [Heq|Hne];
          [ apply keeps_ret | ].
        rewrite !bind_ret_l. apply keeps_bind; [ | intros _; apply Htail ].
        apply keeps_modify. intros s Hs. apply Hdel; [ | exact Hs ].
        intros x [= <-]. exact Hne.
      * apply keeps_bind; [ apply (Hash__keeps I None) | intros ch ].
        destruct (N.eqb _ _); [ apply keeps_ret | ].
        rewrite !bind_ret_l. apply keeps_bind; [ | intros _; apply Htail ].
        apply keeps_modify. intros s Hs. apply Hdel; [ | exact Hs ]. intros x [=].
    + apply keeps_bind; [ apply (Hash__keeps I None) | intros ph ].
      apply keeps_bind; [ apply Hash__keeps | intros ch ].
      destruct (N.eqb _ _); [ apply keeps_ret | ].
      apply keeps_bind; [ apply (Hash__keeps I None) | intros dh ].
      apply keeps_panic.
Qed.

Lemma trim_heads fuel c p s s' :
  finalState (trim fuel c p s) = Some s' -> heads s' = heads s.
Proof.
  apply (keeps_final (fun x => heads x = heads s)); [ | reflexivity ].
  apply trim_keeps.
  - apply cacheStable_readStable. unfold cacheStable.
    split; [ | split ]; intros s1 k Hs; exact Hs.
  - intros s1 hash n _ Hs. exact Hs.
  - intros s1 x Hs. exact Hs.
Qed.

(** The loops of [SetCurrentHeader] read headers and write or delete
    canonical entries, nothing else. *)
Lemma collectNew_keeps I fuel c new stack :
  readStable I -> keeps I (collectNew fuel c new stack).
Proof.
  intros HI. revert new stack. induction fuel as [|fuel IH]; intros new stack; simpl.
  - apply keeps_outOfFuel.
  - repeat keeps_read HI. apply IH.
Qed.

Lemma unwindOld_keeps I fuel c prev :
  readStable I ->
  (forall s n, I s -> I (set_headerDb (rawdb.DeleteCanonicalHash n) s)) ->
  keeps I (unwindOld fuel c prev).
Proof.
  intros HI Hdel. revert prev. induction fuel as [|fuel IH]; intros prev; simpl.
  - apply keeps_outOfFuel.
  - repeat first [ keeps_read HI | apply keeps_modify; intros; apply Hdel; assumption ].
    apply IH.
Qed.

Lemma reorgLoop_keeps I fuel c prev new stack slices :
  readStable I ->
  (forall s n, I s -> I (set_headerDb (rawdb.DeleteCanonicalHash n) s)) ->
  keeps I (reorgLoop fuel c prev new stack slices).
Proof.
  intros HI Hdel. revert prev new stack slices.
  induction fuel as [|fuel IH]; intros prev new stack slices.
  - apply keeps_outOfFuel.
  - cbn [reorgLoop].
    repeat first
      [ apply collectNew_keeps; exact HI
      | apply unwindOld_keeps; [ exact HI | exact Hdel ]
      | apply IH
      | keeps_read HI
      | apply keeps_modify; intros; apply Hdel; assumption ].
Qed.

Lemma replay_keeps I stack slices :
  (forall s hash n, I s -> I (set_headerDb (rawdb.WriteCanonicalHash hash n) s)) ->
  keeps I (replay stack slices).
Proof.
  intros Hw. revert slices. induction stack as [|x stack IH]; intros slices; simpl.
  - apply keeps_ret.
  - apply keeps_bind; [ apply Hash__keeps | intros h ].
    apply keeps_bind; [ apply Number64_keeps | intros n ].
    apply keeps_bind; [ apply keeps_modify; intros; apply Hw; assumption | intros _ ].
    apply keeps_bind; [ | intros sl; apply IH ].
    destruct (negb _); [ | apply keeps_ret ].
    destruct x as [hx|]; [ | apply keeps_panic ].
    destruct (negb _); [ apply setSlice_keeps | apply keeps_ret ].
Qed.

Lemma SetCurrentHeader_keeps I fuel head :
  readStable I ->
  (forall s n, I s -> I (set_headerDb (rawdb.DeleteCanonicalHash n) s)) ->
  (forall s hash n, I s -> I (set_headerDb (rawdb.WriteCanonicalHash hash n) s)) ->
  (forall s, I s -> I (headStored head s)) ->
  keeps I (SetCurrentHeader fuel head).
Proof.
  intros HI Hdel Hw Hst. unfold SetCurrentHeader.
  apply keeps_bind; [ apply CurrentHeader_keeps | intros prev ]. cbv zeta.
  intros s Hs. rewrite !bind_modify.
  match goal with
  | |- holds (?m ?s1) _ _ =>
      cut (keeps I m); [ intros Hk; apply Hk; apply (Hst s Hs) | clear s Hs ]
  end.
  destruct (N.eqb _ _).
  - apply keeps_bind; [ apply keeps_modify; intros; apply Hw; assumption | intros _ ].
    apply keeps_bind; [ | intros sl; apply keeps_ret ].
    destruct (negb _); [ apply setSlice_keeps | apply keeps_ret ].
  - apply keeps_bind; [ apply findCommonHeader_keeps; exact HI | intros c ].
    apply keeps_bind; [ apply reorgLoop_keeps; assumption | intros r ].
    apply keeps_bind; [ apply replay_keeps; exact Hw | intros sl; apply keeps_ret ].
Qed.

(** *** Reorgs along a stored branch *)

Lemma descends_number db c x : descends db c x -> hNumber c <= hNumber x.
Proof. induction 1 as [|x p _ Hlt _ IH]; lia. Qed.







(** *** Trimming along a stored branch *)

Lemma trimInv_le db0 m m' s : m' <= m -> trimInv db0 m s -> trimInv db0 m' s.
Proof.
  intros Hle (Hsub & Hlow & Hc). split; [ exact Hsub | split; [ | exact Hc ] ].
  intros k n Hn. apply Hlow. lia.
Qed.

Lemma trimInv_readStable db0 m : readStable (trimInv db0 m).
Proof.
  split.
  - intros hash number s (Hsub & Hlow & Hc). unfold GetHeader. rewrite bind_gets.
    destruct (lru.Get hash (headerCache s)) as [[x|] c'] eqn:Hget.
    + rewrite bind_modify. simpl. split; [ exact Hsub | split; [ exact Hlow | ] ].
      intros k y Hy. simpl in Hy. apply Hc.
      apply (lru_Get_elem hash). rewrite Hget. exact Hy.
    + rewrite bind_gets.
      destruct (rawdb.ReadHeader (headerDb s) hash number) as [x|] eqn:Hr; simpl.
      * split; [ exact Hsub | split; [ exact Hlow | ] ].
        intros k y Hy. simpl in Hy. apply lru_Add_elem in Hy as [[= -> ->]|Hy].
        -- exists number. apply Hsub. exact Hr.
        -- apply Hc, Hy.
      * split; [ exact Hsub | split; [ exact Hlow | exact Hc ] ].
  - intros hash s Hs. unfold GetBlockNumber. rewrite bind_gets.
    destruct (lru.Get hash (numberCache s)) as [[x|] c'].
    + rewrite bind_modify. exact Hs.
    + rewrite bind_gets. destruct (rawdb.ReadHeaderNumber _ _); exact Hs.
Qed.

Lemma GetHeader_kept db0 m hash number p s :
  storeFunctional db0 ->
  trimInv db0 m s ->
  number <= m ->
  rawdb.ReadHeader db0 hash number = Some p ->
  exists s', GetHeader hash number s = Ret (Some p) s' /\ trimInv db0 m s'.
Proof.
  intros HF Hs Hm Hread.
  pose proof (proj1 (trimInv_readStable db0 m) hash number s Hs) as Hk.
  destruct Hs as (Hsub & Hlow & Hc).
  unfold rawdb.ReadHeader in Hread.
  unfold GetHeader in Hk |- *. rewrite bind_gets in Hk. rewrite bind_gets.
  destruct (lru.Get hash (headerCache s)) as [[x|] c'] eqn:Hget.
  - rewrite bind_modify in Hk. rewrite bind_modify.
    assert (Hx : (hash, x) ∈ lru.items (headerCache s)).
    { apply lru_Get_hit. rewrite Hget. reflexivity. }
    destruct (Hc _ _ Hx) as (n & Hn).
    rewrite (HF _ _ _ _ _ Hn Hread). eexists. split; [ reflexivity | exact Hk ].
  - rewrite bind_gets in Hk. rewrite bind_gets.
    unfold rawdb.ReadHeader in Hk |- *.
    rewrite (Hlow _ _ Hm), Hread in Hk. rewrite (Hlow _ _ Hm), Hread.
    eexists. split; [ reflexivity | exact Hk ].
Qed.

Lemma GetHeader_found db0 m hash number p s s' :
  trimInv db0 m s ->
  GetHeader hash number s = Ret (Some p) s' ->
  exists k, dbHeaders db0 !! (hash, k) = Some p.
Proof.
  intros (Hsub & _ & Hc). unfold GetHeader. rewrite bind_gets.
  destruct (lru.Get hash (headerCache s)) as [[x|] c'] eqn:Hget.
  - rewrite bind_modify. intros [= <- _]. apply Hc.
    apply lru_Get_hit. rewrite Hget. reflexivity.
  - rewrite bind_gets.
    destruct (rawdb.ReadHeader (headerDb s) hash number) as [x|] eqn:Hr;
      [ rewrite bind_modify | ]; intros [= <- _].
    exists number. apply Hsub. exact Hr.
Qed.

Lemma GetHeaderByHash_found db0 m hash c s s' :
  trimInv db0 m s ->
  GetHeaderByHash hash s = Ret (Some c) s' ->
  exists k, dbHeaders db0 !! (hash, k) = Some c.
Proof.
  intros Hs. unfold GetHeaderByHash. unfold bind.
  pose proof (proj2 (trimInv_readStable db0 m) hash s Hs) as Hk.
  destruct (GetBlockNumber hash s) as [[n|] s1|s1|]; try discriminate.
  simpl in Hk. apply (GetHeader_found db0 m). exact Hk.
Qed.

(** What [findCommonHeader] returns for a stored header lies on the
    stored branch of that header, or is stored under the genesis hash of
    the context. *)
Lemma findCommonHeader_on_branch db0 m G0 fuel :
  storeFunctional db0 -> hashKeyed db0 -> wellLinked db0 ->
  forall x s c s',
    (exists n, dbHeaders db0 !! (hHash x, n) = Some x) ->
    trimInv db0 m s -> genesisHashes s = G0 ->
    findCommonHeader fuel (Some x) s = Ret (Some c) s' ->
    descends db0 c x \/
    exists g k, G0 !! QuaiNetworkContext = Some g /\ dbHeaders db0 !! (g, k) = Some c.
Proof.
  intros HF HK HL. induction fuel as [|fuel IH]; intros x s c s' [n Hx] Hs HG Hrun;
    [ discriminate | ].
  simpl in Hrun. rewrite bind_gets in Hrun. cbv zeta in Hrun.
  destruct (N.eqb_spec (rawdb.ReadCanonicalHash (headerDb s) (hNumber x)) (hHash x))
    as [Heq|Hne].
  - rewrite Heq in Hrun. left.
    destruct (GetHeaderByHash_found _ _ _ _ _ _ Hs Hrun) as (k & Hk).
    rewrite (HF _ _ _ _ _ Hk Hx). apply descends_here.
  - unfold GenesisHash in Hrun. unfold bind at 1 2 in Hrun. unfold gets in Hrun at 1.
    rewrite HG in Hrun.
    destruct (G0 !! QuaiNetworkContext) as [g|] eqn:Hg; [ | discriminate ].
    cbv [ret] in Hrun.
    destruct (N.eqb_spec (rawdb.ReadCanonicalHash (headerDb s) (hNumber x)) g) as [Hg'|_].
    + rewrite Hg' in Hrun. right.
      destruct (GetHeaderByHash_found _ _ _ _ _ _ Hs Hrun) as (k & Hk).
      exists g, k. split; [ reflexivity | exact Hk ].
    + unfold bind in Hrun.
      pose proof (proj1 (trimInv_readStable db0 m) (hParent x) (sub64 (hNumber x) 1) s Hs)
        as Hkeep.
      pose proof (proj1 (cacheStable_readStable (fun t => genesisHashes t = G0)
                    ltac:(split; [ | split ]; intros t cc Ht; exact Ht))
                    (hParent x) (sub64 (hNumber x) 1) s HG) as HkeepG.
      destruct (GetHeader (hParent x) (sub64 (hNumber x) 1) s) as [[p|] s1|s1|] eqn:Hget;
        try discriminate.
      * destruct (GetHeader_found _ _ _ _ _ _ _ Hs Hget) as (k & Hk).
        destruct (HL _ _ Hx _ _ Hk) as [-> Hlt].
        simpl in Hkeep, HkeepG.
        assert (Hp : exists n', dbHeaders db0 !! (hHash p, n') = Some p).
        { exists (sub64 (hNumber x) 1). rewrite (HK _ _ _ Hk). exact Hk. }
        destruct (IH p s1 c s' Hp Hkeep HkeepG Hrun) as [Hd|Hgen].
        -- left. apply (descends_step _ _ x p); assumption.
        -- right. exact Hgen.
      * destruct fuel; discriminate.
Qed.


End Frames.

(** ** Sorting the registry *)

Lemma nonNil_map_Some l : nonNil (map Some l) = Some l.
Proof. induction l as [|x l IH]; simpl; [ | rewrite IH ]; reflexivity. Qed.

Lemma nonNil_length l hs : nonNil l = Some hs -> length hs = length l.
Proof.
  revert hs. induction l as [|[x|] l IH]; intros hs; simpl.
  - intros [= <-]. reflexivity.
  - destruct (nonNil l) as [r|]; [ | discriminate ].
    intros [= <-]. simpl. rewrite (IH r); reflexivity.
  - discriminate.
Qed.

Lemma nonNil_map l hs : nonNil l = Some hs -> l = map Some hs.
Proof.
  revert hs. induction l as [|[x|] l IH]; intros hs; simpl.
  - intros [= <-]. reflexivity.
  - destruct (nonNil l) as [r|]; [ | discriminate ].
    intros [= <-]. simpl. rewrite <- (IH r); reflexivity.
  - discriminate.
Qed.

Lemma nonNil_elem l hs b : nonNil l = Some hs -> Some b ∈ l -> b ∈ hs.
Proof.
  intros Hnn Hb. rewrite (nonNil_map _ _ Hnn) in Hb.
  apply list_elem_of_fmap in Hb as (z & [= ->] & Hz). exact Hz.
Qed.

(** The sort rearranges the entries, whether it returns or panics. *)
Lemma sink_Permutation e before : Permutation (e :: before) (fst (sink e before)).
Proof.
  induction before as [|p before IH]; simpl; [ reflexivity | ].
  destruct (less e p) as [[|]|]; simpl; try reflexivity.
  rewrite perm_swap. apply perm_skip, IH.
Qed.

Lemma insertionSort_Permutation rest before :
  Permutation (rev before ++ rest) (fst (insertionSort before rest)).
Proof.
  revert before. induction rest as [|e rest IH]; intros before; simpl.
  - rewrite app_nil_r. reflexivity.
  - assert (Hp : Permutation (rev before ++ e :: rest) (rev (fst (sink e before)) ++ rest)).
    { rewrite <- (Permutation_rev (fst (sink e before))), <- (sink_Permutation e before).
      rewrite <- (Permutation_rev before). simpl. symmetry. apply Permutation_middle. }
    destruct (snd (sink e before)); simpl; [ rewrite <- IH | ]; exact Hp.
Qed.

Lemma sortSlice_Permutation l : Permutation l (fst (sortSlice l)).
Proof.
  destruct l as [|x rest]; simpl; [ reflexivity | ].
  apply (insertionSort_Permutation rest [x]).
Qed.

Lemma sortSlice_length l : length (fst (sortSlice l)) = length l.
Proof. symmetry. apply Permutation_length, sortSlice_Permutation. Qed.

Lemma sortSlice_short l : (length l < 2)%nat -> sortSlice l = (l, true).
Proof. destruct l as [|x [|y l]]; simpl; try reflexivity. lia. Qed.

(** An entry moved into a front part without nil entry and with numbers
    that never increase finds its place there without panic. *)
Lemma sink_descending x before :
  descending before ->
  snd (sink (Some x) before) = true /\ descending (fst (sink (Some x) before)).
Proof.
  induction before as [|p before IH]; intros (hs & Hnn & Hs).
  - simpl. split; [ reflexivity | ]. exists [x]. split; [ reflexivity | repeat constructor ].
  - simpl in Hnn. destruct p as [y|]; [ | discriminate ].
    destruct (nonNil before) as [r|] eqn:Hr; [ | discriminate ]. injection Hnn as <-.
    apply StronglySorted_inv in Hs as [Hs Hall]. rewrite Forall_forall in Hall.
    cbn [sink less]. destruct (N.ltb_spec (hNumber x) (hNumber y)) as [Hlt|Hge].
    + destruct (IH (ex_intro _ r (conj Hr Hs))) as [Hok (hs' & Hnn' & Hs')].
      cbn [fst snd]. split; [ exact Hok | ].
      exists (y :: hs'). split; [ simpl; rewrite Hnn'; reflexivity | ].
      constructor; [ exact Hs' | ]. apply Forall_forall. intros b Hb.
      assert (Hb' : Some b ∈ Some x :: before).
      { rewrite (sink_Permutation (Some x) before). rewrite (nonNil_map _ _ Hnn').
        apply list_elem_of_fmap. exists b. split; [ reflexivity | exact Hb ]. }
      apply elem_of_cons in Hb' as [[= ->]|Hb']; [ lia | ].
      apply Hall. exact (nonNil_elem _ _ _ Hr Hb').
    + cbn [fst snd]. split; [ reflexivity | ].
      exists (x :: y :: r). split; [ simpl; rewrite Hr; reflexivity | ].
      constructor; [ constructor; [ exact Hs | apply Forall_forall; exact Hall ] | ].
      constructor; [ lia | ]. apply Forall_forall. intros b Hb.
      specialize (Hall b Hb). simpl in Hall. lia.
Qed.

Lemma sink_returns e p before :
  snd (sink e (p :: before)) = true -> exists x, e = Some x.
Proof. destruct e as [x|]; [ eauto | ]. simpl. discriminate. Qed.

Lemma sorted_snoc {A} (R : A -> A -> Prop) l a :
  StronglySorted R l -> Forall (fun b => R b a) l -> StronglySorted R (l ++ [a]).
Proof.
  induction 1 as [|x l Hl IH Hx]; intros Ha; simpl.
  - repeat constructor.
  - apply Forall_cons in Ha as [Hxa Ha]. constructor; [ apply IH, Ha | ].
    apply Forall_app. split; [ exact Hx | repeat constructor; exact Hxa ].
Qed.

Lemma descending_rev l : descending l -> ascending (rev l).
Proof.
  intros (hs & Hnn & Hs). exists (rev hs). split.
  - rewrite (nonNil_map _ _ Hnn), <- map_rev. apply nonNil_map_Some.
  - clear Hnn. induction Hs as [|x hs Hs IH Hx]; simpl; [ constructor | ].
    apply sorted_snoc; [ exact IH | ].
    apply Forall_forall. intros b Hb. apply list_elem_of_In, in_rev in Hb.
    rewrite Forall_forall in Hx. apply Hx, list_elem_of_In, Hb.
Qed.

(** When the sort returns, the slice is sorted. *)
Lemma insertionSort_sorted rest before l :
  before <> [] -> descending before ->
  insertionSort before rest = (l, true) -> ascending l.
Proof.
  revert before. induction rest as [|e rest IH]; intros before Hne Hd; simpl.
  - intros [= <-]. apply descending_rev, Hd.
  - destruct (snd (sink e before)) eqn:Hok; [ | discriminate ].
    destruct before as [|p before]; [ congruence | ].
    destruct (sink_returns e p before Hok) as [x ->].
    destruct (sink_descending x (p :: before) Hd) as [_ Hd'].
    apply IH; [ | exact Hd' ].
    intros Hnil. pose proof (sink_Permutation (Some x) (p :: before)) as Hp.
    rewrite Hnil in Hp. apply Permutation_nil_r in Hp. discriminate.
Qed.

Lemma sortSlice_sorted l l' :
  (2 <= length l)%nat -> sortSlice l = (l', true) -> ascending l'.
Proof.
  destruct l as [|x [|e rest]]; simpl length; try lia. intros _ Hrun.
  unfold sortSlice in Hrun. destruct x as [x|].
  - apply (insertionSort_sorted (e :: rest) [Some x]); [ discriminate | | exact Hrun ].
    exists [x]. split; [ reflexivity | repeat constructor ].
  - destruct e; simpl in Hrun; discriminate.
Qed.

(** Without nil entry the sort returns. *)
Lemma insertionSort_returns rest before hs :
  descending before -> nonNil rest = Some hs -> snd (insertionSort before rest) = true.
Proof.
  revert before hs. induction rest as [|[x|] rest IH]; intros before hs Hd Hnn; simpl in *.
  - reflexivity.
  - destruct (nonNil rest) as [r|] eqn:Hr; [ | discriminate ].
    destruct (sink_descending x before Hd) as [-> Hd'].
    apply (IH _ r); [ exact Hd' | reflexivity ].
  - discriminate.
Qed.

Lemma sortSlice_returns l hs : nonNil l = Some hs -> snd (sortSlice l) = true.
Proof.
  destruct l as [|[x|] rest]; simpl; [ reflexivity | | discriminate ].
  destruct (nonNil rest) as [r|] eqn:Hr; [ | discriminate ]. intros _.
  apply (insertionSort_returns rest [Some x] r); [ | exact Hr ].
  exists [x]. split; [ reflexivity | repeat constructor ].
Qed.

(** ** The chain selector *)

Section Claims.
Context `{Env} {view : ChainView}.

Local Abbreviation HC := (HeaderChain BlockChain).

Lemma CurrentHeader_some {B} (x : Header) (k : Header -> M HC B) (s : HC) :
  currentHeader s = Some x -> bind CurrentHeader k s = k x s.
Proof. intros Hx. cbv [bind CurrentHeader gets]. rewrite Hx. reflexivity. Qed.

(** C2.  Fast-forward: when the parent of the new head is the current
    head, [SetCurrentHeader] writes the one canonical entry
    [number -> hash] of the new head and changes no other entry, and the
    current head and its hash become the new head.  This is the chain the
    call leaves behind for every amount of fuel; the call returns no error. *)
Theorem SetCurrentHeader_fast_forward (fuel : nat) (head prev : Header) (s : HC) :
  currentHeader s = Some prev ->
  hHash prev = hParent head ->
  exists s',
    finalState (SetCurrentHeader fuel head s) = Some s' /\
    dbCanonical (headerDb s') = <[hNumber head := hHash head]> (dbCanonical (headerDb s)) /\
    currentHeader s' = Some head /\
    currentHeaderHash s' = hHash head /\
    dbHeaders (headerDb s') = dbHeaders (headerDb s) /\
    (forall r, returned (SetCurrentHeader fuel head s) = Some r -> snd r = None).
Proof.
  intros Hcur Hpar. unfold SetCurrentHeader.
  rewrite (CurrentHeader_some prev) by exact Hcur. cbv zeta.
  rewrite !bind_modify. rewrite Hpar, N.eqb_refl, bind_modify.
  destruct (negb (QuaiNetworkContext =? ZONE)%nat).
  - unfold setSlice. destruct (hLocation head !! QuaiNetworkContext) as [b|]; simpl.
    + destruct (N.to_nat (subByte b 1) <? 3)%nat; simpl;
        eexists; (split; [ reflexivity | ]); simpl; repeat split; try reflexivity;
        intros r [= <-]; reflexivity || discriminate.
    + eexists; (split; [ reflexivity | ]); simpl; repeat split; try reflexivity;
        intros r [=].
  - simpl. eexists; (split; [ reflexivity | ]); simpl; repeat split; try reflexivity.
    intros r [= <-]. reflexivity.
Qed.

(** ** Genesis under trims and reorgs *)



Lemma trimAll_keeps (I : HC -> Prop) fuel g hs :
  readStable I ->
  (forall s, I s -> genesisHeader s = Some g) ->
  (forall s hash n, hash <> hHash g -> I s ->
     I (set_headerDb (rawdb.DeleteHeader hash n) s)) ->
  (forall s x, I s -> I (set_bc (bcTrim x) s)) ->
  keeps I (trimAll fuel hs).
Proof.
  intros HI Hg Hdel Hbc. induction hs as [|head rest IH]; simpl.
  - apply keeps_ret.
  - intros s Hs. rewrite bind_gets, (Hg s Hs).
    eapply holds_bind.
    + apply trim_keeps; [ exact HI | | exact Hbc | exact Hs ].
      intros s1 hash n Hne Hs1. apply Hdel; [ apply Hne; reflexivity | exact Hs1 ].
    + intros s1 Hs1. exact Hs1.
    + intros e s1 Hs1. apply IH. exact Hs1.
Qed.

Lemma afterBody_heads block (s : HC) : heads (afterBody block s) = heads s.
Proof. unfold afterBody. cbv zeta. destruct (Nat.ltb _ _); reflexivity. Qed.


Lemma afterBody_headerDb block (s : HC) :
  headerDb (afterBody block s) = rawdb.WriteHeader (blockHeader block) (headerDb s).
Proof. unfold afterBody. cbv zeta. destruct (Nat.ltb _ _); reflexivity. Qed.

Lemma afterBody_bc block (s : HC) : bc (afterBody block s) = snd (bcAppend block (bc s)).
Proof. unfold afterBody. cbv zeta. destruct (Nat.ltb _ _); reflexivity. Qed.

Lemma afterBody_chainFeed block (s : HC) :
  chainFeed (afterBody block s) =
  chainFeed s ++ [mkChainEvent block (hHash (blockHeader block)) (fst (fst (bcAppend block (bc s))))].
Proof. unfold afterBody. cbv zeta. destruct (Nat.ltb _ _); reflexivity. Qed.

(** Once the checks have passed, [Append] is garbage collection and
    registration run on [afterBody]. *)
Lemma appended_frame block (s s0 : HC) : appended block s s0 -> sameButCaches s s0.
Proof.
  intros (Hv & _). apply (VerifyHeader_frame (blockHeader block)).
  rewrite Hv. reflexivity.
Qed.

Lemma Append_appended fuel block (s s0 : HC) :
  appended block s s0 ->
  Append fuel block s =
  (gc <- evictOldest fuel ;;
   match gc with
   | Some e => ret (Some e)
   | None => registerHead (blockHeader block) ;;; ret None
   end) (afterBody block s0).
Proof.
  intros (Hv & Ha & Hw & Hb).
  unfold Append, Appendable, afterBody. cbv [bind gets modify ret].
  rewrite Hv, Ha, Hw. cbn [bc set_bc set_headerDb headerDb]. rewrite Hb.
  destruct (Nat.ltb _ _); reflexivity.
Qed.

Lemma registerHead_keeps (I : HC -> Prop) header :
  (forall s l, I s -> I (set_heads l s)) -> keeps I (registerHead header).
Proof.
  intros Hh. unfold registerHead, sortHeads.
  apply keeps_bind; [ apply keeps_modify; intros; apply Hh; assumption | intros _ ].
  apply keeps_bind; [ apply keeps_gets | intros hs ]. cbv zeta.
  apply keeps_bind; [ apply keeps_modify; intros; apply Hh; assumption | intros _ ].
  destruct (snd _); [ apply keeps_ret | apply keeps_panic ].
Qed.



(** ** The appender *)

(** C6.  Compensated failure: when the header has been written and the
    body chain then refuses the body with error [e], [Append] returns [e]
    and the store holds neither the header under [(hash, number)] nor a
    number under its hash; every other header record, the canonical
    mapping, the registry and the feed are as before the call. *)
Theorem Append_body_failure_rolls_back (fuel : nat) (block : Block) (s s0 : HC) (e : string) :
  VerifyHeader (blockHeader block) s = Ret None s0 ->
  bcAppendable (bc s) block = None ->
  batchWrite (headerDb s) (blockHeader block) = None ->
  snd (fst (bcAppend block (bc s))) = Some e ->
  exists s',
    Append fuel block s = Ret (Some e) s' /\
    rawdb.ReadHeader (headerDb s') (hHash (blockHeader block)) (hNumber (blockHeader block)) = None /\
    rawdb.ReadHeaderNumber (headerDb s') (hHash (blockHeader block)) = None /\
    (forall k, k <> (hHash (blockHeader block), hNumber (blockHeader block)) ->
       dbHeaders (headerDb s') !! k = dbHeaders (headerDb s) !! k) /\
    dbCanonical (headerDb s') = dbCanonical (headerDb s) /\
    heads s' = heads s /\
    chainFeed s' = chainFeed s.
Proof.
  intros Hv Ha Hw Hb.
  assert (Hsame : sameButCaches s s0).
  { apply (VerifyHeader_frame (blockHeader block)). rewrite Hv. reflexivity. }
  destruct Hsame as (_ & Hbc & Hfeed & _ & Hdb & _ & _ & _ & Hh).
  rewrite <- Hbc in Ha, Hb. rewrite <- Hdb in Hw.
  cbv [Append Appendable bind gets modify ret]. rewrite Hv, Ha, Hw. cbn [headerDb set_headerDb set_bc bc].
  rewrite Hb. eexists. split; [ reflexivity | ].
  cbn. unfold rawdb.ReadHeader, rawdb.ReadHeaderNumber. cbn.
  rewrite Hdb, Hh, Hfeed.
  repeat split.
  - apply lookup_delete_eq.
  - apply lookup_delete_eq.
  - intros k Hk. rewrite lookup_delete_ne, lookup_insert_ne by congruence. reflexivity.
Qed.

Lemma trim_no_error fuel c p (s : HC) e :
  returned (trim fuel c p s) = Some e -> e = None.
Proof.
  revert p s. induction fuel as [|fuel IH]; intros p s; simpl; [ discriminate | ].
  unfold bind at 1. destruct (Hash_ p s) as [ph s1| |]; try discriminate.
  unfold bind at 1. destruct (Hash_ c s1) as [ch s2| |]; try discriminate.
  destruct (N.eqb ph ch); [ intros [= <-]; reflexivity | ].
  unfold bind at 1. destruct (Hash_ p s2) as [dh s3| |]; try discriminate.
  unfold bind at 1. destruct (Number64 p s3) as [dn s4| |]; try discriminate.
  rewrite bind_modify. destruct p as [px|]; [ | discriminate ].
  rewrite bind_modify. unfold bind at 1.
  destruct (GetHeader _ _ _) as [[x|] s5| |]; try discriminate.
  - apply IH.
  - intros [= <-]. reflexivity.
Qed.

(** C10.  When garbage collection fails because [findCommonHeader] finds
    no common header for the oldest registered head, [Append] returns the
    error although the header stays written, the body stays appended and
    the chain event has been sent; the registry is left as it was.  The
    other failure cannot happen: [trim] never returns an error. *)
Theorem Append_gc_failure_keeps_append (fuel : nat) (block : Block) (s s0 s1 : HC)
    (oldest : option Header) (rest : list (option Header)) :
  appended block s s0 ->
  heads s = oldest :: rest ->
  length (heads s) = maxHeadsQueueLimit ->
  findCommonHeader fuel oldest (afterBody block s0) = Ret None s1 ->
  Append fuel block s = Ret (Some "nil head in hc.heads"%string) s1 /\
  headerDb s1 = rawdb.WriteHeader (blockHeader block) (headerDb s) /\
  rawdb.ReadHeader (headerDb s1) (hHash (blockHeader block)) (hNumber (blockHeader block))
    = Some (blockHeader block) /\
  bc s1 = snd (bcAppend block (bc s)) /\
  chainFeed s1 =
    chainFeed s ++ [mkChainEvent block (hHash (blockHeader block)) (fst (fst (bcAppend block (bc s))))] /\
  heads s1 = heads s /\
  (forall fuel' c p (s2 : HC) e, returned (trim fuel' c p s2) = Some e -> e = None).
Proof.
  intros Happ Hheads Hlen Hfind.
  assert (Hsame : sameButCaches (afterBody block s0) s1).
  { apply (findCommonHeader_frame fuel oldest). rewrite Hfind. reflexivity. }
  destruct Hsame as (_ & Hbc & Hfeed & _ & Hdb & _ & _ & _ & Hh).
  destruct (appended_frame block s s0 Happ) as (_ & Hbc0 & Hfeed0 & _ & Hdb0 & _ & _ & _ & Hh0).
  split; [ | repeat split ].
  - rewrite (Append_appended fuel block s s0) by exact Happ.
    unfold evictOldest. unfold bind at 1. rewrite bind_gets.
    rewrite afterBody_heads, Hh0, Hlen, Nat.eqb_refl, Hheads.
    unfold bind at 1. rewrite Hfind. reflexivity.
  - rewrite Hdb, <- Hdb0. apply afterBody_headerDb.
  - rewrite Hdb, afterBody_headerDb. unfold rawdb.ReadHeader. simpl. apply lookup_insert_eq.
  - rewrite Hbc, <- Hbc0. apply afterBody_bc.
  - rewrite Hfeed, <- Hfeed0, <- Hbc0. apply afterBody_chainFeed.
  - rewrite Hh, <- Hh0. apply afterBody_heads.
  - intros fuel' c p s2 e. apply trim_no_error.
Qed.

(** ** The heads registry *)

Lemma ascending_singleton x : ascending [Some x].
Proof. exists [x]. split; [ reflexivity | repeat constructor ]. Qed.

(** The new head joins the registry: one entry more, and on return the
    registry is the sorted rearrangement of the old entries and the new
    one. *)
Lemma registerHead_spec header (s : HC) :
  holds (registerHead header s)
    (fun _ s' =>
       length (heads s') = Datatypes.S (length (heads s)) /\
       ascending (heads s') /\
       Permutation (heads s ++ [Some header]) (heads s') /\
       headerDb s' = headerDb s)
    (fun s' => length (heads s') = Datatypes.S (length (heads s))).
Proof.
  unfold registerHead, sortHeads. rewrite bind_modify, bind_gets.
  cbn [heads set_heads]. cbv zeta. rewrite bind_modify. cbn [heads set_heads].
  assert (Hlen : length (heads s ++ [Some header]) = Datatypes.S (length (heads s))).
  { rewrite length_app. simpl. lia. }
  pose proof (sortSlice_length (heads s ++ [Some header])) as Hl.
  pose proof (sortSlice_Permutation (heads s ++ [Some header])) as Hperm.
  destruct (sortSlice (heads s ++ [Some header])) as [l ok] eqn:Hsort.
  cbn [fst snd] in *. destruct ok; simpl.
  - split; [ lia | ]. split; [ | split; [ exact Hperm | reflexivity ] ].
    destruct (Nat.ltb_spec (length (heads s ++ [Some header])) 2) as [Hlt|Hge].
    + rewrite (sortSlice_short _ Hlt) in Hsort. injection Hsort as <-.
      destruct (heads s) as [|a l']; simpl in *; [ apply ascending_singleton | lia ].
    + apply (sortSlice_sorted _ _ Hge Hsort).
  - lia.
Qed.

(** Garbage collection never grows the registry, and leaves room for one
    more head when it reports no error. *)
Lemma evictOldest_spec fuel (s : HC) :
  (length (heads s) <= maxHeadsQueueLimit)%nat ->
  holds (evictOldest fuel s)
    (fun r s' => (length (heads s') <= maxHeadsQueueLimit)%nat /\
                 (r = None -> (length (heads s') < maxHeadsQueueLimit)%nat))
    (fun s' => (length (heads s') <= maxHeadsQueueLimit)%nat).
Proof.
  intros Hle. unfold evictOldest. rewrite bind_gets.
  destruct (Nat.eqb_spec (length (heads s)) maxHeadsQueueLimit) as [Heq|Hne].
  - destruct (heads s) as [|oldest rest] eqn:Hh; [ simpl; rewrite Hh; exact Hle | ].
    unfold bind at 1.
    destruct (findCommonHeader fuel oldest s) as [c s1|s1|] eqn:Hfind; simpl; [ | | exact Logic.I ].
    + assert (H1 : heads s1 = heads s).
      { apply (findCommonHeader_frame fuel oldest). rewrite Hfind. reflexivity. }
      destruct c as [cx|]; [ | simpl; rewrite H1, Hh; split; [ exact Hle | discriminate ] ].
      unfold bind at 1.
      destruct (trim fuel (Some cx) oldest s1) as [e s2|s2|] eqn:Htrim; simpl; [ | | exact Logic.I ].
      * assert (H2 : heads s2 = heads s1).
        { apply (trim_heads fuel (Some cx) oldest). rewrite Htrim. reflexivity. }
        destruct e as [e|]; simpl.
        -- rewrite H2, H1, Hh. split; [ exact Hle | discriminate ].
        -- simpl in Heq. split; [ lia | intros _; lia ].
      * assert (H2 : heads s2 = heads s1).
        { apply (trim_heads fuel (Some cx) oldest). rewrite Htrim. reflexivity. }
        rewrite H2, H1, Hh. exact Hle.
    + assert (H1 : heads s1 = heads s).
      { apply (findCommonHeader_frame fuel oldest). rewrite Hfind. reflexivity. }
      rewrite H1, Hh. exact Hle.
  - simpl. split; [ exact Hle | intros _; lia ].
Qed.


Lemma registerHead_returns header (s : HC) hs :
  nonNil (heads s) = Some hs -> exists s', registerHead header s = Ret tt s'.
Proof.
  intros Hnn. unfold registerHead, sortHeads. rewrite bind_modify, bind_gets.
  cbn [heads set_heads]. cbv zeta. rewrite bind_modify.
  rewrite (sortSlice_returns _ (hs ++ [header])); [ eexists; reflexivity | ].
  rewrite (nonNil_map _ _ Hnn).
  change [Some header] with (map Some [header]). rewrite <- map_app. apply nonNil_map_Some.
Qed.


Lemma Append_heads_spec (fuel : nat) (block : Block) (s : HC) :
  (length (heads s) <= maxHeadsQueueLimit)%nat ->
  holds (Append fuel block s)
    (fun r s' => (length (heads s') <= maxHeadsQueueLimit)%nat /\
                 (r = None -> ascending (heads s')))
    (fun s' => (length (heads s') <= maxHeadsQueueLimit)%nat).
Proof.
  intros Hle. unfold Append.
  eapply holds_bind.
  - apply (Appendable_keeps (fun x => (length (heads x) <= maxHeadsQueueLimit)%nat));
      [ | exact Hle ].
    apply cacheStable_viewStable. split; [ | split ]; intros t c Ht; exact Ht.
  - intros s1 Hs1. exact Hs1.
  - intros [e|] s1 Hs1; simpl in Hs1; [ split; [ exact Hs1 | discriminate ] | ].
    cbv zeta. rewrite bind_gets.
    destruct (batchWrite _ _); [ split; [ exact Hs1 | discriminate ] | ].
    rewrite bind_modify, bind_gets, bind_modify.
    cbn [bc set_bc set_headerDb].
    destruct (snd (fst (bcAppend block (bc s1)))).
    { rewrite bind_modify. split; [ exact Hs1 | discriminate ]. }
    rewrite bind_modify.
    eapply (holds_bind _ _ _
              (fun _ x => (length (heads x) <= maxHeadsQueueLimit)%nat)).
    + destruct (Nat.ltb _ _); simpl; exact Hs1.
    + intros s2 Hs2. exact Hs2.
    + intros _ s2 Hs2.
      eapply holds_bind.
      * apply evictOldest_spec. exact Hs2.
      * intros s3 Hs3. exact Hs3.
      * intros [e|] s3 [Hle1 Hlt]; simpl; [ split; [ exact Hle1 | discriminate ] | ].
        specialize (Hlt eq_refl).
        eapply holds_bind.
        -- apply registerHead_spec.
        -- simpl. intros s4 Hl. lia.
        -- simpl. intros _ s4 (Hl & Hasc & _). split; [ lia | intros _; exact Hasc ].
Qed.

(** C4.  Started with at most [maxHeadsQueueLimit] registered heads,
    [Append] leaves at most that many, however it ends; when it returns
    without error the registry holds no nil entry and is sorted by
    ascending block number. *)
Theorem Append_registry_bounded_sorted (fuel : nat) (block : Block) (s s' : HC) :
  (length (heads s) <= maxHeadsQueueLimit)%nat ->
  finalState (Append fuel block s) = Some s' ->
  (length (heads s') <= maxHeadsQueueLimit)%nat /\
  (returned (Append fuel block s) = Some None -> ascending (heads s')).
Proof.
  intros Hle. pose proof (Append_heads_spec fuel block s Hle) as Hspec.
  destruct (Append fuel block s) as [r s1|s1|]; simpl in *.
  - intros [= <-]. destruct Hspec as [Hl Hasc]. split; [ exact Hl | ].
    intros [= ->]. apply Hasc. reflexivity.
  - intros [= <-]. split; [ exact Hspec | discriminate ].
  - discriminate.
Qed.


(** ** Ancestor queries *)

(** With fewer budgeted steps than generations to go and no position of
    the walk on the canonical chain, the loop gives up. *)
Lemma GetAncestor_loop_exhausted (ancestor : nat) :
  forall (budget : N) (hash : Hash) (number : N) (s : HC),
    (N.to_nat budget < ancestor)%nat ->
    budget < two64 ->
    returned (neverCanonical (Datatypes.S (N.to_nat budget)) hash number s) = Some true ->
    exists b' s', GetAncestor_loop ancestor hash number budget s = Ret (zeroHash, 0, b') s'.
Proof.
  induction ancestor as [|a IH]; intros budget hash number s Hlt Hb Hoff; [ lia | ].
  simpl in Hoff |- *. rewrite bind_gets in Hoff. rewrite bind_gets. cbv zeta.
  destruct (N.eqb (rawdb.ReadCanonicalHash (headerDb s) number) hash); [ discriminate | ].
  destruct (N.eqb_spec budget 0) as [Hz|Hnz]; [ eexists _, _; reflexivity | ].
  unfold bind in Hoff |- *.
  destruct (GetHeader hash number s) as [[h|] s1|s1|]; try discriminate.
  - assert (Hk : N.to_nat budget = Datatypes.S (N.to_nat (sub64 budget 1))).
    { rewrite sub64_small by lia. lia. }
    rewrite Hk in Hoff. apply IH.
    + rewrite sub64_small by lia. lia.
    + rewrite sub64_small by lia. lia.
    + exact Hoff.
  - eexists _, _; reflexivity.
Qed.

(** C7.  [GetAncestor] at distance 0 returns its arguments; at distance 1
    (for a number of at least 1 whose header [GetHeader] finds) the parent
    hash and [number - 1]; the zero hash and 0 when the distance exceeds
    the number; and the zero hash and 0 when the walk (distance 2 or more)
    has more generations to go than budget and meets no canonical position
    within its budget. *)
Theorem GetAncestor_spec (hash : Hash) (number budget : N) (s : HC) :
  GetAncestor hash number 0 budget s = Ret (hash, number, budget) s /\
  (forall h s',
     1 <= number -> number < two64 ->
     GetHeader hash number s = Ret (Some h) s' ->
     GetAncestor hash number 1 budget s = Ret (hParent h, number - 1, budget) s') /\
  (forall ancestor,
     number < ancestor ->
     GetAncestor hash number ancestor budget s = Ret (zeroHash, 0, budget) s) /\
  (forall ancestor,
     2 <= ancestor -> ancestor <= number -> budget < ancestor -> budget < two64 ->
     returned (neverCanonical (Datatypes.S (N.to_nat budget)) hash number s) = Some true ->
     exists b' s', GetAncestor hash number ancestor budget s = Ret (zeroHash, 0, b') s').
Proof.
  repeat split.
  - unfold GetAncestor. destruct (N.ltb_spec number 0) as [Hlt|_]; [ lia | ]. reflexivity.
  - intros h s' H1 Hn Hget. unfold GetAncestor.
    destruct (N.ltb_spec number 1) as [Hlt|_]; [ lia | ]. simpl.
    unfold bind. rewrite Hget. rewrite sub64_small by lia. reflexivity.
  - intros ancestor Hlt. unfold GetAncestor.
    destruct (N.ltb_spec number ancestor) as [_|Hge]; [ reflexivity | lia ].
  - intros ancestor H2 Hle Hb Hb64 Hoff. unfold GetAncestor.
    destruct (N.ltb_spec number ancestor) as [Hlt|_]; [ lia | ].
    destruct (N.eqb_spec ancestor 1) as [H1|_]; [ lia | ].
    apply GetAncestor_loop_exhausted; [ lia | exact Hb64 | exact Hoff ].
Qed.

(** [GetAncestorByLocation] never returns a header: a hash whose header
    is found is answered with the error, and a hash without header makes
    the loop condition read the location of a nil header. *)
Lemma GetAncestorByLocation_never_finds fuel hash location (s s' : HC) r :
  GetAncestorByLocation fuel hash location s = Ret r s' ->
  r = (None, Some "error finding header by hash"%string).
Proof.
  unfold GetAncestorByLocation. unfold bind at 1.
  destruct (GetHeaderByHash hash s) as [[h|] s1|s1|]; try discriminate.
  - intros [= <- _]. reflexivity.
  - destruct fuel; discriminate.
Qed.

(** ** Total difficulty *)

Lemma GetBlockNumber_returns hash (s : HC) :
  exists r s', GetBlockNumber hash s = Ret r s' /\ headerDb s' = headerDb s.
Proof.
  unfold GetBlockNumber. rewrite bind_gets.
  destruct (lru.Get hash (numberCache s)) as [[x|] c'].
  - rewrite bind_modify. eexists _, _. split; reflexivity.
  - rewrite bind_gets. destruct (rawdb.ReadHeaderNumber _ _);
      [ rewrite bind_modify | ]; eexists _, _; split; reflexivity.
Qed.

Lemma GetTd_returns hash number (s : HC) :
  exists v s', GetTd hash number s = Ret (Some v) s'.
Proof.
  unfold GetTd. rewrite bind_gets.
  destruct (rawdb.ReadTd _ _ _); [ rewrite bind_modify | ]; eexists _, _; reflexivity.
Qed.

Lemma GetTd_absent hash number (s : HC) :
  rawdb.ReadTd (headerDb s) hash number = None ->
  GetTd hash number s = Ret (Some [None; None; None]) s.
Proof. intros Hno. unfold GetTd. rewrite bind_gets, Hno. reflexivity. Qed.

(** C8, as the code has it.  [GetTd] and [GetTdByHash] always return, and
    never the nil vector.  Without a total-difficulty record the vector
    has three entries and each is the zero value of its pointer type, a
    nil pointer: indexing 0 to 2 is safe, but no entry holds a number. *)
Theorem GetTd_never_nil (hash : Hash) (number : N) (s : HC) :
  (exists v s', GetTd hash number s = Ret (Some v) s') /\
  (rawdb.ReadTd (headerDb s) hash number = None ->
   GetTd hash number s = Ret (Some [None; None; None]) s) /\
  (exists v s', GetTdByHash hash s = Ret (Some v) s') /\
  ((forall n, rawdb.ReadTd (headerDb s) hash n = None) ->
   exists s', GetTdByHash hash s = Ret (Some [None; None; None]) s').
Proof.
  split; [ apply GetTd_returns | ]. split; [ apply GetTd_absent | ].
  destruct (GetBlockNumber_returns hash s) as (r & s1 & Hnum & Hdb).
  unfold GetTdByHash. unfold bind. rewrite Hnum. split.
  - destruct r as [n|]; [ apply GetTd_returns | eexists _, _; reflexivity ].
  - intros Hno. destruct r as [n|]; [ | eexists; reflexivity ].
    exists s1. apply GetTd_absent. rewrite Hdb. apply Hno.
Qed.

End Claims.

(** ** The properties on the concrete chain *)

(** The consensus collaborator of [Demo] reads the store and writes
    nothing. *)
#[global] Instance demo_view : ChainView (H := Demo.env).
Proof.
  constructor. intros header I HI. cbn [VerifyHeader Demo.env]. unfold Demo.demoVerify.
  apply keeps_bind; [ apply keeps_gets | intros db ].
  destruct (rawdb.ReadHeader _ _ _); apply keeps_ret.
Qed.

#[global] Instance tolerant_view : ChainView (H := Cases.tolerant).
Proof.
  constructor. intros header I HI. cbn [VerifyHeader Cases.tolerant]. unfold Demo.demoVerify.
  apply keeps_bind; [ apply keeps_gets | intros db ].
  destruct (rawdb.ReadHeader _ _ _); apply keeps_ret.
Qed.

(** The consensus collaborator of [Cases.reading] goes through
    [GetHeader]. *)
#[global] Instance reading_view : ChainView (H := Cases.reading).
Proof.
  constructor. intros header I [[Hget _] _]. cbn [VerifyHeader Cases.reading].
  unfold Cases.viewVerify.
  apply keeps_bind; [ apply (Hget (hHash header) (hNumber header)) | intros [x|] ].
  - apply keeps_ret.
  - apply keeps_bind;
      [ apply (Hget (hParent header) (sub64 (hNumber header) 1)) | intros [x|] ].
    + destruct (Nat.eqb _ _); apply keeps_ret.
    + apply keeps_ret.
Qed.

(** C9.  [GetAncestorByLocation] on the hash of a stored header whose
    location is the requested one: the spec expects that header and no
    error; the call returns no header and the error raised by the
    inverted nil test on its first line. *)
Theorem GetAncestorByLocation_rejects_stored_header :
  rawdb.ReadHeader (headerDb Demo.forked) 240 4 = Some Demo.B4 /\
  hLocation Demo.B4 = [1; 2] /\
  returned (GetAncestorByLocation (H := Demo.env) 10 240 [1; 2] Demo.forked)
    = Some (None, Some "error finding header by hash"%string).
Proof. repeat split; vm_compute; reflexivity. Qed.

(** C1.  A reorg from head A2 to B4, the branches meeting at C1 of number
    1: the spec expects the canonical mapping to hold B2, B3 and B4 at
    the numbers 2, 3 and 4; the call returns without error and leaves
    number 3 unmapped, B3 having been skipped by the inner loop that moves
    to the parent before it pushes. *)
Theorem SetCurrentHeader_reorg_skips_header :
  currentHeader Demo.forked = Some Demo.A2 /\
  ancestry 10 (headerDb Demo.forked) Demo.A2 = [Demo.A2; Demo.C1; Demo.G] /\
  ancestry 10 (headerDb Demo.forked) Demo.B4
    = [Demo.B4; Demo.B3; Demo.B2; Demo.C1; Demo.G] /\
  (snd <$> returned (SetCurrentHeader (H := Demo.env) 10 Demo.B4 Demo.forked)) = Some None /\
  (Demo.canonicalUpTo 5 <$> finalState (SetCurrentHeader (H := Demo.env) 10 Demo.B4 Demo.forked))
    = Some [Some 100; Some 110; Some 220; None; Some 240].
Proof. repeat split; vm_compute; reflexivity. Qed.

(** The same loop drops the new head itself when the old head is the
    common header: from head C1, B3 two generations ahead is made the
    head, yet number 3 stays unmapped. *)
Example SetCurrentHeader_extension_drops_head :
  (Demo.canonicalUpTo 4 <$>
     finalState (SetCurrentHeader (H := Demo.env) 10 Demo.B3
                   (Demo.chain [Demo.G; Demo.C1; Demo.B2; Demo.B3]
                      [Demo.G; Demo.C1] Demo.C1 [])))
    = Some [Some 100; Some 110; Some 220; None].
Proof. vm_compute. reflexivity. Qed.

(** C3.  The genesis entry of the canonical mapping is deleted by a
    reorg, and the genesis record by a [trim].

    From the chain that holds the genesis header alone, C1 and A2 are
    appended and selected, then B2, B3 and A3 are appended, which evicts
    B2 and deletes its record; every call returns without error and the
    canonical mapping is G, C1, A2.  Selecting B3, whose parent B2 is
    gone, returns without error too and leaves no canonical entry below
    number 3: no common header is found, the new side of the reorg runs
    out of headers when the old side has just moved to the genesis header
    (line 272), and the inner loop (lines 276-292) deletes the entry of
    that header at line 281, its genesis test coming only after the next
    move.  The same loop deletes the genesis entry on a chain whose
    canonical mapping names B1 while the current head is C1.  [trim],
    which has no genesis test at all, deletes the genesis record when the
    common header it is given is not on the branch it walks. *)
Theorem genesis_deleted_by_reorg_and_trim :
  Demo.canonicalUpTo 1 Cases.genesisOnly = [Some 100] /\
  returned (Cases.build Cases.genesisOnly)
    = Some [None; None; None; None; None; None; None] /\
  (Demo.canonicalUpTo 4 <$> finalState (Cases.build Cases.genesisOnly))
    = Some [Some 100; Some 110; Some 120; None] /\
  returned (Cases.buildThenSelect Cases.genesisOnly)
    = Some [None; None; None; None; None; None; None; None] /\
  (Demo.canonicalUpTo 4 <$> finalState (Cases.buildThenSelect Cases.genesisOnly))
    = Some [None; None; None; Some 230] /\
  dbCanonical (headerDb Demo.astray) !! 0 = Some 100 /\
  ((fun s' => dbCanonical (headerDb s') !! 0) <$>
     finalState (SetCurrentHeader (H := Demo.env) 10 Demo.B1 Demo.astray)) = Some None /\
  rawdb.ReadHeader (headerDb Demo.forked) 100 0 = Some Demo.G /\
  ((fun s' => rawdb.ReadHeader (headerDb s') 100 0) <$>
     finalState (trim (H := Demo.env) 10 (Some Demo.A2) (Some Demo.B2) Demo.forked))
    = Some None.
Proof. repeat split; vm_compute; reflexivity. Qed.


(** C8, counterexample.  Without a record, the entries of the vector
    [GetTd] returns are nil pointers, not difficulties of value zero. *)
Lemma absentTdIsZero_fails : ~ absentTdIsZero (H := Demo.env).
Proof.
  intros Hc.
  destruct (Hc 240 4 Demo.forked [None; None; None] eq_refl eq_refl) as [_ Hz].
  inversion Hz as [|e l He _]. discriminate.
Qed.

(** C2 on the chain [forked]: A3 extends the current head A2. *)
Lemma SetCurrentHeader_fast_forward_witness :
  (currentHeader Demo.forked = Some Demo.A2 /\ hHash Demo.A2 = hParent Demo.A3) /\
  exists s',
    finalState (SetCurrentHeader (H := Demo.env) 10 Demo.A3 Demo.forked) = Some s' /\
    dbCanonical (headerDb s') = <[3 := 130]> (dbCanonical (headerDb Demo.forked)) /\
    currentHeader s' = Some Demo.A3 /\
    currentHeaderHash s' = 130.
Proof.
  split; [ split; reflexivity | ].
  destruct (SetCurrentHeader_fast_forward (H := Demo.env) 10 Demo.A3 Demo.A2 Demo.forked
              eq_refl eq_refl) as (s' & Hfin & Hcanon & Hcur & Hhash & _).
  exists s'. repeat split; assumption.
Defined.

(** C6 on the chain [full]: the body chain rejects the empty block A3. *)
Lemma Append_body_failure_rolls_back_witness :
  exists s',
    Append (H := Demo.env) 10 Demo.emptyBlockA3 Demo.full
      = Ret (Some "body rejected"%string) s' /\
    rawdb.ReadHeader (headerDb s') 130 3 = None.
Proof.
  destruct (Append_body_failure_rolls_back (H := Demo.env) 10 Demo.emptyBlockA3 Demo.full
              Demo.full "body rejected"%string eq_refl eq_refl eq_refl eq_refl)
    as (s' & Hrun & Hgone & _).
  exists s'. split; assumption.
Defined.

(** C10 on the chain [withNilHead]: the oldest registered head is nil. *)
Lemma Append_gc_failure_keeps_append_witness :
  Append (H := Demo.env) 10 Demo.blockA3 Demo.withNilHead
    = Ret (Some "nil head in hc.heads"%string)
          (afterBody (H := Demo.env) Demo.blockA3 Demo.withNilHead) /\
  rawdb.ReadHeader
    (headerDb (afterBody (H := Demo.env) Demo.blockA3 Demo.withNilHead)) 130 3
    = Some Demo.A3.
Proof.
  destruct (Append_gc_failure_keeps_append (H := Demo.env) 10 Demo.blockA3 Demo.withNilHead
              Demo.withNilHead
              (afterBody (H := Demo.env) Demo.blockA3 Demo.withNilHead)
              None [Some Demo.A2])
    as (Hrun & _ & Hkept & _).
  - repeat split.
  - reflexivity.
  - reflexivity.
  - reflexivity.
  - split; assumption.
Defined.

(** C4 on the chain [full]: appending A3 evicts C1. *)
Lemma Append_registry_bounded_sorted_witness :
  exists s',
    finalState (Append (H := Demo.env) 10 Demo.blockA3 Demo.full) = Some s' /\
    (length (heads s') <= 2)%nat /\
    ascending (heads s').
Proof.
  destruct (Append (H := Demo.env) 10 Demo.blockA3 Demo.full) as [e s'|s'|] eqn:Hrun;
    try (vm_compute in Hrun; discriminate).
  exists s'. split; [ reflexivity | ].
  assert (He : e = None) by (vm_compute in Hrun; congruence).
  destruct (Append_registry_bounded_sorted (H := Demo.env) 10 Demo.blockA3 Demo.full s')
    as [Hlen Hasc].
  - simpl. lia.
  - rewrite Hrun. reflexivity.
  - split; [ exact Hlen | ]. apply Hasc. rewrite Hrun, He. reflexivity.
Defined.


(** C7 on the chain [forked], from B4 of number 4, which is off the
    canonical chain. *)
Lemma GetAncestor_spec_witness :
  returned (GetAncestor (H := Demo.env) 240 4 0 1 Demo.forked) = Some (240, 4, 1) /\
  returned (GetAncestor (H := Demo.env) 240 4 1 1 Demo.forked) = Some (230, 3, 1) /\
  returned (GetAncestor (H := Demo.env) 240 4 5 1 Demo.forked) = Some (zeroHash, 0, 1) /\
  exists b', returned (GetAncestor (H := Demo.env) 240 4 3 1 Demo.forked)
             = Some (zeroHash, 0, b').
Proof.
  destruct (GetAncestor_spec (H := Demo.env) 240 4 1 Demo.forked)
    as (H0 & H1 & Hfar & Hbudget).
  split; [ rewrite H0; reflexivity | ].
  split.
  { destruct (GetHeader (H := Demo.env) 240 4 Demo.forked) as [[h|] s'|s'|] eqn:Hget;
      try (vm_compute in Hget; discriminate).
    assert (Hh : h = Demo.B4) by (vm_compute in Hget; injection Hget as <- _; reflexivity).
    rewrite (H1 h s'); [ rewrite Hh; reflexivity | lia | reflexivity | reflexivity ]. }
  split.
  { rewrite (Hfar 5); [ reflexivity | lia ]. }
  destruct (Hbudget 3) as (b' & s' & Hrun);
    [ lia | lia | lia | reflexivity | vm_compute; reflexivity | ].
  exists b'. rewrite Hrun. reflexivity.
Defined.

(** C8 on the chain [forked], which stores no total difficulty. *)
Lemma GetTd_never_nil_witness :
  GetTd (H := Demo.env) 240 4 Demo.forked = Ret (Some [None; None; None]) Demo.forked /\
  exists s', GetTdByHash (H := Demo.env) 240 Demo.forked = Ret (Some [None; None; None]) s'.
Proof.
  destruct (GetTd_never_nil (H := Demo.env) 240 4 Demo.forked) as (_ & Habsent & _ & Hby).
  split; [ apply Habsent; reflexivity | ].
  apply Hby. intros n. reflexivity.
Defined.


(** ** The appender: rejected blocks, the frame and the round trip *)

(** One step of a frame proof for code that reads through the caches. *)
Ltac keeps_step HI :=
  first
    [ keeps_split
    | apply Hash__keeps | apply Number64_keeps | apply Parent_keeps
    | apply Location_keeps | apply GenesisHash_keeps | apply setSlice_keeps
    | apply CurrentHeader_keeps
    | apply (proj1 HI) | apply (proj2 HI)
    | apply GetHeaderByHash_keeps; exact HI
    | apply findCommonHeader_keeps; exact HI ].

Section AppenderFrame.
Context `{Env} {view : ChainView}.

Local Abbreviation HC := (HeaderChain BlockChain).

Lemma evictOldest_keeps (I : HC -> Prop) fuel :
  readStable I ->
  (forall s hash n, I s -> I (set_headerDb (rawdb.DeleteHeader hash n) s)) ->
  (forall s x, I s -> I (set_bc (bcTrim x) s)) ->
  (forall s l, I s -> I (set_heads l s)) ->
  keeps I (evictOldest fuel).
Proof.
  intros HI Hdel Htrim Hheads. unfold evictOldest.
  apply keeps_bind; [ apply keeps_gets | intros hs ].
  destruct (Nat.eqb _ _); [ | apply keeps_ret ].
  destruct hs as [|oldest rest]; [ apply keeps_panic | ].
  apply keeps_bind; [ apply findCommonHeader_keeps; exact HI | intros c ].
  destruct c as [c|]; [ | apply keeps_ret ].
  apply keeps_bind.
  - apply trim_keeps; [ exact HI | intros s hash n _; apply Hdel | exact Htrim ].
  - intros [e|]; [ apply keeps_ret | ].
    apply keeps_bind; [ apply keeps_modify; intros ?; apply Hheads | intros _; apply keeps_ret ].
Qed.

Lemma Append_keeps (I : HC -> Prop) fuel block :
  viewStable I ->
  (forall s h, I s -> I (set_headerDb (rawdb.WriteHeader h) s)) ->
  (forall s hash n, I s -> I (set_headerDb (rawdb.DeleteHeader hash n) s)) ->
  (forall s f, I s -> I (set_bc f s)) ->
  (forall s f, I s -> I (set_chainFeed f s)) ->
  (forall s f, I s -> I (set_logsFeed f s)) ->
  (forall s l, I s -> I (set_heads l s)) ->
  keeps I (Append fuel block).
Proof.
  intros HI Hw Hdel Hbc Hcf Hlf Hheads. unfold Append.
  apply keeps_bind; [ apply Appendable_keeps; exact HI | ].
  destruct HI as [HI _].
  intros [e|]; [ apply keeps_ret | ]. cbv zeta.
  apply keeps_bind; [ apply keeps_gets | intros db ].
  destruct (batchWrite _ _); [ apply keeps_ret | ].
  apply keeps_bind; [ apply keeps_modify; intros ?; apply Hw | intros _ ].
  apply keeps_bind; [ apply keeps_gets | intros b ].
  apply keeps_bind; [ apply keeps_modify; intros ?; apply Hbc | intros _ ].
  destruct (snd (fst (bcAppend block b))).
  { apply keeps_bind; [ apply keeps_modify; intros ?; apply Hdel | intros _; apply keeps_ret ]. }
  apply keeps_bind; [ apply keeps_modify; intros ?; apply Hcf | intros _ ].
  apply keeps_bind.
  { destruct (Nat.ltb _ _); [ apply keeps_modify; intros ?; apply Hlf | apply keeps_ret ]. }
  intros _.
  apply keeps_bind.
  { apply evictOldest_keeps; auto. }
  intros [e|]; [ apply keeps_ret | ].
  apply keeps_bind; [ apply registerHead_keeps; exact Hheads | intros _; apply keeps_ret ].
Qed.

(** X1.  A block turned down by the consensus check, by the body chain's
    check or by the batch write makes [Append] return that very error and
    leave the chain as the consensus check left it: nothing is written,
    and at most the caches differ from those before the call. *)
Theorem Append_rejected_unchanged (fuel : nat) (block : Block) (s s0 : HC) (e : string) :
  VerifyHeader (blockHeader block) s = Ret (Some e) s0 \/
  (VerifyHeader (blockHeader block) s = Ret None s0 /\ bcAppendable (bc s) block = Some e) \/
  (VerifyHeader (blockHeader block) s = Ret None s0 /\ bcAppendable (bc s) block = None /\
   batchWrite (headerDb s) (blockHeader block) = Some e) ->
  Append fuel block s = Ret (Some e) s0 /\ sameButCaches s s0.
Proof.
  intros Hcase.
  assert (Hsame : sameButCaches s s0).
  { apply (VerifyHeader_frame (blockHeader block)).
    destruct Hcase as [Hv | [(Hv & _) | (Hv & _)]]; rewrite Hv; reflexivity. }
  split; [ | exact Hsame ].
  destruct Hsame as (_ & Hbc & _ & _ & Hdb & _).
  rewrite <- Hbc, <- Hdb in Hcase.
  unfold Append, Appendable. cbv [bind gets ret].
  destruct Hcase as [Hv | [(Hv & Ha) | (Hv & Ha & Hw)]].
  - rewrite Hv. reflexivity.
  - rewrite Hv, Ha. reflexivity.
  - rewrite Hv, Ha, Hw. reflexivity.
Qed.

(** X2.  Whatever [Append] does, returning or panicking, with or without
    eviction, it selects nothing: the canonical mapping, the current head
    and its hash, the persisted head-block hash and heads hashes, the
    total difficulties, the genesis header and the configured genesis
    hashes are those of before. *)
Theorem Append_selects_nothing (fuel : nat) (block : Block) (s s' : HC) :
  finalState (Append fuel block s) = Some s' ->
  dbCanonical (headerDb s') = dbCanonical (headerDb s) /\
  currentHeader s' = currentHeader s /\
  currentHeaderHash s' = currentHeaderHash s /\
  dbHeadBlockHash (headerDb s') = dbHeadBlockHash (headerDb s) /\
  dbHeadsHashes (headerDb s') = dbHeadsHashes (headerDb s) /\
  dbTd (headerDb s') = dbTd (headerDb s) /\
  genesisHeader s' = genesisHeader s /\
  genesisHashes s' = genesisHashes s.
Proof.
  intros Hfin.
  refine (keeps_final
    (fun x : HC =>
       dbCanonical (headerDb x) = dbCanonical (headerDb s) /\
       currentHeader x = currentHeader s /\
       currentHeaderHash x = currentHeaderHash s /\
       dbHeadBlockHash (headerDb x) = dbHeadBlockHash (headerDb s) /\
       dbHeadsHashes (headerDb x) = dbHeadsHashes (headerDb s) /\
       dbTd (headerDb x) = dbTd (headerDb s) /\
       genesisHeader x = genesisHeader s /\
       genesisHashes x = genesisHashes s)
    (Append fuel block) s s' _ _ Hfin).
  - apply Append_keeps; try (intros; assumption).
    apply cacheStable_viewStable.
    split; [ | split ]; intros s0 c HI; exact HI.
  - repeat split.
Qed.

End AppenderFrame.

Section AppenderRoundTrip.
Context `{Env} {view : ChainView}.

Local Abbreviation HC := (HeaderChain BlockChain).

Lemma lru_Contains_false {V} (k : Hash) (c : lru.Cache V) :
  lru.Contains k c = false -> lru.find k (lru.items c) = None.
Proof. unfold lru.Contains. destruct (lru.find k (lru.items c)); [ discriminate | reflexivity ]. Qed.

Lemma registerHead_sets_heads header (s s' : HC) :
  finalState (registerHead header s) = Some s' -> exists l, s' = set_heads l s.
Proof.
  unfold registerHead, sortHeads. cbv [bind modify gets ret].
  cbn [heads set_heads].
  destruct (snd _); intros [= <-]; eexists; reflexivity.
Qed.

Lemma afterBody_caches block (s : HC) :
  headerCache (afterBody block s) = headerCache s /\
  numberCache (afterBody block s) = numberCache s /\
  currentHeader (afterBody block s) = currentHeader s.
Proof. unfold afterBody. cbv zeta. destruct (Nat.ltb _ _); repeat split. Qed.

(** Below capacity the garbage collection does nothing: [Append] is the
    registration run on [afterBody]. *)
Lemma Append_below_capacity fuel block (s s0 : HC) :
  appended block s s0 ->
  length (heads s) <> maxHeadsQueueLimit ->
  Append fuel block s = (registerHead (blockHeader block) ;;; ret None) (afterBody block s0).
Proof.
  intros Happ Hlen. rewrite (Append_appended fuel block s s0 Happ).
  destruct (appended_frame block s s0 Happ) as (_ & _ & _ & _ & _ & _ & _ & _ & Hh0).
  unfold evictOldest. cbv [bind gets]. rewrite afterBody_heads, Hh0.
  apply Nat.eqb_neq in Hlen. rewrite Hlen. reflexivity.
Qed.

Lemma Append_below_capacity_final fuel block (s s0 s1 : HC) :
  appended block s s0 ->
  length (heads s) <> maxHeadsQueueLimit ->
  finalState (Append fuel block s) = Some s1 ->
  exists l, s1 = set_heads l (afterBody block s0).
Proof.
  intros Happ Hlen. rewrite (Append_below_capacity fuel block s s0 Happ Hlen).
  unfold bind at 1.
  destruct (registerHead (blockHeader block) (afterBody block s0)) as [u s2|s2|] eqn:Hreg;
    simpl; intros [= <-];
    apply (registerHead_sets_heads (blockHeader block)); rewrite Hreg; reflexivity.
Qed.

(** A hash unknown to both caches is looked up in the store, through the
    number recorded under the hash. *)
Lemma GetHeaderByHash_uncached (s : HC) (x : Header) (hash n : N) :
  lru.Contains hash (numberCache s) = false ->
  lru.Contains hash (headerCache s) = false ->
  rawdb.ReadHeaderNumber (headerDb s) hash = Some n ->
  rawdb.ReadHeader (headerDb s) hash n = Some x ->
  exists s', GetHeaderByHash hash s = Ret (Some x) s' /\ sameButCaches s s'.
Proof.
  intros Hn Hh Hnum Hrec.
  apply lru_Contains_false in Hn. apply lru_Contains_false in Hh.
  unfold GetHeaderByHash, GetBlockNumber, GetHeader, lru.Get.
  cbv [bind gets modify ret]. rewrite Hn, Hnum.
  cbn [headerCache set_numberCache headerDb]. rewrite Hh.
  cbn [set_numberCache headerDb]. rewrite Hrec.
  eexists. split; [ reflexivity | ]. repeat split.
Qed.

(** X3.  Round trip of the appender: below capacity, a block that passes
    the checks and whose hash neither cache knows once the header is
    verified is found afterwards by [GetHeaderByHash], which returns the
    header of the block, and [HasHeader] answers true for its hash and
    number; this holds for the chain [Append] leaves behind even when the
    final sort panics on a nil registry entry. *)
Theorem Append_then_GetHeaderByHash (fuel : nat) (block : Block) (s s0 s1 : HC) :
  appended block s s0 ->
  length (heads s) <> maxHeadsQueueLimit ->
  lru.Contains (hHash (blockHeader block)) (numberCache s0) = false ->
  lru.Contains (hHash (blockHeader block)) (headerCache s0) = false ->
  finalState (Append fuel block s) = Some s1 ->
  (exists s2, GetHeaderByHash (hHash (blockHeader block)) s1 = Ret (Some (blockHeader block)) s2) /\
  HasHeader (hHash (blockHeader block)) (hNumber (blockHeader block)) s1 = Ret true s1.
Proof.
  intros Happ Hlen Hn Hh Hfin.
  destruct (Append_below_capacity_final fuel block s s0 s1 Happ Hlen Hfin) as [l ->].
  destruct (afterBody_caches block s0) as (Hhc & Hnc & _).
  assert (Hdb : headerDb (set_heads l (afterBody block s0))
                = rawdb.WriteHeader (blockHeader block) (headerDb s0))
    by apply afterBody_headerDb.
  split.
  - destruct (GetHeaderByHash_uncached (set_heads l (afterBody block s0)) (blockHeader block)
                (hHash (blockHeader block)) (hNumber (blockHeader block))) as (s2 & Hrun & _).
    + cbn [numberCache set_heads]. rewrite Hnc. exact Hn.
    + cbn [headerCache set_heads]. rewrite Hhc. exact Hh.
    + rewrite Hdb. unfold rawdb.ReadHeaderNumber, rawdb.WriteHeader. cbn [dbHeaderNumbers].
      apply lookup_insert_eq.
    + rewrite Hdb. unfold rawdb.ReadHeader, rawdb.WriteHeader. cbn [dbHeaders].
      apply lookup_insert_eq.
    + exists s2. exact Hrun.
  - unfold HasHeader. cbv [bind gets ret]. cbn [numberCache headerCache set_heads].
    rewrite Hnc, Hhc, Hn, Hh. cbn [orb]. rewrite Hdb.
    unfold rawdb.HasHeader, rawdb.WriteHeader. cbn [dbHeaders].
    rewrite lookup_insert_eq. rewrite bool_decide_eq_true_2 by eauto. reflexivity.
Qed.

(** The chain a fast-forward leaves behind. *)
Lemma SetCurrentHeader_extends fuel (head prev : Header) (s s' : HC) :
  currentHeader s = Some prev ->
  hHash prev = hParent head ->
  finalState (SetCurrentHeader fuel head s) = Some s' ->
  s' = set_headerDb (rawdb.WriteCanonicalHash (hHash head) (hNumber head)) (headStored head s).
Proof.
  intros Hcur Hpar. unfold SetCurrentHeader.
  rewrite (CurrentHeader_some prev) by exact Hcur. cbv zeta.
  rewrite !bind_modify. rewrite Hpar, N.eqb_refl, bind_modify.
  destruct (negb (QuaiNetworkContext =? ZONE)%nat).
  - unfold setSlice. destruct (hLocation head !! QuaiNetworkContext) as [b|]; simpl.
    + destruct (N.to_nat (subByte b 1) <? 3)%nat; simpl; intros [= <-]; reflexivity.
    + intros [= <-]. reflexivity.
  - simpl. intros [= <-]. reflexivity.
Qed.

(** X4.  Append, then select: a block appended below capacity on top of
    the current head and then made the head by [SetCurrentHeader] is what
    the chain answers by number and as current header, and its hash is the
    persisted head-block hash.  The header hash must not be the zero hash,
    which [GetHeaderByNumber] reads as an absent entry, and the header
    cache, which is read before the store, must hold no other header under
    that hash once the header is verified: it may hold none, or the header
    of the block. *)
Theorem Append_then_SetCurrentHeader (fuel : nat) (block : Block) (prev : Header)
    (s s0 s1 s2 : HC) :
  appended block s s0 ->
  length (heads s) <> maxHeadsQueueLimit ->
  currentHeader s = Some prev ->
  hHash prev = hParent (blockHeader block) ->
  hHash (blockHeader block) <> zeroHash ->
  (forall x, (hHash (blockHeader block), x) ∈ lru.items (headerCache s0) ->
     x = blockHeader block) ->
  finalState (Append fuel block s) = Some s1 ->
  finalState (SetCurrentHeader fuel (blockHeader block) s1) = Some s2 ->
  (exists s3, GetHeaderByNumber (hNumber (blockHeader block)) s2
              = Ret (Some (blockHeader block)) s3) /\
  GetCanonicalHash (hNumber (blockHeader block)) s2 = Ret (hHash (blockHeader block)) s2 /\
  CurrentHeader s2 = Ret (blockHeader block) s2 /\
  currentHeaderHash s2 = hHash (blockHeader block) /\
  rawdb.ReadHeadBlockHash (headerDb s2) = hHash (blockHeader block).
Proof.
  intros Happ Hlen Hcur Hpar Hnz Hh Hfin1 Hfin2.
  destruct (Append_below_capacity_final fuel block s s0 s1 Happ Hlen Hfin1) as [l ->].
  destruct (afterBody_caches block s0) as (Hhc & _ & Hc).
  destruct (appended_frame block s s0 Happ) as (_ & _ & _ & _ & _ & _ & Hc0 & _).
  apply (SetCurrentHeader_extends fuel (blockHeader block) prev) in Hfin2;
    [ | cbn [currentHeader set_heads]; rewrite Hc, Hc0; exact Hcur | exact Hpar ].
  subst s2.
  assert (Hcanon : rawdb.ReadCanonicalHash
            (headerDb (set_headerDb
               (rawdb.WriteCanonicalHash (hHash (blockHeader block)) (hNumber (blockHeader block)))
               (headStored (blockHeader block) (set_heads l (afterBody block s0)))))
            (hNumber (blockHeader block)) = hHash (blockHeader block)).
  { unfold rawdb.ReadCanonicalHash. cbn. rewrite lookup_insert_eq. reflexivity. }
  split; [ | split; [ | repeat split ] ].
  - unfold GetHeaderByNumber. rewrite bind_gets. cbv zeta. rewrite Hcanon.
    apply N.eqb_neq in Hnz. rewrite Hnz.
    unfold GetHeader. rewrite bind_gets.
    cbn [headerCache set_headerDb headStored set_currentHeaderHash set_currentHeader set_heads].
    rewrite Hhc.
    destruct (lru.Get (hHash (blockHeader block)) (headerCache s0)) as [[x|] c'] eqn:Hget.
    + rewrite bind_modify.
      assert (Hx : (hHash (blockHeader block), x) ∈ lru.items (headerCache s0)).
      { apply lru_Get_hit. rewrite Hget. reflexivity. }
      rewrite (Hh x Hx). eexists. reflexivity.
    + rewrite bind_gets.
      cbn [headerDb set_headerDb headStored set_currentHeaderHash set_currentHeader set_heads].
      rewrite afterBody_headerDb.
      unfold rawdb.ReadHeader. cbn. rewrite lookup_insert_eq.
      rewrite bind_modify. eexists. reflexivity.
  - unfold GetCanonicalHash. rewrite bind_gets. rewrite Hcanon. reflexivity.
Qed.

End AppenderRoundTrip.

(** ** The chain selector: what every call does *)

Section SelectorMore.
Context `{Env}.

Local Abbreviation HC := (HeaderChain BlockChain).

Lemma holds_True {A} (r : result HC A) : holds r (fun _ _ => True) (fun _ => True).
Proof. destruct r; exact Logic.I. Qed.

(** A bind whose first computation has nothing to tell. *)
Ltac pass_bind :=
  eapply (holds_bind _ _ _ (fun _ _ => True) _ _ (fun _ => True));
  [ apply holds_True | auto | intros ? ? _ ].

Lemma setSlice_length l x (s : HC) :
  holds (setSlice l x s) (fun r _ => length r = length l) (fun _ => True).
Proof.
  unfold setSlice. destruct (hLocation x !! QuaiNetworkContext); [ | exact Logic.I ].
  destruct (Nat.ltb _ _); [ | exact Logic.I ].
  simpl. apply length_insert.
Qed.

Lemma reorgLoop_length fuel :
  forall c prev new stack slices (s : HC),
    holds (reorgLoop fuel c prev new stack slices s)
      (fun r _ => length (snd r) = length slices) (fun _ => True).
Proof.
  induction fuel as [|fuel IH]; intros c prev new stack slices s; [ exact Logic.I | ].
  cbn [reorgLoop].
  pass_bind. pass_bind.
  destruct (N.eqb _ _).
  { pass_bind. reflexivity. }
  pass_bind. pass_bind. pass_bind. pass_bind. pass_bind. pass_bind.
  destruct (N.eqb _ _).
  { pass_bind. reflexivity. }
  cbv zeta. pass_bind. pass_bind. pass_bind. pass_bind. pass_bind.
  destruct (N.eqb _ _); [ reflexivity | ].
  match goal with |- holds (match ?p with _ => _ end _) _ _ => destruct p as [pv|] end;
    [ | reflexivity ].
  eapply holds_bind with (Q := fun r _ => length r = length slices) (E' := fun _ => True).
  - destruct (negb _); [ apply setSlice_length | reflexivity ].
  - auto.
  - intros l st Hl. simpl in Hl. rewrite <- Hl. apply IH.
Qed.

Lemma replay_length :
  forall stack slices (s : HC),
    holds (replay stack slices s) (fun r _ => length r = length slices) (fun _ => True).
Proof.
  induction stack as [|x rest IH]; intros slices s; [ reflexivity | ].
  cbn [replay]. pass_bind. pass_bind. pass_bind.
  eapply holds_bind with (Q := fun r _ => length r = length slices) (E' := fun _ => True).
  - destruct (negb _); [ | reflexivity ].
    destruct x as [hx|]; [ | exact Logic.I ].
    destruct (negb _); [ apply setSlice_length | reflexivity ].
  - auto.
  - intros l st Hl. simpl in Hl. rewrite <- Hl. apply IH.
Qed.

(** What the selector has written once the head is stored stays written
    to the end of the call. *)
Lemma SetCurrentHeader_stores_head fuel (head prev : Header) (s : HC) :
  currentHeader s = Some prev ->
  holds (SetCurrentHeader fuel head s)
    (fun _ s' =>
       currentHeader s' = Some head /\ currentHeaderHash s' = hHash head /\
       dbHeadBlockHash (headerDb s') = hHash head /\
       genesisHeader s' = genesisHeader s /\ heads s' = heads s)
    (fun s' =>
       currentHeader s' = Some head /\ currentHeaderHash s' = hHash head /\
       dbHeadBlockHash (headerDb s') = hHash head /\
       genesisHeader s' = genesisHeader s /\ heads s' = heads s).
Proof.
  intros Hcur. unfold SetCurrentHeader.
  rewrite (CurrentHeader_some prev) by exact Hcur. cbv zeta.
  rewrite !bind_modify.
  set (I := fun s' : HC =>
       currentHeader s' = Some head /\ currentHeaderHash s' = hHash head /\
       dbHeadBlockHash (headerDb s') = hHash head /\
       genesisHeader s' = genesisHeader s /\ heads s' = heads s).
  assert (HI : readStable I).
  { apply cacheStable_readStable. split; [ | split ]; intros s0 c H0; exact H0. }
  match goal with |- holds (?m ?s1) _ _ => cut (keeps I m) end.
  { intros Hk. apply Hk. repeat split. }
  destruct (N.eqb _ _).
  - apply keeps_bind; [ apply keeps_modify; intros s0 H0; exact H0 | intros _ ].
    apply keeps_bind; [ | intros l; apply keeps_ret ].
    destruct (negb _); [ apply setSlice_keeps | apply keeps_ret ].
  - apply keeps_bind; [ apply findCommonHeader_keeps; exact HI | intros c ].
    apply keeps_bind.
    { apply reorgLoop_keeps; [ exact HI | intros s0 n H0; exact H0 ]. }
    intros r.
    apply keeps_bind; [ | intros l; apply keeps_ret ].
    apply replay_keeps. intros s0 hash n H0. exact H0.
Qed.

Lemma SetCurrentHeader_result fuel (head : Header) (s : HC) :
  holds (SetCurrentHeader fuel head s)
    (fun r _ => snd r = None /\ length (fst r) = 3%nat) (fun _ => True).
Proof.
  unfold SetCurrentHeader. pass_bind. cbv zeta. pass_bind. pass_bind. pass_bind.
  destruct (N.eqb _ _).
  - pass_bind.
    eapply holds_bind with (Q := fun r _ => length r = 3%nat) (E' := fun _ => True).
    + destruct (negb _); [ apply (setSlice_length (replicate 3 None)) | reflexivity ].
    + auto.
    + intros l st Hl. split; [ reflexivity | exact Hl ].
  - pass_bind.
    eapply holds_bind with (Q := fun r _ => length (snd r) = 3%nat) (E' := fun _ => True).
    + apply (reorgLoop_length fuel _ _ _ _ (replicate 3 None)).
    + auto.
    + intros r st Hr.
      eapply holds_bind with (Q := fun l _ => length l = 3%nat) (E' := fun _ => True).
      * rewrite <- Hr. apply replay_length.
      * auto.
      * intros l st2 Hl. split; [ reflexivity | exact Hl ].
Qed.

(** X5.  Every call of [SetCurrentHeader], fast-forward or reorg,
    returning or panicking half-way: without a current header the call
    panics at once and writes nothing; with one, the chain it leaves has
    the new head as current header, its hash as current hash and as
    persisted head-block hash, and the registry and the genesis header
    untouched; a call that returns gives three slots and no error. *)
Theorem SetCurrentHeader_always_stores_head (fuel : nat) (head : Header) (s : HC) :
  (currentHeader s = None -> SetCurrentHeader fuel head s = Panic s) /\
  (forall s', is_Some (currentHeader s) ->
     finalState (SetCurrentHeader fuel head s) = Some s' ->
     currentHeader s' = Some head /\ currentHeaderHash s' = hHash head /\
     rawdb.ReadHeadBlockHash (headerDb s') = hHash head /\
     heads s' = heads s /\ genesisHeader s' = genesisHeader s) /\
  (forall r, returned (SetCurrentHeader fuel head s) = Some r ->
     snd r = None /\ length (fst r) = 3%nat).
Proof.
  split; [ | split ].
  - intros Hnone. unfold SetCurrentHeader, CurrentHeader. cbv [bind gets].
    rewrite Hnone. reflexivity.
  - intros s' [prev Hcur] Hfin.
    pose proof (SetCurrentHeader_stores_head fuel head prev s Hcur) as Hst.
    destruct (SetCurrentHeader fuel head s) as [r s1|s1|]; simpl in *;
      try discriminate; injection Hfin as <-;
      destruct Hst as (H1 & H2 & H3 & H4 & H5); repeat split; assumption.
  - intros r Hret. pose proof (SetCurrentHeader_result fuel head s) as Hres.
    destruct (SetCurrentHeader fuel head s) as [r1 s1|s1|]; simpl in *; try discriminate.
    injection Hret as <-. exact Hres.
Qed.

(** X6.  The slots returned by a fast-forward.  In the zone context all
    three slots are nil.  In another context the slot of the head's
    location byte for that context, less one, holds the head, provided the
    byte is 1, 2 or 3; with a byte of 0 (the index wraps to 255), a byte
    above 3 or a location without that byte the call panics, after the
    head has been stored and its canonical entry written. *)
Theorem SetCurrentHeader_fast_forward_slots (fuel : nat) (head prev : Header) (s : HC) :
  currentHeader s = Some prev ->
  hHash prev = hParent head ->
  (QuaiNetworkContext = ZONE ->
   returned (SetCurrentHeader fuel head s) = Some ([None; None; None], None)) /\
  (forall b, QuaiNetworkContext <> ZONE ->
     hLocation head !! QuaiNetworkContext = Some b -> 1 <= b <= 3 ->
     returned (SetCurrentHeader fuel head s)
     = Some (<[N.to_nat (b - 1) := Some head]> [None; None; None], None)) /\
  (QuaiNetworkContext <> ZONE ->
   (forall b, hLocation head !! QuaiNetworkContext = Some b -> b < 256 /\ (b = 0 \/ 4 <= b)) ->
   exists s',
     SetCurrentHeader fuel head s = Panic s' /\
     currentHeader s' = Some head /\
     dbCanonical (headerDb s') !! hNumber head = Some (hHash head)).
Proof.
  intros Hcur Hpar. unfold SetCurrentHeader.
  rewrite (CurrentHeader_some prev) by exact Hcur. cbv zeta.
  rewrite !bind_modify. rewrite Hpar, N.eqb_refl, bind_modify.
  split; [ | split ].
  - intros Hz. apply Nat.eqb_eq in Hz. rewrite Hz. reflexivity.
  - intros b Hz Hb Hrange. apply Nat.eqb_neq in Hz. rewrite Hz. cbn [negb].
    unfold setSlice. rewrite Hb.
    assert (Hsub : subByte b 1 = b - 1).
    { unfold subByte. rewrite (N.mod_small b 256) by lia.
      rewrite (N.mod_small 1 256) by lia.
      replace (b + 256 - 1) with (b - 1 + 1 * 256) by lia.
      rewrite N.Div0.mod_add. apply N.mod_small. lia. }
    rewrite Hsub.
    assert (Hlt : (N.to_nat (b - 1) <? length (replicate 3 (@None Header)))%nat = true).
    { apply Nat.ltb_lt. simpl. lia. }
    rewrite Hlt. reflexivity.
  - intros Hz Hbad. apply Nat.eqb_neq in Hz. rewrite Hz. cbn [negb].
    unfold setSlice. destruct (hLocation head !! QuaiNetworkContext) as [b|] eqn:Hb.
    + destruct (Hbad b eq_refl) as [Hlt Hcase].
      assert (Hge : (N.to_nat (subByte b 1) <? length (replicate 3 (@None Header)))%nat = false).
      { apply Nat.ltb_ge. simpl. unfold subByte.
        rewrite (N.mod_small b 256) by lia. rewrite (N.mod_small 1 256) by lia.
        destruct Hcase as [-> | Hfour].
        - vm_compute. lia.
        - replace (b + 256 - 1) with (b - 1 + 1 * 256) by lia.
          rewrite N.Div0.mod_add. rewrite N.mod_small by lia. lia. }
      rewrite Hge. eexists. split; [ reflexivity | ].
      split; [ reflexivity | ]. cbn. apply lookup_insert_eq.
    + eexists. split; [ reflexivity | ].
      split; [ reflexivity | ]. cbn. apply lookup_insert_eq.
Qed.

(** X7.  [empty] after a selection: once [SetCurrentHeader] has run on a
    chain with a genesis header, [empty] answers whether the hash of the
    selected head is the hash of the genesis header, whatever the
    canonical mapping and the store hold. *)
Theorem empty_after_SetCurrentHeader (fuel : nat) (head g : Header) (s s' : HC) :
  genesisHeader s = Some g ->
  is_Some (currentHeader s) ->
  finalState (SetCurrentHeader fuel head s) = Some s' ->
  empty s' = Ret (bool_decide (hHash head = hHash g)) s'.
Proof.
  intros Hg [prev Hcur] Hfin.
  pose proof (SetCurrentHeader_stores_head fuel head prev s Hcur) as Hst.
  assert (Hs' : dbHeadBlockHash (headerDb s') = hHash head /\ genesisHeader s' = Some g).
  { destruct (SetCurrentHeader fuel head s) as [r s1|s1|]; simpl in *;
      try discriminate; injection Hfin as <-;
      destruct Hst as (_ & _ & H3 & H4 & _); rewrite <- Hg; split; assumption. }
  destruct Hs' as [Hhead Hgen].
  unfold empty. cbv [bind gets]. rewrite Hgen. cbn [Hash_]. unfold ret.
  unfold rawdb.ReadHeadBlockHash. rewrite Hhead.
  destruct (N.eqb_spec (hHash head) (hHash g)) as [Heq|Hne].
  - rewrite bool_decide_eq_true_2 by exact Heq. reflexivity.
  - rewrite bool_decide_eq_false_2 by exact Hne. reflexivity.
Qed.

End SelectorMore.

(** ** Lookups: existence, the header cache and hash listings *)

Section LookupsMore.
Context `{Env} {rt : Runtime}.

Local Abbreviation HC := (HeaderChain BlockChain).

Lemma GetHeader_sameButCaches hash n (s0 s s' : HC) r :
  sameButCaches s0 s -> GetHeader hash n s = Ret r s' -> sameButCaches s0 s'.
Proof.
  intros Hs Hrun.
  pose proof (proj1 (cacheStable_readStable _ (sameButCaches_stable s0)) hash n s Hs) as Hk.
  rewrite Hrun in Hk. exact Hk.
Qed.

(** X8.  [HasHeader] and [GetHeader] agree in one direction only: when
    [HasHeader] answers false, [GetHeader] on the same hash and number
    returns nil and touches nothing, so a header [GetHeader] finds is
    always reported as present; [HasHeader] itself never changes the
    chain. *)
Theorem HasHeader_false_GetHeader_nil (hash : Hash) (number : N) (s : HC) :
  (exists b, HasHeader hash number s = Ret b s) /\
  (HasHeader hash number s = Ret false s -> GetHeader hash number s = Ret None s) /\
  (forall h s', GetHeader hash number s = Ret (Some h) s' ->
     HasHeader hash number s = Ret true s).
Proof.
  assert (Hcases :
    (HasHeader hash number s = Ret true s /\
     (lru.Contains hash (numberCache s) = true \/ lru.Contains hash (headerCache s) = true \/
      is_Some (dbHeaders (headerDb s) !! (hash, number)))) \/
    (HasHeader hash number s = Ret false s /\
     lru.find hash (lru.items (headerCache s)) = None /\
     dbHeaders (headerDb s) !! (hash, number) = None)).
  { unfold HasHeader. cbv [bind gets ret].
    destruct (lru.Contains hash (numberCache s)) eqn:Hn; [ left; auto | ].
    destruct (lru.Contains hash (headerCache s)) eqn:Hh; [ left; auto | ].
    cbn [orb]. unfold rawdb.HasHeader.
    destruct (dbHeaders (headerDb s) !! (hash, number)) as [x|] eqn:Hx.
    - left. rewrite bool_decide_eq_true_2 by eauto. split; [ reflexivity | eauto ].
    - right. rewrite bool_decide_eq_false_2 by (intros [? ?]; discriminate).
      split; [ reflexivity | ]. split; [ | reflexivity ].
      unfold lru.Contains in Hh.
      destruct (lru.find hash (lru.items (headerCache s))); [ discriminate | reflexivity ]. }
  assert (Hnil : lru.find hash (lru.items (headerCache s)) = None ->
                 dbHeaders (headerDb s) !! (hash, number) = None ->
                 GetHeader hash number s = Ret None s).
  { intros Hc Hx. unfold GetHeader, lru.Get. cbv [bind gets ret].
    rewrite Hc. unfold rawdb.ReadHeader. rewrite Hx. reflexivity. }
  split; [ | split ].
  - destruct Hcases as [[Hrun _]|[Hrun _]]; eauto.
  - intros Hfalse. destruct Hcases as [[Hrun _]|(_ & Hc & Hx)]; [ congruence | ].
    apply Hnil; assumption.
  - intros h s' Hget. destruct Hcases as [[Hrun _]|(_ & Hc & Hx)]; [ exact Hrun | ].
    rewrite (Hnil Hc Hx) in Hget. discriminate.
Qed.

Lemma lru_Add_find {V} (k : Hash) (v : V) (c : lru.Cache V) :
  (1 <= lru.size c)%nat -> lru.find k (lru.items (lru.Add k v c)) = Some v.
Proof.
  intros Hsize. unfold lru.Add.
  destruct (lru.find k (lru.items c)).
  - cbn [lru.items lru.find]. rewrite N.eqb_refl. reflexivity.
  - cbv zeta. cbn [lru.items].
    destruct (Nat.ltb_spec (lru.size c) (length ((k, v) :: lru.items c))) as [Hlt|Hge].
    + destruct (lru.items c) as [|e l] eqn:Hitems.
      * simpl in Hlt. lia.
      * change (removelast ((k, v) :: e :: l)) with ((k, v) :: removelast (e :: l)).
        cbn [lru.find]. rewrite N.eqb_refl. reflexivity.
    + cbn [lru.find]. rewrite N.eqb_refl. reflexivity.
Qed.

(** X9.  The header cache is never invalidated: once [GetHeader] has
    found a header under a hash (the cache holding at least one entry, as
    every cache built by [lru.New] does), every later [GetHeader] on that
    hash returns the same header, whatever number is asked for and
    whatever has happened to the store in between, a deletion of the
    record included. *)
Theorem GetHeader_serves_stale (hash : Hash) (number : N) (h : Header) (s s1 : HC) :
  (1 <= lru.size (headerCache s))%nat ->
  GetHeader hash number s = Ret (Some h) s1 ->
  forall (f : Database -> Database) (number' : N),
    exists s2, GetHeader hash number' (set_headerDb f s1) = Ret (Some h) s2.
Proof.
  intros Hsize Hget f number'.
  assert (Hfind : lru.find hash (lru.items (headerCache s1)) = Some h).
  { revert Hget. unfold GetHeader, lru.Get. cbv [bind gets modify ret].
    destruct (lru.find hash (lru.items (headerCache s))) as [x|] eqn:Hc.
    - intros [= <- <-]. cbn. rewrite N.eqb_refl. reflexivity.
    - destruct (rawdb.ReadHeader (headerDb s) hash number) as [x|]; [ | discriminate ].
      intros [= <- <-]. cbn [headerCache set_headerCache].
      apply lru_Add_find. exact Hsize. }
  unfold GetHeader, lru.Get. cbv [bind gets modify ret].
  cbn [headerCache set_headerDb]. rewrite Hfind. eexists. reflexivity.
Qed.

(** Reading the parent of a stored header in a well-linked store: the
    answer of [GetHeader] is the record of the store, cache or not. *)
Lemma GetHeader_parent db0 (h : Header) (s0 s : HC) :
  storeFunctional db0 -> wellLinked db0 ->
  (exists n, dbHeaders db0 !! (hHash h, n) = Some h) ->
  dbHeaders (headerDb s) = dbHeaders db0 -> cacheAgrees s -> sameButCaches s0 s ->
  exists s',
    GetHeader (hParent h) (sub64 (hNumber h) 1) s
      = Ret (rawdb.ReadHeader db0 (hParent h) (sub64 (hNumber h) 1)) s' /\
    dbHeaders (headerDb s') = dbHeaders db0 /\ cacheAgrees s' /\ sameButCaches s0 s'.
Proof.
  intros HF HL [n Hst] Hdb Hcache Hsame.
  unfold GetHeader, lru.Get. cbv [bind gets modify ret].
  destruct (lru.find (hParent h) (lru.items (headerCache s))) as [x|] eqn:Hc.
  - destruct (Hcache (hParent h) x (lru_find_elem _ _ _ Hc)) as [m Hm].
    rewrite Hdb in Hm.
    destruct (HL _ _ Hst m x Hm) as [-> _].
    unfold rawdb.ReadHeader. rewrite Hm.
    eexists. split; [ reflexivity | ].
    split; [ exact Hdb | ]. split.
    + intros k y Hy. cbn [headerCache set_headerCache lru.items headerDb] in *.
      apply elem_of_cons in Hy as [[= -> ->]|Hy].
      * apply Hcache. apply lru_find_elem. exact Hc.
      * apply Hcache. eapply lru_remove_elem. exact Hy.
    + apply (proj1 (sameButCaches_stable s0)). exact Hsame.
  - unfold rawdb.ReadHeader. rewrite Hdb.
    destruct (dbHeaders db0 !! (hParent h, sub64 (hNumber h) 1)) as [x|] eqn:Hx.
    + eexists. split; [ reflexivity | ].
      split; [ exact Hdb | ]. split.
      * intros k y Hy. cbn [headerCache set_headerCache headerDb] in *.
        apply lru_Add_elem in Hy as [[= -> ->]|Hy].
        -- exists (sub64 (hNumber h) 1). rewrite Hdb. exact Hx.
        -- apply Hcache. exact Hy.
      * apply (proj1 (sameButCaches_stable s0)). exact Hsame.
    + exists s. split; [ reflexivity | ].
      split; [ exact Hdb | ]. split; [ exact Hcache | exact Hsame ].
Qed.

Lemma GetHeader_returns hash n (s : HC) : exists r s', GetHeader hash n s = Ret r s'.
Proof.
  unfold GetHeader. cbv [bind gets modify ret].
  destruct (lru.Get _ _) as [[x|] c]; [ eauto | ].
  destruct (rawdb.ReadHeader _ _ _); eauto.
Qed.

Lemma GetHeaderByHash_returns hash (s0 s : HC) :
  sameButCaches s0 s ->
  exists r s', GetHeaderByHash hash s = Ret r s' /\ sameButCaches s0 s'.
Proof.
  intros Hs.
  pose proof (GetHeaderByHash_keeps (sameButCaches s0) hash
                (cacheStable_readStable _ (sameButCaches_stable s0)) s Hs) as Hk.
  unfold GetHeaderByHash in *.
  destruct (GetBlockNumber_returns hash s) as (r & s1 & Hrun & _).
  unfold bind in *. rewrite Hrun in *. destruct r as [n|].
  - destruct (GetHeader_returns hash n s1) as (r & s' & Hget).
    rewrite Hget in *. eauto.
  - eauto.
Qed.

Lemma ancestry_head fuel db h : ancestry fuel db h = h :: tl (ancestry fuel db h).
Proof. destruct fuel; reflexivity. Qed.

Lemma GetBlockHashesFromHash_loop_bound (s0 : HC) :
  forall max h chain (s : HC),
    sameButCaches s0 s ->
    exists l s',
      GetBlockHashesFromHash_loop max h chain s = Ret (chain ++ l) s' /\
      (length l <= max)%nat /\ sameButCaches s0 s'.
Proof.
  induction max as [|max IH]; intros h chain s Hs.
  - exists [], s. rewrite app_nil_r.
    split; [ reflexivity | split; [ simpl; lia | exact Hs ] ].
  - cbn [GetBlockHashesFromHash_loop]. cbv zeta.
    destruct (GetHeader_returns (hParent h) (sub64 (hNumber h) 1) s) as (r & s1 & Hget).
    pose proof (GetHeader_sameButCaches _ _ s0 s s1 r Hs Hget) as Hs1.
    unfold bind at 1. rewrite Hget. destruct r as [p|].
    + destruct (N.eqb (hNumber p) 0).
      * exists [hParent h], s1.
        split; [ reflexivity | split; [ simpl; lia | exact Hs1 ] ].
      * destruct (IH p (chain ++ [hParent h]) s1 Hs1) as (l & s' & Hrun & Hlen & Hs').
        exists (hParent h :: l), s'. rewrite Hrun, <- app_assoc.
        split; [ reflexivity | split; [ simpl; lia | exact Hs' ] ].
    + exists [], s1. rewrite app_nil_r.
      split; [ reflexivity | split; [ simpl; lia | exact Hs1 ] ].
Qed.

Lemma GetBlockHashesFromHash_loop_ancestry db0 (s0 : HC) :
  storeFunctional db0 -> hashKeyed db0 -> wellLinked db0 ->
  forall max h chain (s : HC),
    (exists n, dbHeaders db0 !! (hHash h, n) = Some h) ->
    dbHeaders (headerDb s) = dbHeaders db0 -> cacheAgrees s -> sameButCaches s0 s ->
    exists s',
      GetBlockHashesFromHash_loop max h chain s
        = Ret (chain ++ map hHash (tl (ancestry max db0 h))) s' /\
      sameButCaches s0 s'.
Proof.
  intros HF HK HL.
  induction max as [|max IH]; intros h chain s Hst Hdb Hcache Hs.
  - exists s. simpl. rewrite app_nil_r. split; [ reflexivity | exact Hs ].
  - cbn [GetBlockHashesFromHash_loop]. cbv zeta.
    destruct (GetHeader_parent db0 h s0 s HF HL Hst Hdb Hcache Hs)
      as (s1 & Hget & Hdb1 & Hc1 & Hs1).
    unfold bind at 1. rewrite Hget. cbn [ancestry tl].
    destruct (rawdb.ReadHeader db0 (hParent h) (sub64 (hNumber h) 1)) as [p|] eqn:Hp.
    + unfold rawdb.ReadHeader in Hp.
      pose proof (HK _ _ _ Hp) as Hkey.
      destruct (N.eqb_spec (hNumber p) 0) as [Hzero|Hpos].
      * exists s1. split; [ | exact Hs1 ].
        assert (Hone : ancestry max db0 p = [p]).
        { destruct max as [|max']; [ reflexivity | ]. simpl.
          destruct (rawdb.ReadHeader db0 (hParent p) (sub64 (hNumber p) 1)) as [q|] eqn:Hq;
            [ | reflexivity ].
          unfold rawdb.ReadHeader in Hq.
          destruct (HL _ _ Hp _ _ Hq) as [_ Hlt]. lia. }
        rewrite Hone. simpl. rewrite Hkey. reflexivity.
      * destruct (IH p (chain ++ [hParent h]) s1) as (s' & Hrun & Hs'); try assumption.
        { exists (sub64 (hNumber h) 1). rewrite Hkey. exact Hp. }
        exists s'. split; [ | exact Hs' ].
        rewrite Hrun, <- app_assoc. rewrite (ancestry_head max db0 p). simpl.
        rewrite Hkey. reflexivity.
    + exists s1. simpl. rewrite app_nil_r. split; [ reflexivity | exact Hs1 ].
Qed.

(** X10.  [GetBlockHashesFromHash] returns the nil slice when the origin
    hash has no header, whatever [max] is.  With a header for the origin,
    a [max] whose [max] hashes of 32 bytes exceed what the runtime
    allocates makes the call panic once the origin has been looked up;
    within that bound the call returns, changes nothing but the caches
    and lists at most [max] hashes, and in a well-formed store (one
    header per hash, stored under its own hash, parents one number below,
    header cache within the store) the list is the hashes of the stored
    ancestors of the origin, nearest first, cut at [max] and ending with
    the header of number 0. *)
Theorem GetBlockHashesFromHash_spec (hash : Hash) (max : N) (s : HC) :
  (forall s', GetHeaderByHash hash s = Ret None s' ->
     GetBlockHashesFromHash hash max s = Ret None s') /\
  (maxAlloc < HashLength * max ->
   forall h s0, GetHeaderByHash hash s = Ret (Some h) s0 ->
     GetBlockHashesFromHash hash max s = Panic s0) /\
  (HashLength * max <= maxAlloc ->
   exists r s',
     GetBlockHashesFromHash hash max s = Ret r s' /\ sameButCaches s s' /\
     forall l, r = Some l -> (length l <= N.to_nat max)%nat) /\
  (HashLength * max <= maxAlloc ->
   storeFunctional (headerDb s) -> hashKeyed (headerDb s) -> wellLinked (headerDb s) ->
   cacheAgrees s ->
   forall h s0, GetHeaderByHash hash s = Ret (Some h) s0 ->
     exists s',
       GetBlockHashesFromHash hash max s
       = Ret (Some (map hHash (tl (ancestry (N.to_nat max) (headerDb s) h)))) s').
Proof.
  split; [ | split; [ | split ] ].
  - intros s' Hrun. unfold GetBlockHashesFromHash, bind. rewrite Hrun. reflexivity.
  - intros Hbig h s0 Hrun. unfold GetBlockHashesFromHash, bind. rewrite Hrun.
    apply N.ltb_lt in Hbig. rewrite Hbig. reflexivity.
  - intros Hfits. apply N.ltb_ge in Hfits. unfold GetBlockHashesFromHash.
    destruct (GetHeaderByHash_returns hash s s (sameButCaches_refl s)) as (r & s1 & Hrun & Hs1).
    unfold bind at 1. rewrite Hrun. destruct r as [h|].
    + destruct (GetBlockHashesFromHash_loop_bound s (N.to_nat max) h [] s1 Hs1)
        as (l & s' & Hloop & Hlen & Hs').
      rewrite Hfits. unfold bind. rewrite Hloop. exists (Some l), s'.
      split; [ reflexivity | ]. split; [ exact Hs' | ].
      intros l' [= <-]. exact Hlen.
    + exists None, s1. split; [ reflexivity | ]. split; [ exact Hs1 | discriminate ].
  - intros Hfits HF HK HL Hcache h s0 Hrun. apply N.ltb_ge in Hfits.
    assert (Hinv : trimInv (headerDb s) 0 s).
    { split; [ auto | ]. split; [ auto | exact Hcache ]. }
    destruct (GetHeaderByHash_found _ _ _ _ _ _ Hinv Hrun) as [k Hk].
    pose proof (GetHeaderByHash_keeps _ hash (trimInv_readStable (headerDb s) 0) s Hinv) as Hkeep.
    rewrite Hrun in Hkeep. simpl in Hkeep.
    destruct (GetHeaderByHash_returns hash s s (sameButCaches_refl s)) as (r & s1 & Hrun' & Hs1).
    rewrite Hrun in Hrun'. injection Hrun' as <- <-.
    assert (Hdb0 : headerDb s0 = headerDb s) by apply Hs1.
    destruct (GetBlockHashesFromHash_loop_ancestry (headerDb s) s HF HK HL (N.to_nat max) h [] s0)
      as (s' & Hloop & _).
    + exists k. rewrite (HK _ _ _ Hk). exact Hk.
    + rewrite Hdb0. reflexivity.
    + intros k' y Hy. rewrite Hdb0. apply Hkeep. exact Hy.
    + exact Hs1.
    + exists s'. unfold GetBlockHashesFromHash, bind. rewrite Hrun, Hfits, Hloop. reflexivity.
Qed.

Lemma GetAncestor_loop_shape (s0 : HC) (k : nat) :
  forall (hash : Hash) (number budget : N) (s : HC),
    N.of_nat k <= number -> number < two64 -> budget < two64 ->
    sameButCaches s0 s ->
    exists h' n' b' s',
      GetAncestor_loop k hash number budget s = Ret (h', n', b') s' /\
      b' <= budget /\
      ((h' = zeroHash /\ n' = 0) \/ n' = number - N.of_nat k) /\
      sameButCaches s0 s'.
Proof.
  induction k as [|k IH]; intros hash number budget s Hk Hn Hb Hs.
  - exists hash, number, budget, s. simpl.
    split; [ reflexivity | ]. split; [ lia | ]. split; [ right; lia | exact Hs ].
  - cbn [GetAncestor_loop]. rewrite bind_gets. cbv zeta.
    destruct (N.eqb (rawdb.ReadCanonicalHash (headerDb s) number) hash).
    + eexists _, _, _, s. split; [ reflexivity | ]. split; [ lia | ].
      split; [ right; apply sub64_small; lia | exact Hs ].
    + destruct (N.eqb_spec budget 0) as [Hzero|Hpos].
      * eexists _, _, _, s. split; [ reflexivity | ]. split; [ lia | ].
        split; [ left; split; reflexivity | exact Hs ].
      * assert (Hb' : sub64 budget 1 = budget - 1) by (apply sub64_small; lia).
        destruct (GetHeader_returns hash number s) as (r & s1 & Hget).
        pose proof (GetHeader_sameButCaches _ _ s0 s s1 r Hs Hget) as Hs1.
        unfold bind. rewrite Hget. destruct r as [h|].
        -- assert (Hn' : sub64 number 1 = number - 1) by (apply sub64_small; lia).
           rewrite Hb', Hn'.
           destruct (IH (hParent h) (number - 1) (budget - 1) s1)
             as (h' & n' & b' & s' & Hrun & Hle & Hshape & Hs'); try lia; try assumption.
           exists h', n', b', s'. split; [ exact Hrun | ]. split; [ lia | ].
           split; [ | exact Hs' ].
           destruct Hshape as [Hz | Hn2]; [ left; exact Hz | right; lia ].
        -- eexists _, _, _, s1. split; [ reflexivity | ]. split; [ lia | ].
           split; [ left; split; reflexivity | exact Hs1 ].
Qed.

(** X11.  The short cut of [GetAncestor]: asked for the ancestor at a
    distance of two or more from a position that is on the canonical
    chain, it answers with the canonical hash at the target number, read
    from the canonical mapping alone (the zero hash where the mapping has
    no entry), and neither touches the budget nor reads a header. *)
Theorem GetAncestor_canonical_shortcut (hash : Hash) (number ancestor budget : N) (s : HC) :
  2 <= ancestor -> ancestor <= number -> number < two64 ->
  rawdb.ReadCanonicalHash (headerDb s) number = hash ->
  GetAncestor hash number ancestor budget s
  = Ret (rawdb.ReadCanonicalHash (headerDb s) (number - ancestor), number - ancestor, budget) s.
Proof.
  intros H2 Hle Hn Hcanon. unfold GetAncestor.
  destruct (N.ltb_spec number ancestor) as [Hlt|_]; [ lia | ].
  destruct (N.eqb_spec ancestor 1) as [H1|_]; [ lia | ].
  destruct (N.to_nat ancestor) as [|k] eqn:Hk; [ lia | ].
  cbn [GetAncestor_loop]. rewrite bind_gets. cbv zeta.
  rewrite Hcanon, N.eqb_refl. rewrite <- Hk, N2Nat.id.
  rewrite sub64_small by lia. reflexivity.
Qed.

(** X12.  The shape of every answer of [GetAncestor] on 64-bit inputs:
    the call returns, changes nothing but the caches, never hands back
    more budget than it was given, and answers either the pair of the
    zero hash and number 0 or a hash at exactly [number - ancestor]. *)
Theorem GetAncestor_shape (hash : Hash) (number ancestor budget : N) (s : HC) :
  number < two64 -> budget < two64 ->
  exists h' n' b' s',
    GetAncestor hash number ancestor budget s = Ret (h', n', b') s' /\
    b' <= budget /\
    ((h' = zeroHash /\ n' = 0) \/ (ancestor <= number /\ n' = number - ancestor)) /\
    sameButCaches s s'.
Proof.
  intros Hn Hb. unfold GetAncestor.
  destruct (N.ltb_spec number ancestor) as [Hlt|Hle].
  { exists zeroHash, 0, budget, s. split; [ reflexivity | ]. split; [ lia | ].
    split; [ left; split; reflexivity | apply sameButCaches_refl ]. }
  destruct (N.eqb_spec ancestor 1) as [H1|Hne].
  { destruct (GetHeader_returns hash number s) as (r & s1 & Hget).
    pose proof (GetHeader_sameButCaches _ _ s s s1 r (sameButCaches_refl s) Hget) as Hs1.
    unfold bind. rewrite Hget. destruct r as [h|].
    - eexists _, _, _, s1. split; [ reflexivity | ]. split; [ lia | ].
      split; [ right; split; [ exact Hle | subst ancestor; apply sub64_small; lia ] | exact Hs1 ].
    - eexists _, _, _, s1. split; [ reflexivity | ]. split; [ lia | ].
      split; [ left; split; reflexivity | exact Hs1 ]. }
  destruct (GetAncestor_loop_shape s (N.to_nat ancestor) hash number budget s)
    as (h' & n' & b' & s' & Hrun & Hbud & Hshape & Hs'); try lia.
  { apply sameButCaches_refl. }
  exists h', n', b', s'. split; [ exact Hrun | ]. split; [ exact Hbud | ].
  split; [ | exact Hs' ].
  destruct Hshape as [Hz|Hn']; [ left; exact Hz | right; split; [ exact Hle | lia ] ].
Qed.

End LookupsMore.

(** ** Trimming, resetting and the common header *)

Section TrimMore.
Context `{Env}.

Local Abbreviation HC := (HeaderChain BlockChain).

(** The record [trim] deletes first stays deleted to the end of the call. *)
Lemma trim_deletes_start fuel (c x : Header) (s s' : HC) :
  hHash x <> hHash c ->
  finalState (trim fuel (Some c) (Some x) s) = Some s' ->
  dbHeaders (headerDb s') !! (hHash x, hNumber x) = None /\
  dbHeaderNumbers (headerDb s') !! hHash x = None.
Proof.
  intros Hne. destruct fuel as [|fuel]; [ discriminate | ].
  cbn [trim Hash_ Number64]. rewrite !bind_ret_l.
  apply N.eqb_neq in Hne. rewrite Hne.
  repeat (rewrite bind_ret_l || rewrite bind_modify).
  set (I := fun t : HC =>
    dbHeaders (headerDb t) !! (hHash x, hNumber x) = None /\
    dbHeaderNumbers (headerDb t) !! hHash x = None).
  assert (HI : readStable I).
  { apply cacheStable_readStable. split; [ | split ]; intros t cc Ht; exact Ht. }
  match goal with |- finalState (?m ?s1) = _ -> _ => intros Hfin;
    apply (keeps_final I m s1 s'); [ | | exact Hfin ] end.
  - apply keeps_bind; [ apply (proj1 HI) | intros [p|] ]; [ | apply keeps_ret ].
    apply trim_keeps; [ exact HI | | intros t y Ht; exact Ht ].
    intros t hash n _ [H1 H2]. split; cbn.
    + apply lookup_delete_None. right. exact H1.
    + apply lookup_delete_None. right. exact H2.
  - split; cbn; apply lookup_delete_None; left; reflexivity.
Qed.

Lemma trim_branch_returns db0 (c : Header) fuel :
  storeFunctional db0 ->
  forall x (s : HC),
    descends db0 c x -> trimInv db0 (hNumber x) s ->
    (N.to_nat (hNumber x - hNumber c) < fuel)%nat ->
    exists s', trim fuel (Some c) (Some x) s = Ret None s' /\ trimInv db0 (hNumber c) s'.
Proof.
  intros HF. induction fuel as [|fuel IH]; intros x s Hd Hs Hfuel; [ lia | ].
  simpl. pose proof (descends_number _ _ _ Hd) as Hcx.
  rewrite !bind_ret_l.
  destruct (N.eqb_spec (hHash x) (hHash c)) as [Heq|Hne].
  - exists s. split; [ reflexivity | ]. apply (trimInv_le db0 (hNumber x)); assumption.
  - rewrite !bind_modify.
    inversion Hd as [Hc|y p Hread Hlt Hd' Hy]; subst; [ congruence | ].
    pose proof (descends_number _ _ _ Hd') as Hcp.
    pose proof (sub64_pred (hNumber x) ltac:(lia)) as Hpred.
    assert (Hs1 : trimInv db0 (hNumber x - 1)
              (set_bc (bcTrim x)
                 (set_headerDb (rawdb.DeleteHeader (hHash x) (hNumber x)) s))).
    { destruct Hs as (Hsub & Hlow & Hc). split; [ | split; [ | exact Hc ] ].
      - intros k y. simpl. intros Hk. apply lookup_delete_Some in Hk as [_ Hk].
        apply Hsub, Hk.
      - intros k n Hn. simpl. rewrite lookup_delete_ne by (intros [= _ Hx]; lia).
        apply Hlow. lia. }
    destruct (GetHeader_kept _ _ _ _ _ _ HF Hs1 Hpred Hread) as (s2 & Hget & Hs2).
    unfold bind at 1. rewrite Hget.
    apply IH; [ exact Hd' | | lia ].
    apply (trimInv_le db0 (hNumber x - 1)); [ lia | exact Hs2 ].
Qed.

(** X13.  [trim] along a stored branch: given a common header that lies
    on the stored branch of the start header (in a store with one header
    per hash and a header cache within the store), and fuel for one round
    more than the numbers between them, the call returns nil, adds no
    record, and has deleted the record of the start header and the number
    kept under its hash unless the start header has the hash of the common
    header. *)
Theorem trim_along_branch (fuel : nat) (c x : Header) (s : HC) :
  storeFunctional (headerDb s) -> cacheAgrees s ->
  descends (headerDb s) c x ->
  (N.to_nat (hNumber x - hNumber c) < fuel)%nat ->
  exists s',
    trim fuel (Some c) (Some x) s = Ret None s' /\
    (forall k y, dbHeaders (headerDb s') !! k = Some y -> dbHeaders (headerDb s) !! k = Some y) /\
    (hHash x <> hHash c ->
     rawdb.ReadHeader (headerDb s') (hHash x) (hNumber x) = None /\
     rawdb.ReadHeaderNumber (headerDb s') (hHash x) = None).
Proof.
  intros HF Hcache Hd Hfuel.
  assert (Hinv : trimInv (headerDb s) (hNumber x) s).
  { split; [ auto | ]. split; [ auto | exact Hcache ]. }
  destruct (trim_branch_returns (headerDb s) c fuel HF x s Hd Hinv Hfuel) as (s' & Hrun & Hs').
  exists s'. split; [ exact Hrun | ]. split; [ apply Hs' | ].
  intros Hne. apply (trim_deletes_start fuel c x s s' Hne). rewrite Hrun. reflexivity.
Qed.

Lemma trimAll_frame (I : HC -> Prop) fuel hs :
  readStable I ->
  (forall s hash n, I s -> I (set_headerDb (rawdb.DeleteHeader hash n) s)) ->
  (forall s x, I s -> I (set_bc (bcTrim x) s)) ->
  keeps I (trimAll fuel hs).
Proof.
  intros HI Hdel Hbc. induction hs as [|head rest IH]; simpl; [ apply keeps_ret | ].
  apply keeps_bind; [ apply keeps_gets | intros g ].
  apply keeps_bind; [ | intros _; exact IH ].
  apply trim_keeps; [ exact HI | intros s hash n _; apply Hdel | exact Hbc ].
Qed.

Lemma trimAll_deletes fuel (g : Header) :
  forall hs (s : HC),
    genesisHeader s = Some g ->
    holds (trimAll fuel hs s)
      (fun _ s' => forall h, Some h ∈ hs -> hHash h <> hHash g ->
         dbHeaders (headerDb s') !! (hHash h, hNumber h) = None)
      (fun _ => True).
Proof.
  induction hs as [|head rest IH]; intros s Hg.
  - simpl. intros h Hh. inversion Hh.
  - cbn [trimAll]. rewrite bind_gets. rewrite Hg.
    set (J := fun t : HC => genesisHeader t = Some g).
    assert (HJ : readStable J).
    { apply cacheStable_readStable. split; [ | split ]; intros t cc Ht; exact Ht. }
    eapply holds_bind with
      (Q := fun _ s1 => J s1 /\
              forall h, head = Some h -> hHash h <> hHash g ->
                dbHeaders (headerDb s1) !! (hHash h, hNumber h) = None)
      (E' := fun _ => True).
    + pose proof (trim_keeps J fuel (Some g) head HJ
                    ltac:(intros t hash n _ Ht; exact Ht)
                    ltac:(intros t y Ht; exact Ht) s Hg) as Hk.
      destruct (trim fuel (Some g) head s) as [e s1|s1|] eqn:Hrun; simpl in *;
        [ | exact Logic.I | exact Logic.I ].
      split; [ exact Hk | ]. intros h -> Hne.
      apply (trim_deletes_start fuel g h s s1 Hne). rewrite Hrun. reflexivity.
    + auto.
    + intros _ s1 [Hg1 Hhead].
      set (K := fun t : HC => forall h, head = Some h -> hHash h <> hHash g ->
                 dbHeaders (headerDb t) !! (hHash h, hNumber h) = None).
      assert (HK : readStable K).
      { apply cacheStable_readStable. split; [ | split ]; intros t cc Ht; exact Ht. }
      pose proof (trimAll_frame K fuel rest HK
                    ltac:(intros t hash n Ht h Hh Hne; cbn; apply lookup_delete_None;
                          right; exact (Ht h Hh Hne))
                    ltac:(intros t y Ht; exact Ht) s1 Hhead) as Hk.
      pose proof (IH s1 Hg1) as Hrest.
      destruct (trimAll fuel rest s1) as [u s2|s2|]; simpl in *;
        [ | exact Logic.I | exact Logic.I ].
      intros h Hh Hne. apply elem_of_cons in Hh as [Heq|Hh].
      * apply Hk; [ symmetry; exact Heq | exact Hne ].
      * apply Hrest; assumption.
Qed.

(** X14.  [Reset] empties nothing but the store: in every outcome the
    registry of heads, the current header and its hash and the persisted
    head-block hash are those of before, and no record is added; a call
    that returns gives no error and has deleted the record of every
    registered head whose hash is not that of the genesis header, so the
    registry is left pointing at deleted records. *)
Theorem Reset_keeps_registry (fuel : nat) (s s' : HC) :
  finalState (Reset fuel s) = Some s' ->
  (heads s' = heads s /\ currentHeader s' = currentHeader s /\
   currentHeaderHash s' = currentHeaderHash s /\
   rawdb.ReadHeadBlockHash (headerDb s') = rawdb.ReadHeadBlockHash (headerDb s) /\
   forall k y, dbHeaders (headerDb s') !! k = Some y -> dbHeaders (headerDb s) !! k = Some y) /\
  (forall e, returned (Reset fuel s) = Some e ->
     e = None /\
     forall g h, genesisHeader s = Some g -> Some h ∈ heads s -> hHash h <> hHash g ->
       rawdb.ReadHeader (headerDb s') (hHash h) (hNumber h) = None).
Proof.
  unfold Reset, ResetWithGenesisBlock. rewrite !bind_gets. intros Hfin.
  split.
  - set (I := fun t : HC =>
      heads t = heads s /\ currentHeader t = currentHeader s /\
      currentHeaderHash t = currentHeaderHash s /\
      rawdb.ReadHeadBlockHash (headerDb t) = rawdb.ReadHeadBlockHash (headerDb s) /\
      forall k y, dbHeaders (headerDb t) !! k = Some y -> dbHeaders (headerDb s) !! k = Some y).
    assert (HI : readStable I).
    { apply cacheStable_readStable. split; [ | split ]; intros t cc Ht; exact Ht. }
    refine (keeps_final I _ s s' _ _ Hfin).
    + apply keeps_bind; [ | intros _; apply keeps_ret ].
      apply trimAll_frame; [ exact HI | | intros t y Ht; exact Ht ].
      intros t hash n (H1 & H2 & H3 & H4 & H5). repeat split; try assumption.
      intros k y. cbn. intros Hk. apply lookup_delete_Some in Hk as [_ Hk]. apply H5, Hk.
    + repeat split. auto.
  - intros e Hret. unfold bind in Hfin, Hret.
    destruct (trimAll fuel (heads s) s) as [u s1|s1|] eqn:Hrun; simpl in *; try discriminate.
    injection Hfin as <-. injection Hret as <-. split; [ reflexivity | ].
    intros g h Hg Hh Hne.
    pose proof (trimAll_deletes fuel g (heads s) s Hg) as Hdel.
    rewrite Hrun in Hdel. exact (Hdel h Hh Hne).
Qed.

End TrimMore.

Section CommonHeaderMore.
Context `{Env}.

Local Abbreviation HC := (HeaderChain BlockChain).

Lemma findCommonHeader_returns db0 (s0 : HC) (g0 : Hash) :
  storeFunctional db0 -> hashKeyed db0 -> wellLinked db0 ->
  genesisHashes s0 !! QuaiNetworkContext = Some g0 ->
  forall fuel x (s : HC),
    (exists n, dbHeaders db0 !! (hHash x, n) = Some x) ->
    dbHeaders (headerDb s) = dbHeaders db0 -> cacheAgrees s -> sameButCaches s0 s ->
    (N.to_nat (hNumber x) + 2 <= fuel)%nat ->
    exists r s', findCommonHeader fuel (Some x) s = Ret r s' /\ sameButCaches s0 s'.
Proof.
  intros HF HK HL Hg0.
  induction fuel as [|fuel IH]; intros x s Hst Hdb Hcache Hs Hfuel; [ lia | ].
  cbn [findCommonHeader]. rewrite bind_gets. cbv zeta.
  destruct (N.eqb _ (hHash x)); [ apply GetHeaderByHash_returns; exact Hs | ].
  assert (HG : genesisHashes s = genesisHashes s0) by apply Hs.
  unfold GenesisHash. cbv [bind gets]. rewrite HG, Hg0. cbv [ret].
  destruct (N.eqb _ g0); [ apply GetHeaderByHash_returns; exact Hs | ].
  destruct (GetHeader_parent db0 x s0 s HF HL Hst Hdb Hcache Hs)
    as (s1 & Hget & Hdb1 & Hc1 & Hs1).
  rewrite Hget.
  destruct (rawdb.ReadHeader db0 (hParent x) (sub64 (hNumber x) 1)) as [p|] eqn:Hp.
  - unfold rawdb.ReadHeader in Hp. destruct Hst as [n Hx].
    destruct (HL _ _ Hx _ _ Hp) as [_ Hlt].
    apply IH; try assumption; [ | lia ].
    exists (sub64 (hNumber x) 1). rewrite (HK _ _ _ Hp). exact Hp.
  - destruct fuel as [|fuel']; [ lia | ]. exists None, s1. split; [ reflexivity | exact Hs1 ].
Qed.

(** X15.  [findCommonHeader] on a stored header of a well-formed store
    (one header per hash, stored under its own hash, parents one number
    below, header cache within the store) with a genesis hash configured
    for the operating context: the walk returns within two rounds more
    than the number of the header, changes nothing but the caches, and a
    header it returns lies on the stored branch of the header it was
    given or is stored under the configured genesis hash. *)
Theorem findCommonHeader_terminates_on_branch (fuel : nat) (x : Header) (g0 : Hash) (s : HC) :
  storeFunctional (headerDb s) -> hashKeyed (headerDb s) -> wellLinked (headerDb s) ->
  cacheAgrees s ->
  (exists n, dbHeaders (headerDb s) !! (hHash x, n) = Some x) ->
  genesisHashes s !! QuaiNetworkContext = Some g0 ->
  (N.to_nat (hNumber x) + 2 <= fuel)%nat ->
  exists r s',
    findCommonHeader fuel (Some x) s = Ret r s' /\ sameButCaches s s' /\
    forall c, r = Some c ->
      descends (headerDb s) c x \/ exists k, dbHeaders (headerDb s) !! (g0, k) = Some c.
Proof.
  intros HF HK HL Hcache Hst Hg0 Hfuel.
  destruct (findCommonHeader_returns (headerDb s) s g0 HF HK HL Hg0 fuel x s Hst eq_refl
              Hcache (sameButCaches_refl s) Hfuel) as (r & s' & Hrun & Hs').
  exists r, s'. split; [ exact Hrun | ]. split; [ exact Hs' | ].
  intros c ->.
  assert (Hinv : trimInv (headerDb s) 0 s).
  { split; [ auto | ]. split; [ auto | exact Hcache ]. }
  destruct (findCommonHeader_on_branch (headerDb s) 0 (genesisHashes s) fuel HF HK HL
              x s c s' Hst Hinv eq_refl Hrun) as [Hd|(g & k & Hg & Hk)].
  - left. exact Hd.
  - right. exists k. rewrite Hg0 in Hg. injection Hg as <-. exact Hk.
Qed.

End CommonHeaderMore.

(** ** Stopping and loading the last state *)

Lemma numbersRecorded_check db :
  recordedEntries db (map_to_list (dbHeaders db)) -> numbersRecorded db.
Proof.
  unfold recordedEntries. rewrite Forall_forall. intros Hall k n x Hx.
  apply elem_of_map_to_list in Hx. exact (Hall _ Hx).
Qed.

Section Persistence.
Context `{Env}.

Local Abbreviation HC := (HeaderChain BlockChain).

Lemma GetBlockNumber_finds (s : HC) (k n : N) :
  numberCacheAgrees s ->
  dbHeaderNumbers (headerDb s) !! k = Some n ->
  exists c,
    GetBlockNumber k s = Ret (Some n) (set_numberCache c s) /\
    numberCacheAgrees (set_numberCache c s).
Proof.
  intros Hnc Hn. unfold GetBlockNumber, lru.Get. cbv [bind gets modify ret].
  destruct (lru.find k (lru.items (numberCache s))) as [n'|] eqn:Hf.
  - pose proof (Hnc k n' (lru_find_elem _ _ _ Hf)) as Hn'.
    rewrite Hn in Hn'. injection Hn' as <-.
    eexists. split; [ reflexivity | ].
    intros k' m Hm. cbn [numberCache set_numberCache lru.items headerDb] in *.
    apply elem_of_cons in Hm as [[= -> ->]|Hm]; [ exact Hn | ].
    apply Hnc. eapply lru_remove_elem. exact Hm.
  - unfold rawdb.ReadHeaderNumber. rewrite Hn.
    eexists. split; [ reflexivity | ].
    intros k' m Hm. cbn [numberCache set_numberCache headerDb] in *.
    apply lru_Add_elem in Hm as [[= -> ->]|Hm]; [ exact Hn | apply Hnc; exact Hm ].
Qed.

Lemma GetHeader_finds (s : HC) (k n : N) (x : Header) :
  storeFunctional (headerDb s) -> cacheAgrees s ->
  dbHeaders (headerDb s) !! (k, n) = Some x ->
  exists c,
    GetHeader k n s = Ret (Some x) (set_headerCache c s) /\
    cacheAgrees (set_headerCache c s).
Proof.
  intros HF Hc Hx. unfold GetHeader, lru.Get. cbv [bind gets modify ret].
  destruct (lru.find k (lru.items (headerCache s))) as [y|] eqn:Hf.
  - destruct (Hc k y (lru_find_elem _ _ _ Hf)) as [m Hm].
    rewrite (HF _ _ _ _ _ Hm Hx).
    eexists. split; [ reflexivity | ].
    intros k' z Hz. cbn [headerCache set_headerCache lru.items headerDb] in *.
    apply elem_of_cons in Hz as [[= -> ->]|Hz]; [ eauto | ].
    apply Hc. eapply lru_remove_elem. exact Hz.
  - unfold rawdb.ReadHeader. rewrite Hx.
    eexists. split; [ reflexivity | ].
    intros k' z Hz. cbn [headerCache set_headerCache headerDb] in *.
    apply lru_Add_elem in Hz as [[= -> ->]|Hz]; [ eauto | apply Hc; exact Hz ].
Qed.

(** In a store that keeps the number of every record under its hash, a
    stored header is found by its hash. *)
Lemma GetHeaderByHash_finds (s : HC) (x : Header) :
  storeFunctional (headerDb s) -> numbersRecorded (headerDb s) ->
  cacheAgrees s -> numberCacheAgrees s ->
  (exists n, dbHeaders (headerDb s) !! (hHash x, n) = Some x) ->
  exists s',
    GetHeaderByHash (hHash x) s = Ret (Some x) s' /\
    cacheAgrees s' /\ numberCacheAgrees s' /\ sameButCaches s s'.
Proof.
  intros HF HN Hc Hnc [n Hx].
  destruct (GetBlockNumber_finds s (hHash x) n Hnc (HN _ _ _ Hx)) as (c1 & Hnum & Hnc1).
  destruct (GetHeader_finds (set_numberCache c1 s) (hHash x) n x HF Hc Hx) as (c2 & Hget & Hc2).
  exists (set_headerCache c2 (set_numberCache c1 s)).
  unfold GetHeaderByHash, bind. rewrite Hnum, Hget.
  split; [ reflexivity | ]. split; [ exact Hc2 | ]. split; [ exact Hnc1 | ].
  repeat split.
Qed.

Lemma headHashes_nonNil (hs : list Header) :
  forall acc (s : HC), headHashes (map Some hs) acc s = Ret (acc ++ map hHash hs) s.
Proof.
  induction hs as [|h hs IH]; intros acc s; simpl.
  - rewrite app_nil_r. reflexivity.
  - rewrite bind_ret_l, IH, <- app_assoc. reflexivity.
Qed.

Lemma loadHeads_stored (hs : list Header) :
  forall acc (s : HC),
    storeFunctional (headerDb s) -> numbersRecorded (headerDb s) ->
    cacheAgrees s -> numberCacheAgrees s ->
    (forall h, h ∈ hs -> exists n, dbHeaders (headerDb s) !! (hHash h, n) = Some h) ->
    exists s',
      loadHeads (map hHash hs) acc s = Ret (acc ++ map Some hs) s' /\ sameButCaches s s'.
Proof.
  induction hs as [|h hs IH]; intros acc s HF HN Hc Hnc Hst; simpl.
  - exists s. rewrite app_nil_r. split; [ reflexivity | apply sameButCaches_refl ].
  - destruct (GetHeaderByHash_finds s h HF HN Hc Hnc) as (s1 & Hrun & Hc1 & Hnc1 & Hs1).
    { apply Hst. left. }
    assert (Hdb : headerDb s1 = headerDb s) by apply Hs1.
    unfold bind at 1. rewrite Hrun.
    destruct (IH (acc ++ [Some h]) s1) as (s' & Hrest & Hs'); try assumption.
    + rewrite Hdb. exact HF.
    + rewrite Hdb. exact HN.
    + intros h' Hh'. rewrite Hdb. apply Hst. right. exact Hh'.
    + exists s'. rewrite Hrest, <- app_assoc. split; [ reflexivity | ].
      destruct Hs1 as (A1 & A2 & A3 & A4 & A5 & A6 & A7 & A8 & A9).
      destruct Hs' as (B1 & B2 & B3 & B4 & B5 & B6 & B7 & B8 & B9).
      repeat split; congruence.
Qed.

Lemma headHashes_nil (hs : list (option Header)) :
  nilHeaderHash = None -> None ∈ hs ->
  forall acc (s : HC), headHashes hs acc s = Panic s.
Proof.
  intros Hnil. induction hs as [|h hs IH]; intros Hin acc s.
  - inversion Hin.
  - cbn [headHashes]. destruct h as [x|].
    + cbn [Hash_]. rewrite bind_ret_l. apply IH.
      apply elem_of_cons in Hin as [Heq|Hin]; [ discriminate | exact Hin ].
    + unfold Hash_. rewrite Hnil. reflexivity.
Qed.

Lemma saveHeads_runs (c : HC) (cur : Header) (hs : list Header) :
  currentHeader c = Some cur -> nonNil (heads c) = Some hs ->
  saveHeads c
  = Ret tt (set_headerDb (rawdb.WriteHeadBlockHash (hHash cur))
              (set_headerDb (rawdb.WriteHeadsHashes (map hHash hs)) c)).
Proof.
  intros Hcur Hnn. unfold saveHeads. rewrite bind_gets.
  rewrite (nonNil_map _ _ Hnn). unfold bind at 1. rewrite headHashes_nonNil.
  cbn [app]. rewrite bind_modify.
  rewrite (CurrentHeader_some cur) by exact Hcur. reflexivity.
Qed.

Lemma Stop_runs (sv : Service BlockChain) (cur : Header) (hs : list Header) :
  running sv = 0%Z -> quitClosed sv = false ->
  currentHeader (chainOf sv) = Some cur -> nonNil (heads (chainOf sv)) = Some hs ->
  Stop sv
  = Ret tt (mkService
              (set_headerDb (rawdb.WriteHeadBlockHash (hHash cur))
                 (set_headerDb (rawdb.WriteHeadsHashes (map hHash hs)) (chainOf sv)))
              1%Z 1%Z true true).
Proof.
  intros Hrun Hq Hcur Hnn. unfold Stop. rewrite bind_gets, Hrun. cbn [Z.eqb negb].
  rewrite bind_modify. unfold bind at 1. unfold onChain. cbn [chainOf set_running].
  rewrite (saveHeads_runs _ cur hs Hcur Hnn).
  rewrite bind_modify. unfold closeQuit. cbv [bind gets].
  cbn [quitClosed set_scopeClosed set_chainOf set_running]. rewrite Hq.
  reflexivity.
Qed.

(** X16.  [Stop] acts once.  On a stopped service it does nothing.  On
    a running one whose registry has no nil entry and whose current header
    is set it returns with the hashes of the registered heads, in registry
    order, and the hash of the current header written to the store, the
    flags [running] and [procInterrupt] set, and the header records and
    the registry as before; a second [Stop] then changes nothing.  When
    the registry holds a nil entry and [Hash] panics on nil, [Stop] panics
    with [running] already set and nothing saved, and every later [Stop]
    returns without saving either. *)
Theorem Stop_acts_once (sv : Service BlockChain) :
  (running sv <> 0%Z -> Stop sv = Ret tt sv) /\
  (forall cur hs,
     running sv = 0%Z -> quitClosed sv = false ->
     currentHeader (chainOf sv) = Some cur -> nonNil (heads (chainOf sv)) = Some hs ->
     exists sv',
       Stop sv = Ret tt sv' /\
       rawdb.ReadHeadsHashes (headerDb (chainOf sv')) = map hHash hs /\
       rawdb.ReadHeadBlockHash (headerDb (chainOf sv')) = hHash cur /\
       dbHeaders (headerDb (chainOf sv')) = dbHeaders (headerDb (chainOf sv)) /\
       heads (chainOf sv') = heads (chainOf sv) /\
       insertStopped sv' = Ret true sv' /\
       Stop sv' = Ret tt sv' /\
       running sv' = 1%Z /\ procInterrupt sv' = 1%Z) /\
  (running sv = 0%Z -> nilHeaderHash = None -> None ∈ heads (chainOf sv) ->
   exists sv',
     Stop sv = Panic sv' /\
     chainOf sv' = chainOf sv /\
     Stop sv' = Ret tt sv' /\
     running sv' = 1%Z).
Proof.
  split; [ | split ].
  - intros Hrun. unfold Stop. rewrite bind_gets.
    destruct (Z.eqb_spec (running sv) 0) as [Heq|_]; [ contradiction | reflexivity ].
  - intros cur hs Hrun Hq Hcur Hnn. eexists. split; [ apply (Stop_runs sv cur hs); assumption | ].
    repeat split.
  - intros Hrun Hnil Hin. exists (set_running 1%Z sv).
    split; [ | split; [ reflexivity | split; reflexivity ] ].
    unfold Stop. rewrite bind_gets, Hrun. cbn [Z.eqb negb].
    rewrite bind_modify. unfold bind at 1. unfold onChain. cbn [chainOf set_running].
    unfold saveHeads. rewrite bind_gets. unfold bind at 1.
    rewrite (headHashes_nil _ Hnil Hin). destruct sv; reflexivity.
Qed.

Lemma loadHeads_length (hashes : list Hash) :
  forall acc (s : HC),
    exists r s',
      loadHeads hashes acc s = Ret r s' /\
      length r = (length acc + length hashes)%nat /\ sameButCaches s s'.
Proof.
  induction hashes as [|hash rest IH]; intros acc s; simpl.
  - exists acc, s. split; [ reflexivity | ]. split; [ lia | apply sameButCaches_refl ].
  - destruct (GetHeaderByHash_returns hash s s (sameButCaches_refl s)) as (h & s1 & Hrun & Hs1).
    unfold bind at 1. rewrite Hrun.
    destruct (IH (acc ++ [h]) s1) as (r & s' & Hrest & Hlen & Hs').
    exists r, s'. split; [ exact Hrest | ].
    split; [ rewrite Hlen, length_app; simpl; lia | ].
    destruct Hs1 as (A1 & A2 & A3 & A4 & A5 & A6 & A7 & A8 & A9).
    destruct Hs' as (B1 & B2 & B3 & B4 & B5 & B6 & B7 & B8 & B9).
    repeat split; congruence.
Qed.

(** X17.  Round trip of the saved state: after [Stop] on a running
    service whose registry has no nil entry, whose current header has a
    hash other than the zero hash, and whose store holds the current
    header and every registered head (one header per hash, the number of
    each record kept under its hash), [loadLastState] run on any chain
    over the saved store, with caches that agree with it, returns nil and
    restores the registry, the current header and its hash. *)
Theorem Stop_then_loadLastState (sv : Service BlockChain) (cur : Header) (hs : list Header) :
  running sv = 0%Z -> quitClosed sv = false ->
  currentHeader (chainOf sv) = Some cur ->
  nonNil (heads (chainOf sv)) = Some hs ->
  hHash cur <> zeroHash ->
  storeFunctional (headerDb (chainOf sv)) -> numbersRecorded (headerDb (chainOf sv)) ->
  (forall h, h = cur \/ h ∈ hs ->
     exists n, dbHeaders (headerDb (chainOf sv)) !! (hHash h, n) = Some h) ->
  exists sv',
    Stop sv = Ret tt sv' /\
    forall c0 : HC,
      headerDb c0 = headerDb (chainOf sv') -> cacheAgrees c0 -> numberCacheAgrees c0 ->
      exists c1,
        loadLastState c0 = Ret None c1 /\
        heads c1 = heads (chainOf sv) /\
        currentHeader c1 = Some cur /\
        currentHeaderHash c1 = hHash cur /\
        headerDb c1 = headerDb c0.
Proof.
  intros Hrun Hq Hcur Hnn Hnz HF HN Hst.
  eexists. split; [ apply (Stop_runs sv cur hs); assumption | ].
  cbn [chainOf]. intros c0 Hdb0 Hc0 Hnc0.
  assert (Hrec : dbHeaders (headerDb c0) = dbHeaders (headerDb (chainOf sv)))
    by (rewrite Hdb0; reflexivity).
  assert (Hnum : dbHeaderNumbers (headerDb c0) = dbHeaderNumbers (headerDb (chainOf sv)))
    by (rewrite Hdb0; reflexivity).
  assert (HF0 : storeFunctional (headerDb c0)).
  { intros k n n' x y. rewrite Hrec. apply HF. }
  assert (HN0 : numbersRecorded (headerDb c0)).
  { intros k n x. rewrite Hrec, Hnum. apply HN. }
  assert (Hst0 : forall h, h = cur \/ h ∈ hs ->
            exists n, dbHeaders (headerDb c0) !! (hHash h, n) = Some h).
  { intros h Hh. rewrite Hrec. apply Hst. exact Hh. }
  destruct (GetHeaderByHash_finds c0 cur HF0 HN0 Hc0 Hnc0 (Hst0 cur (or_introl eq_refl)))
    as (s1 & Hfind & Hc1 & Hnc1 & Hs1).
  assert (Hdb1 : headerDb s1 = headerDb c0) by apply Hs1.
  set (s2 := set_currentHeaderHash (hHash cur)
               (set_currentHeaderHash (hHash cur) (set_currentHeader cur s1))).
  destruct (loadHeads_stored hs [] s2) as (s3 & Hload & Hs3).
  { change (headerDb s2) with (headerDb s1). rewrite Hdb1. exact HF0. }
  { change (headerDb s2) with (headerDb s1). rewrite Hdb1. exact HN0. }
  { exact Hc1. }
  { exact Hnc1. }
  { intros h Hh. change (headerDb s2) with (headerDb s1). rewrite Hdb1.
    apply Hst0. right. exact Hh. }
  exists (set_heads (map Some hs) s3).
  assert (Hdb3 : headerDb s3 = headerDb c0).
  { destruct Hs3 as (_ & _ & _ & _ & Hd & _). rewrite Hd. exact Hdb1. }
  split; [ | split; [ | split; [ | split ] ] ].
  - unfold loadLastState. rewrite bind_gets. cbv zeta.
    unfold rawdb.ReadHeadsHashes, rawdb.ReadHeadBlockHash. rewrite Hdb0.
    cbn [headerDb set_headerDb rawdb.WriteHeadBlockHash rawdb.WriteHeadsHashes
         dbHeadsHashes dbHeadBlockHash].
    apply N.eqb_neq in Hnz. rewrite Hnz. cbn [negb].
    unfold bind at 1 2. rewrite Hfind. rewrite !bind_modify.
    unfold modify at 1. cbv beta iota.
    rewrite (CurrentHeader_some cur) by reflexivity. rewrite bind_modify.
    fold s2. unfold bind at 1. rewrite Hload. cbn [app]. rewrite bind_modify.
    reflexivity.
  - cbn [heads set_heads]. symmetry. apply nonNil_map. exact Hnn.
  - cbn [currentHeader set_heads]. destruct Hs3 as (_ & _ & _ & _ & _ & _ & Hcur3 & _).
    rewrite Hcur3. reflexivity.
  - cbn [currentHeaderHash set_heads].
    destruct Hs3 as (_ & _ & _ & _ & _ & _ & _ & Hh3 & _). rewrite Hh3. reflexivity.
  - exact Hdb3.
Qed.

(** X18.  [loadLastState] at its edges.  With no current header in the
    cell and no head-block hash in the store (a store never stopped on),
    the call panics on the empty cell and changes nothing.  A call that
    returns gives nil, leaves the store as it was, has a current header
    whose hash is the current hash, and has rebuilt the registry with one
    entry per saved hash, found or not. *)
Theorem loadLastState_edges (s : HC) :
  (currentHeader s = None -> rawdb.ReadHeadBlockHash (headerDb s) = zeroHash ->
   loadLastState s = Panic s) /\
  (forall r s', loadLastState s = Ret r s' ->
     r = None /\
     length (heads s') = length (rawdb.ReadHeadsHashes (headerDb s)) /\
     headerDb s' = headerDb s /\
     exists cur, currentHeader s' = Some cur /\ currentHeaderHash s' = hHash cur).
Proof.
  split.
  - intros Hcur Hhead. unfold loadLastState. rewrite bind_gets. cbv zeta.
    rewrite Hhead. cbn [N.eqb zeroHash negb]. rewrite bind_ret_l.
    unfold CurrentHeader. cbv [bind gets]. rewrite Hcur. reflexivity.
  - intros r s'.
    assert (Hholds : holds (loadLastState s)
      (fun r s' => r = None /\
         length (heads s') = length (rawdb.ReadHeadsHashes (headerDb s)) /\
         headerDb s' = headerDb s /\
         exists cur, currentHeader s' = Some cur /\ currentHeaderHash s' = hHash cur)
      (fun _ => True)).
    { unfold loadLastState. rewrite bind_gets. cbv zeta.
      eapply holds_bind with (Q := fun _ s1 => headerDb s1 = headerDb s) (E' := fun _ => True).
      - set (I := fun t : HC => headerDb t = headerDb s).
        assert (HI : readStable I).
        { apply cacheStable_readStable. split; [ | split ]; intros t cc Ht; exact Ht. }
        assert (Hk : keeps I
          (if negb (N.eqb (rawdb.ReadHeadBlockHash (headerDb s)) zeroHash)
           then chead <- GetHeaderByHash (rawdb.ReadHeadBlockHash (headerDb s)) ;;
                match chead with
                | Some c => modify (set_currentHeader c) ;;;
                            modify (set_currentHeaderHash (hHash c))
                | None => ret tt
                end
           else ret tt)).
        { destruct (negb _); [ | apply keeps_ret ].
          apply keeps_bind; [ apply GetHeaderByHash_keeps; exact HI | intros [c|] ];
            [ | apply keeps_ret ].
          apply keeps_bind; [ apply keeps_modify; intros t Ht; exact Ht | intros _ ].
          apply keeps_modify. intros t Ht. exact Ht. }
        specialize (Hk s eq_refl).
        eapply holds_weaken; [ exact Hk | intros a t Ht; exact Ht | auto ].
      - auto.
      - intros _ s1 Hdb1.
        destruct (currentHeader s1) as [cur|] eqn:Hcur;
          [ | unfold CurrentHeader; cbv [bind gets]; rewrite Hcur; exact Logic.I ].
        rewrite (CurrentHeader_some cur) by exact Hcur. rewrite bind_modify.
        destruct (loadHeads_length (rawdb.ReadHeadsHashes (headerDb s)) []
                    (set_currentHeaderHash (hHash cur) s1)) as (l & s2 & Hload & Hlen & Hs2).
        unfold bind at 1. rewrite Hload. rewrite bind_modify. simpl.
        split; [ reflexivity | ]. split; [ exact Hlen | ].
        destruct Hs2 as (_ & _ & _ & _ & Hd & _ & Hc & Hh & _).
        split; [ rewrite Hd; exact Hdb1 | ].
        exists cur. split; [ rewrite Hc; exact Hcur | rewrite Hh; reflexivity ]. }
    intros Hrun. rewrite Hrun in Hholds. exact Hholds.
Qed.

Lemma lru_elem_find {V} (k : Hash) (v : V) l : (k, v) ∈ l -> is_Some (lru.find k l).
Proof.
  induction l as [|[k' v'] l IH]; intros Hin; [ inversion Hin | ].
  simpl. destruct (N.eqb_spec k k') as [->|Hne]; [ eauto | ].
  apply elem_of_cons in Hin as [[= -> ->]|Hin]; [ contradiction | exact (IH Hin) ].
Qed.

Lemma lru_find_None_sub {V} (k : Hash) (l l' : list (Hash * V)) :
  (forall v, (k, v) ∈ l' -> (k, v) ∈ l) -> lru.find k l = None -> lru.find k l' = None.
Proof.
  intros Hsub Hnone. destruct (lru.find k l') as [v|] eqn:Hf; [ | reflexivity ].
  destruct (lru_elem_find k v l (Hsub v (lru_find_elem _ _ _ Hf))) as [w Hw]. congruence.
Qed.

(** A hash that neither the number cache nor the store knows stays
    unknown through every lookup. *)
Lemma unknown_readStable (k : Hash) :
  readStable (fun t : HC =>
    lru.find k (lru.items (numberCache t)) = None /\
    dbHeaderNumbers (headerDb t) !! k = None).
Proof.
  split.
  - intros hash number s Hs. unfold GetHeader. cbv [bind gets modify ret].
    destruct (lru.Get hash (headerCache s)) as [[x|] c]; [ exact Hs | ].
    destruct (rawdb.ReadHeader _ _ _); exact Hs.
  - intros hash s [Hc Hd]. unfold GetBlockNumber, lru.Get. cbv [bind gets modify ret].
    destruct (lru.find hash (lru.items (numberCache s))) as [n|] eqn:Hf.
    + simpl. split; [ | exact Hd ].
      destruct (N.eqb_spec k hash) as [->|Hne]; [ congruence | ].
      apply (lru_find_None_sub k (lru.items (numberCache s))); [ | exact Hc ].
      intros v Hv. eapply lru_remove_elem. exact Hv.
    + unfold rawdb.ReadHeaderNumber.
      destruct (dbHeaderNumbers (headerDb s) !! hash) as [n|] eqn:Hn; [ | split; assumption ].
      simpl. split; [ | exact Hd ].
      apply (lru_find_None_sub k (lru.items (numberCache s))); [ | exact Hc ].
      intros v Hv. apply lru_Add_elem in Hv as [[= -> ->]|Hv]; [ congruence | exact Hv ].
Qed.

Lemma loadHeads_unknown (k : Hash) (hashes : list Hash) :
  forall acc (s : HC),
    lru.find k (lru.items (numberCache s)) = None ->
    dbHeaderNumbers (headerDb s) !! k = None ->
    holds (loadHeads hashes acc s)
      (fun r _ => exists r', r = acc ++ r' /\
                  forall i, hashes !! i = Some k -> r' !! i = Some None)
      (fun _ => True).
Proof.
  induction hashes as [|hash rest IH]; intros acc s Hc Hd.
  - simpl. exists []. rewrite app_nil_r. split; [ reflexivity | ]. intros i Hi. inversion Hi.
  - cbn [loadHeads].
    eapply holds_bind with
      (Q := fun h s1 =>
              (lru.find k (lru.items (numberCache s1)) = None /\
               dbHeaderNumbers (headerDb s1) !! k = None) /\
              (hash = k -> h = None))
      (E' := fun _ => True).
    + pose proof (GetHeaderByHash_keeps _ hash (unknown_readStable k) s (conj Hc Hd)) as Hk.
      destruct (GetHeaderByHash hash s) as [h s1|s1|] eqn:Hrun; simpl in *;
        [ | exact Logic.I | exact Logic.I ].
      split; [ exact Hk | ]. intros ->.
      revert Hrun. unfold GetHeaderByHash, GetBlockNumber, lru.Get.
      cbv [bind gets modify ret]. rewrite Hc. unfold rawdb.ReadHeaderNumber. rewrite Hd.
      intros [= <- _]. reflexivity.
    + auto.
    + intros h s1 [[Hc1 Hd1] Hh].
      eapply holds_weaken; [ apply (IH (acc ++ [h]) s1 Hc1 Hd1) | | auto ].
      intros r _ (r' & -> & Hr'). exists (h :: r').
      split; [ rewrite <- app_assoc; reflexivity | ].
      intros [|i] Hi; simpl in *.
      * injection Hi as ->. rewrite (Hh eq_refl). reflexivity.
      * apply Hr'. exact Hi.
Qed.

(** X19.  A saved head whose hash has no number in the number cache or
    in the store, as after its record has been trimmed, comes back from
    [loadLastState] as a nil entry of the registry, at the position it was
    saved at. *)
Theorem loadLastState_nil_entry (s s' : HC) (r : error) (i : nat) (hash : Hash) :
  rawdb.ReadHeadsHashes (headerDb s) !! i = Some hash ->
  lru.Contains hash (numberCache s) = false ->
  rawdb.ReadHeaderNumber (headerDb s) hash = None ->
  loadLastState s = Ret r s' ->
  heads s' !! i = Some None.
Proof.
  intros Hi Hc Hd Hrun. apply lru_Contains_false in Hc.
  unfold rawdb.ReadHeaderNumber in Hd.
  set (U := fun t : HC =>
    lru.find hash (lru.items (numberCache t)) = None /\
    dbHeaderNumbers (headerDb t) !! hash = None).
  assert (Hholds : holds (loadLastState s)
    (fun _ s' => heads s' !! i = Some None) (fun _ => True)).
  { unfold loadLastState. rewrite bind_gets. cbv zeta.
    eapply holds_bind with (Q := fun _ s1 => U s1) (E' := fun _ => True).
    - assert (Hk : keeps U
        (if negb (N.eqb (rawdb.ReadHeadBlockHash (headerDb s)) zeroHash)
         then chead <- GetHeaderByHash (rawdb.ReadHeadBlockHash (headerDb s)) ;;
              match chead with
              | Some c => modify (set_currentHeader c) ;;;
                          modify (set_currentHeaderHash (hHash c))
              | None => ret tt
              end
         else ret tt)).
      { destruct (negb _); [ | apply keeps_ret ].
        apply keeps_bind;
          [ apply GetHeaderByHash_keeps; apply unknown_readStable | intros [c|] ];
          [ | apply keeps_ret ].
        apply keeps_bind; [ apply keeps_modify; intros t Ht; exact Ht | intros _ ].
        apply keeps_modify. intros t Ht. exact Ht. }
      specialize (Hk s (conj Hc Hd)).
      eapply holds_weaken; [ exact Hk | intros a t Ht; exact Ht | auto ].
    - auto.
    - intros _ s1 [Hc1 Hd1].
      destruct (currentHeader s1) as [cur|] eqn:Hcur;
        [ | unfold CurrentHeader; cbv [bind gets]; rewrite Hcur; exact Logic.I ].
      rewrite (CurrentHeader_some cur) by exact Hcur. rewrite bind_modify.
      eapply holds_bind with
        (Q := fun l _ => l !! i = Some None) (E' := fun _ => True).
      + eapply holds_weaken;
          [ apply (loadHeads_unknown hash _ [] (set_currentHeaderHash (hHash cur) s1) Hc1 Hd1)
          | | auto ].
        intros l _ (r' & -> & Hr'). simpl. apply Hr'. exact Hi.
      + auto.
      + intros l s2 Hl. rewrite bind_modify. exact Hl. }
  rewrite Hrun in Hholds. exact Hholds.
Qed.

End Persistence.

(** ** Range checks and the location slots *)

Lemma subByte_pred (b : N) : 1 <= b -> b < 256 -> subByte b 1 = b - 1.
Proof.
  intros H1 H2. unfold subByte.
  rewrite (N.mod_small b 256) by lia. rewrite (N.mod_small 1 256) by lia.
  replace (b + 256 - 1) with (b - 1 + 1 * 256) by lia.
  rewrite N.Div0.mod_add. apply N.mod_small. lia.
Qed.

Section RangeMore.
Context `{Env} `{Ontology}.

Local Abbreviation HC := (HeaderChain BlockChain).

(** X20.  The range check and the slot assignment fit together: with at
    most three regions and three zones per region configured, a location
    that [CheckLocationRange] accepts has, in the region and in the zone
    context, a byte between 1 and 3, and the slot assignment of
    [SetCurrentHeader] for a header of that location stores the header
    at that byte less one without panicking.  The check itself panics,
    instead of returning an error, on the empty location and on a location
    of one byte that names a configured region. *)
Theorem CheckLocationRange_guards_slots (h : Header) (s : HC) (f0 f1 : Z) (rest : list Z) :
  FullerOntology = f0 :: f1 :: rest ->
  (f0 <= 3)%Z -> (f1 <= 3)%Z ->
  (CheckLocationRange (hLocation h) s = Ret None s ->
   (QuaiNetworkContext < 2)%nat ->
   exists b,
     hLocation h !! QuaiNetworkContext = Some b /\ 1 <= b <= 3 /\
     setSlice [None; None; None] h s
     = Ret (<[N.to_nat (b - 1) := Some h]> [None; None; None]) s) /\
  CheckLocationRange [] s = Panic s /\
  (forall b, 1 <= b -> (Z.of_N b <= f0)%Z -> CheckLocationRange [b] s = Panic s).
Proof.
  intros Hont Hf0 Hf1. split; [ | split ].
  - unfold CheckLocationRange, outsideRange. rewrite Hont.
    destruct (hLocation h) as [|b0 [|b1 l]] eqn:Hloc; cbn [lookup list_lookup];
      [ discriminate | | ].
    + cbv [bind ret]. destruct (Z.ltb (Z.of_N b0) 1); [ discriminate | ].
      destruct (Z.ltb f0 (Z.of_N b0)); discriminate.
    + cbv [bind ret].
      destruct (Z.ltb_spec (Z.of_N b0) 1) as [|Hb0]; [ discriminate | ].
      destruct (Z.ltb_spec f0 (Z.of_N b0)) as [|Hb0']; [ discriminate | ].
      destruct (Z.ltb_spec (Z.of_N b1) 1) as [|Hb1]; [ discriminate | ].
      destruct (Z.ltb_spec f1 (Z.of_N b1)) as [|Hb1']; [ discriminate | ].
      intros _ Hctx.
      assert (Hslot : forall b, 1 <= b <= 3 ->
                hLocation h !! QuaiNetworkContext = Some b ->
                setSlice [None; None; None] h s
                = Ret (<[N.to_nat (b - 1) := Some h]> [None; None; None]) s).
      { intros b Hb Hlook. unfold setSlice. rewrite Hlook.
        rewrite subByte_pred by lia.
        assert (Hlt : (N.to_nat (b - 1) <? length [@None Header; None; None])%nat = true)
          by (apply Nat.ltb_lt; simpl; lia).
        rewrite Hlt. reflexivity. }
      destruct QuaiNetworkContext as [|[|n]]; [ | | lia ].
      * exists b0. assert (Hr : 1 <= b0 <= 3) by lia.
        split; [ reflexivity | ]. split; [ exact Hr | ].
        apply Hslot; [ exact Hr | rewrite Hloc; reflexivity ].
      * exists b1. assert (Hr : 1 <= b1 <= 3) by lia.
        split; [ reflexivity | ]. split; [ exact Hr | ].
        apply Hslot; [ exact Hr | rewrite Hloc; reflexivity ].
  - reflexivity.
  - intros b Hb Hle. unfold CheckLocationRange, outsideRange. rewrite Hont.
    cbn [lookup list_lookup]. cbv [bind ret].
    destruct (Z.ltb_spec (Z.of_N b) 1) as [|_]; [ lia | ].
    destruct (Z.ltb_spec f0 (Z.of_N b)) as [|_]; [ lia | ].
    reflexivity.
Qed.

End RangeMore.

(** ** Export *)

Section ExportMore.
Context `{Env} `{BlockSource BlockChain}.

Local Abbreviation HC := (HeaderChain BlockChain).

Lemma GetBlockByNumber_pure (nr : N) (s : HC) :
  exists b, GetBlockByNumber nr s = Ret b s.
Proof.
  unfold GetBlockByNumber, GetBlock. cbv [bind gets ret].
  destruct (N.eqb _ _); eauto.
Qed.

Lemma add64_succ (nr : N) : nr + 1 < two64 -> add64 nr 1 = nr + 1.
Proof. intros Hlt. unfold add64. apply N.mod_small. exact Hlt. Qed.

Lemma ExportN_loop_exports (last : N) (s : HC) :
  last + 1 < two64 ->
  forall blocks fuel w nr,
    nr + N.of_nat (length blocks) = last + 1 ->
    (forall i b, blocks !! i = Some b ->
       GetBlockByNumber (nr + N.of_nat i) s = Ret (Some b) s /\ snd (EncodeRLP b) = None) ->
    (length blocks < fuel)%nat ->
    ExportN_loop fuel w nr last s
    = Ret (w ++ concat (map (fun b => fst (EncodeRLP b)) blocks), None) s.
Proof.
  intros Hlast. induction blocks as [|b bs IH]; intros fuel w nr Hlen Hblocks Hfuel.
  - destruct fuel as [|fuel]; [ simpl in Hfuel; lia | ]. simpl in Hlen.
    cbn [ExportN_loop]. destruct (N.ltb_spec last nr) as [_|Hle]; [ | lia ].
    simpl. rewrite app_nil_r. reflexivity.
  - destruct fuel as [|fuel]; [ simpl in Hfuel; lia | ].
    cbn [length] in Hlen, Hfuel. cbn [ExportN_loop].
    destruct (N.ltb_spec last nr) as [Hlt|_]; [ lia | ].
    destruct (Hblocks 0%nat b eq_refl) as [Hget Henc].
    rewrite N.add_0_r in Hget. unfold bind. rewrite Hget, Henc.
    rewrite add64_succ by lia.
    rewrite (IH fuel (w ++ fst (EncodeRLP b)) (nr + 1)); [ | lia | | lia ].
    + cbn [map concat]. rewrite <- app_assoc. reflexivity.
    + intros i b' Hb'. replace (nr + 1 + N.of_nat i) with (nr + N.of_nat (Datatypes.S i)) by lia.
      apply Hblocks. exact Hb'.
Qed.

(** X21.  [ExportN] on a complete range: when every number from [first]
    to [last] (below the largest 64-bit number) has a canonical block and
    every block encodes without error, the call returns nil, leaves the
    chain as it was, and has written after what the writer held the
    encodings of these blocks in ascending order of number, each once. *)
Theorem ExportN_exports_range (fuel : nat) (w : list N) (first last : N)
    (blocks : list Block) (s : HC) :
  first <= last -> last + 1 < two64 ->
  length blocks = N.to_nat (last - first + 1) ->
  (forall i b, blocks !! i = Some b ->
     GetBlockByNumber (first + N.of_nat i) s = Ret (Some b) s /\ snd (EncodeRLP b) = None) ->
  (length blocks < fuel)%nat ->
  ExportN fuel w first last s
  = Ret (w ++ concat (map (fun b => fst (EncodeRLP b)) blocks), None) s.
Proof.
  intros Hle Hlast Hlen Hblocks Hfuel. unfold ExportN.
  destruct (N.ltb_spec last first) as [Hlt|_]; [ lia | ].
  apply ExportN_loop_exports; try assumption. lia.
Qed.

Lemma ExportN_loop_shape (last : N) (fuel : nat) :
  forall w nr (s : HC) r s',
    ExportN_loop fuel w nr last s = Ret r s' ->
    s' = s /\ (exists out, fst r = w ++ out) /\
    (last = two64 - 1 -> nr < two64 -> snd r <> None).
Proof.
  induction fuel as [|fuel IH]; intros w nr s r s' Hrun; [ discriminate | ].
  cbn [ExportN_loop] in Hrun.
  destruct (N.ltb_spec last nr) as [Hlt|Hle].
  - injection Hrun as <- <-. split; [ reflexivity | ].
    split; [ exists []; rewrite app_nil_r; reflexivity | ]. intros -> Hnr. lia.
  - destruct (GetBlockByNumber_pure nr s) as [b Hget].
    unfold bind in Hrun. rewrite Hget in Hrun. destruct b as [b|].
    + destruct (snd (EncodeRLP b)) as [e|].
      * injection Hrun as <- <-. split; [ reflexivity | ].
        split; [ eexists; reflexivity | ]. intros _ _. discriminate.
      * destruct (IH _ _ _ _ _ Hrun) as (Hs & [out Hout] & Hmax).
        split; [ exact Hs | ]. split.
        -- exists (fst (EncodeRLP b) ++ out). rewrite Hout, <- app_assoc. reflexivity.
        -- intros Hlast _. apply Hmax; [ exact Hlast | ].
           unfold add64. apply N.mod_upper_bound. discriminate.
    + injection Hrun as <- <-. split; [ reflexivity | ].
      split; [ exists []; rewrite app_nil_r; reflexivity | ]. intros _ _. discriminate.
Qed.

(** X22.  [ExportN] at its edges.  A range whose first number is above
    its last is refused with an error and nothing is written.  Every call
    that returns leaves the chain as it was and only adds to the writer.
    With the largest 64-bit number as last number the loop counter wraps
    to 0 instead of passing the bound, so the call never returns nil: it
    ends only on a missing block or on an encoding error. *)
Theorem ExportN_edges (fuel : nat) (w : list N) (first last : N) (s : HC) :
  (last < first ->
   exists e, ExportN fuel w first last s = Ret (w, Some e) s) /\
  (forall r s', ExportN fuel w first last s = Ret r s' ->
     s' = s /\ exists out, fst r = w ++ out) /\
  (forall r s', last = two64 - 1 -> first < two64 ->
     ExportN fuel w first last s = Ret r s' -> snd r <> None).
Proof.
  unfold ExportN. split; [ | split ].
  - intros Hlt. apply N.ltb_lt in Hlt. rewrite Hlt. eauto.
  - intros r s' Hrun. destruct (N.ltb last first).
    + injection Hrun as <- <-. split; [ reflexivity | ].
      exists []. rewrite app_nil_r. reflexivity.
    + destruct (ExportN_loop_shape last fuel w first s r s' Hrun) as (Hs & Hout & _).
      split; assumption.
  - intros r s' Hlast Hfirst Hrun. destruct (N.ltb last first).
    + injection Hrun as <- _. discriminate.
    + destruct (ExportN_loop_shape last fuel w first s r s' Hrun) as (_ & _ & Hmax).
      apply Hmax; assumption.
Qed.

End ExportMore.

(** ** The chain selector: rolling back to an ancestor *)

Lemma descends_antisym db c y : descends db c y -> descends db y c -> y = c.
Proof.
  intros H1 H2. pose proof (descends_number _ _ _ H1) as Hn1.
  inversion H2 as [|x p Hread Hlt Hd]; [ reflexivity | ].
  pose proof (descends_number _ _ _ Hd) as Hn2. lia.
Qed.

Lemma strictlyAbove_cases db c p p' y :
  rawdb.ReadHeader db (hParent p) (sub64 (hNumber p) 1) = Some p' ->
  strictlyAbove db c p y -> y = p \/ strictlyAbove db c p' y.
Proof.
  intros Hread (H1 & H2 & H3).
  inversion H2 as [|x q Hread' Hlt Hd]; [ left; reflexivity | ]. subst.
  rewrite Hread in Hread'. injection Hread' as <-.
  right. repeat split; assumption.
Qed.

Lemma strictlyAbove_number db c p y :
  strictlyAbove db c p y -> hNumber c < hNumber y.
Proof.
  intros (H1 & _ & H3).
  inversion H1 as [|x q Hread Hlt Hd]; [ subst; contradiction | ].
  pose proof (descends_number _ _ _ Hd). lia.
Qed.

Section Rollback.
Context `{Env}.

Local Abbreviation HC := (HeaderChain BlockChain).

Lemma GetHeader_reads db0 (s : HC) (k n : N) (x : Header) :
  storeFunctional db0 -> dbHeaders (headerDb s) = dbHeaders db0 -> cacheAgrees s ->
  dbHeaders db0 !! (k, n) = Some x ->
  exists c,
    GetHeader k n s = Ret (Some x) (set_headerCache c s) /\
    cacheAgrees (set_headerCache c s).
Proof.
  intros HF Hdb Hc Hx. apply GetHeader_finds; [ | exact Hc | rewrite Hdb; exact Hx ].
  intros h m m' a b. rewrite Hdb. apply HF.
Qed.

Lemma unwindOld_rollback db0 (c : Header) (g0 : Hash) :
  storeFunctional db0 -> hashKeyed db0 ->
  (exists n, dbHeaders db0 !! (hHash c, n) = Some c) ->
  forall fuel p (s : HC),
    descends db0 c p ->
    (exists n, dbHeaders db0 !! (hHash p, n) = Some p) ->
    dbHeaders (headerDb s) = dbHeaders db0 -> cacheAgrees s ->
    genesisHashes s !! 0%nat = Some g0 ->
    (forall y, strictlyAbove db0 c p y -> hHash y <> g0) ->
    (N.to_nat (hNumber p - hNumber c) < fuel)%nat ->
    exists s', unwindOld fuel (Some c) (Some p) s = Ret tt s' /\ unwound db0 c p s s'.
Proof.
  intros HF HK [nc Hc].
  assert (Hsame : forall q, (exists n, dbHeaders db0 !! (hHash q, n) = Some q) ->
            hHash q = hHash c -> q = c).
  { intros q [nq Hq] Heq. rewrite Heq in Hq. exact (HF _ _ _ _ _ Hq Hc). }
  induction fuel as [|fuel IH]; intros p s Hd Hp Hdb Hcache Hg Hguard Hfuel; [ lia | ].
  cbn [unwindOld Hash_]. rewrite !bind_ret_l.
  destruct (N.eqb_spec (hHash p) (hHash c)) as [Heq|Hne].
  - rewrite (Hsame p Hp Heq). exists s. split; [ reflexivity | ].
    split; [ auto | ]. split; [ auto | ]. split; [ | reflexivity ].
    intros y (H1 & H2 & H3). exfalso. apply H3.
    rewrite (descends_antisym _ _ _ H1 H2). reflexivity.
  - cbn [Number64 Parent]. rewrite bind_ret_l, bind_modify, bind_ret_l.
    inversion Hd as [Hc'|x p' Hread Hlt Hd' Hx]; subst; [ congruence | ].
    pose proof (descends_number _ _ _ Hd') as Hcp.
    pose proof Hread as Hread'. unfold rawdb.ReadHeader in Hread'.
    destruct (GetHeader_reads db0
                (set_headerDb (rawdb.DeleteCanonicalHash (hNumber p)) s)
                (hParent p) (sub64 (hNumber p) 1) p' HF Hdb Hcache Hread')
      as (c1 & Hget & Hcache1).
    unfold bind at 1. rewrite Hget. cbn [Hash_]. rewrite bind_ret_l.
    unfold GenesisHash. cbv [bind gets].
    cbn [genesisHashes set_headerCache set_headerDb]. rewrite Hg. cbv [ret].
    assert (Hp' : exists n, dbHeaders db0 !! (hHash p', n) = Some p').
    { exists (sub64 (hNumber p) 1). rewrite (HK _ _ _ Hread'). exact Hread'. }
    assert (Hstep : forall y, strictlyAbove db0 c p' y -> strictlyAbove db0 c p y).
    { intros y (H1 & H2 & H3). split; [ exact H1 | ]. split; [ | exact H3 ].
      apply (descends_step _ _ p p'); assumption. }
    destruct (N.eqb_spec (hHash p') g0) as [Hgen|Hngen].
    + assert (Hp'c : p' = c).
      { apply Hsame; [ exact Hp' | ].
        destruct (N.eq_dec (hHash p') (hHash c)) as [Hyes|Hno]; [ exact Hyes | ].
        exfalso. apply (Hguard p'); [ | exact Hgen ].
        split; [ exact Hd' | ]. split; [ | exact Hno ].
        apply (descends_step _ _ p p'); [ exact Hread | exact Hlt | apply descends_here ]. }
      eexists. split; [ reflexivity | ].
      split; [ | split; [ | split; [ | reflexivity ] ] ].
      * intros n v. cbn. intros Hn. apply lookup_delete_Some in Hn as [_ Hn]. exact Hn.
      * intros n Hn. cbn. apply lookup_delete_ne. subst p'. lia.
      * intros y Hy. destruct (strictlyAbove_cases _ _ _ _ _ Hread Hy) as [->|Hy'].
        -- cbn. apply lookup_delete_eq.
        -- exfalso. destruct Hy' as (H1 & H2 & H3). apply H3. subst p'.
           rewrite (descends_antisym _ _ _ H1 H2). reflexivity.
    + destruct (IH p' (set_headerCache c1
                         (set_headerDb (rawdb.DeleteCanonicalHash (hNumber p)) s)))
        as (s' & Hrun & Hu1 & Hu2 & Hu3 & Hu4); try assumption.
      { intros y Hy. apply Hguard. apply Hstep. exact Hy. }
      { lia. }
      exists s'. split; [ exact Hrun | ].
      split; [ | split; [ | split ] ].
      * intros n v Hn. apply Hu1 in Hn. cbn in Hn.
        apply lookup_delete_Some in Hn as [_ Hn]. exact Hn.
      * intros n Hn. rewrite (Hu2 n Hn). cbn. apply lookup_delete_ne. lia.
      * intros y Hy. destruct (strictlyAbove_cases _ _ _ _ _ Hread Hy) as [->|Hy'].
        -- destruct (dbCanonical (headerDb s') !! hNumber p) as [v|] eqn:Hv; [ | reflexivity ].
           apply Hu1 in Hv. cbn in Hv. rewrite lookup_delete_eq in Hv. discriminate.
        -- apply Hu3. exact Hy'.
      * rewrite Hu4. reflexivity.
Qed.

Lemma unwound_step db0 (c p p' : Header) (s s' : HC) c1 :
  rawdb.ReadHeader db0 (hParent p) (sub64 (hNumber p) 1) = Some p' ->
  hNumber p' < hNumber p -> hNumber c <= hNumber p' ->
  unwound db0 c p'
    (set_headerCache c1 (set_headerDb (rawdb.DeleteCanonicalHash (hNumber p)) s)) s' ->
  unwound db0 c p s s'.
Proof.
  intros Hread Hlt Hcp (Hu1 & Hu2 & Hu3 & Hu4).
  split; [ | split; [ | split ] ].
  - intros n v Hn. apply Hu1 in Hn. cbn in Hn.
    apply lookup_delete_Some in Hn as [_ Hn]. exact Hn.
  - intros n Hn. rewrite (Hu2 n Hn). cbn. apply lookup_delete_ne. lia.
  - intros y Hy. destruct (strictlyAbove_cases _ _ _ _ _ Hread Hy) as [->|Hy'].
    + destruct (dbCanonical (headerDb s') !! hNumber p) as [v|] eqn:Hv; [ | reflexivity ].
      apply Hu1 in Hv. cbn in Hv. rewrite lookup_delete_eq in Hv. discriminate.
    + apply Hu3. exact Hy'.
  - rewrite Hu4. reflexivity.
Qed.

Lemma reorgLoop_rollback db0 (head prev : Header) (g0 : Hash) fuel slices (s : HC) :
  storeFunctional db0 -> hashKeyed db0 ->
  (exists n, dbHeaders db0 !! (hHash head, n) = Some head) ->
  (exists n, dbHeaders db0 !! (hHash prev, n) = Some prev) ->
  descends db0 head prev ->
  dbHeaders (headerDb s) = dbHeaders db0 -> cacheAgrees s ->
  genesisHashes s !! 0%nat = Some g0 ->
  (forall y, strictlyAbove db0 head prev y -> hHash y <> g0) ->
  (N.to_nat (hNumber prev - hNumber head) < fuel)%nat ->
  exists s',
    reorgLoop fuel (Some head) (Some prev) (Some head) [] slices s = Ret ([], slices) s' /\
    unwound db0 head prev s s'.
Proof.
  intros HF HK Hhead Hprev Hd Hdb Hcache Hg Hguard Hfuel.
  destruct fuel as [|fuel]; [ lia | ].
  cbn [reorgLoop Hash_]. rewrite !bind_ret_l.
  destruct (N.eqb_spec (hHash prev) (hHash head)) as [Heq|Hne].
  - cbn [collectNew Hash_]. rewrite !bind_ret_l, N.eqb_refl, bind_ret_l.
    exists s. split; [ reflexivity | ].
    assert (Hph : prev = head).
    { destruct Hhead as [n1 H1], Hprev as [n2 H2]. rewrite Heq in H2.
      exact (HF _ _ _ _ _ H2 H1). }
    subst prev.
    split; [ auto | ]. split; [ auto | ]. split; [ | reflexivity ].
    intros y (H1 & H2 & H3). exfalso. apply H3.
    rewrite (descends_antisym _ _ _ H1 H2). reflexivity.
  - cbn [Number64 Parent]. rewrite bind_ret_l, bind_modify, bind_ret_l.
    inversion Hd as [Hc'|x p' Hread Hlt Hd' Hx]; subst; [ congruence | ].
    pose proof (descends_number _ _ _ Hd') as Hcp.
    pose proof Hread as Hread'. unfold rawdb.ReadHeader in Hread'.
    destruct (GetHeader_reads db0
                (set_headerDb (rawdb.DeleteCanonicalHash (hNumber prev)) s)
                (hParent prev) (sub64 (hNumber prev) 1) p' HF Hdb Hcache Hread')
      as (c1 & Hget & Hcache1).
    unfold bind at 1. rewrite Hget. rewrite !bind_ret_l, N.eqb_refl.
    destruct (unwindOld_rollback db0 head g0 HF HK Hhead (Datatypes.S fuel) p'
                (set_headerCache c1
                   (set_headerDb (rawdb.DeleteCanonicalHash (hNumber prev)) s)))
      as (s' & Hrun & Hu); try assumption.
    { exists (sub64 (hNumber prev) 1). rewrite (HK _ _ _ Hread'). exact Hread'. }
    { intros y (H1 & H2 & H3). apply Hguard. split; [ exact H1 | ]. split; [ | exact H3 ].
      apply (descends_step _ _ prev p'); assumption. }
    { lia. }
    exists s'. split.
    + unfold bind. rewrite Hrun. reflexivity.
    + apply (unwound_step db0 head prev p' s s' c1); assumption.
Qed.

(** X23.  Rolling the head back to one of its canonical ancestors works:
    when the new head lies on the stored branch of the current head, is
    the canonical header of its number and is found by its hash (a store
    with one header per hash, each under its own hash and with its number
    recorded, caches that agree with the store), and no header of the
    branch above it carries the hash [GenesisHashes[0]], then
    [SetCurrentHeader] returns three nil slots and no error, the new head
    is the current header, the canonical entry of every header of the old
    branch above the new head is deleted, every entry of a number up to
    that of the new head is kept, no entry is added and the header records
    are untouched. *)
Theorem SetCurrentHeader_rollback (fuel : nat) (head prev : Header) (g0 : Hash) (s : HC) :
  storeFunctional (headerDb s) -> hashKeyed (headerDb s) -> numbersRecorded (headerDb s) ->
  cacheAgrees s -> numberCacheAgrees s ->
  currentHeader s = Some prev ->
  (exists n, dbHeaders (headerDb s) !! (hHash prev, n) = Some prev) ->
  (exists n, dbHeaders (headerDb s) !! (hHash head, n) = Some head) ->
  descends (headerDb s) head prev ->
  rawdb.ReadCanonicalHash (headerDb s) (hNumber head) = hHash head ->
  hHash prev <> hParent head ->
  genesisHashes s !! 0%nat = Some g0 ->
  (forall y, strictlyAbove (headerDb s) head prev y -> hHash y <> g0) ->
  (N.to_nat (hNumber prev - hNumber head) < fuel)%nat ->
  exists s',
    SetCurrentHeader fuel head s = Ret ([None; None; None], None) s' /\
    currentHeader s' = Some head /\
    unwound (headerDb s) head prev s s'.
Proof.
  intros HF HK HN Hcache Hncache Hcur Hprev Hhead Hd Hcanon Hnff Hg Hguard Hfuel.
  destruct (GetHeaderByHash_finds (headStored head s) head HF HN Hcache Hncache Hhead)
    as (s1 & Hfind & Hc1 & Hnc1 & Hs1).
  assert (Hfc : findCommonHeader fuel (Some head) (headStored head s) = Ret (Some head) s1).
  { destruct fuel as [|fuel']; [ lia | ].
    cbn [findCommonHeader]. rewrite bind_gets. cbv zeta.
    change (rawdb.ReadCanonicalHash (headerDb (headStored head s)) (hNumber head))
      with (rawdb.ReadCanonicalHash (headerDb s) (hNumber head)).
    rewrite Hcanon, N.eqb_refl. exact Hfind. }
  assert (Hdb1 : headerDb s1 = headerDb (headStored head s)) by apply Hs1.
  destruct (reorgLoop_rollback (headerDb s) head prev g0 fuel (replicate 3 None) s1)
    as (s' & Hloop & Hu); try assumption.
  { rewrite Hdb1. reflexivity. }
  { destruct Hs1 as (HG & _). rewrite HG. exact Hg. }
  assert (Hrun : SetCurrentHeader fuel head s = Ret ([None; None; None], None) s').
  { unfold SetCurrentHeader.
    rewrite (CurrentHeader_some prev) by exact Hcur. cbv zeta.
    rewrite !bind_modify. apply N.eqb_neq in Hnff. rewrite Hnff.
    unfold headStored in Hfc. unfold bind at 1. rewrite Hfc.
    unfold bind at 1. rewrite Hloop. reflexivity. }
  exists s'. split; [ exact Hrun | ]. split.
  - pose proof (SetCurrentHeader_stores_head fuel head prev s Hcur) as Hst.
    rewrite Hrun in Hst. apply Hst.
  - destruct Hu as (Hu1 & Hu2 & Hu3 & Hu4).
    assert (Hcan1 : dbCanonical (headerDb s1) = dbCanonical (headerDb s))
      by (rewrite Hdb1; reflexivity).
    split; [ | split; [ | split ] ].
    + intros n v Hn. rewrite <- Hcan1. apply Hu1. exact Hn.
    + intros n Hn. rewrite <- Hcan1. apply Hu2. exact Hn.
    + exact Hu3.
    + rewrite Hu4, Hdb1. reflexivity.
Qed.

End Rollback.

(** ** The chain selector: switching between branches of equal length *)

Lemma sameDepth_descends db c p n :
  sameDepth db c p n -> descends db c p /\ descends db c n.
Proof.
  induction 1 as [|p n p' n' Hp Hn Hrp Hlp Hrn Hln Hsd [IHp IHn]].
  - split; apply descends_here.
  - split; [ apply (descends_step _ _ p p') | apply (descends_step _ _ n n') ]; assumption.
Qed.

Lemma sameDepth_base db c p n :
  sameDepth db c p n -> hHash p = hHash c -> p = c /\ n = c.
Proof. intros Hsd Heq. inversion Hsd; [ auto | contradiction ]. Qed.

Lemma strictlyAbove_here db c c' y : strictlyAbove db c c' y -> c' = c -> False.
Proof.
  intros (H1 & H2 & H3) ->. apply H3.
  rewrite (descends_antisym _ _ _ H1 H2). reflexivity.
Qed.

Lemma decreasing_NoDup (l : list Header) :
  StronglySorted (fun a b => hNumber b < hNumber a) l -> NoDup (map hNumber l).
Proof.
  induction 1 as [|x l Hs IH Hall]; simpl; constructor; [ | exact IH ].
  intros Hin. apply list_elem_of_fmap in Hin as (y & Heq & Hy).
  rewrite Forall_forall in Hall. specialize (Hall y Hy). lia.
Qed.

Section SiblingReorg.
Context `{Env}.

Local Abbreviation HC := (HeaderChain BlockChain).

Lemma slot_assign (y : Header) slices (s : HC) :
  validSlot y -> length slices = 3%nat ->
  exists slices',
    (if negb (Nat.eqb QuaiNetworkContext ZONE) then setSlice slices y else ret slices) s
    = Ret slices' s /\
    length slices' = 3%nat.
Proof.
  intros [Hz|(b & Hb & Hr)] Hlen.
  - rewrite Hz, Nat.eqb_refl. exists slices. split; [ reflexivity | exact Hlen ].
  - destruct (negb _); [ | exists slices; split; [ reflexivity | exact Hlen ] ].
    unfold setSlice. rewrite Hb, subByte_pred by lia.
    assert (Hlt : (N.to_nat (b - 1) <? length slices)%nat = true)
      by (apply Nat.ltb_lt; lia).
    rewrite Hlt. eexists. split; [ reflexivity | ]. rewrite length_insert. exact Hlen.
Qed.

Lemma slot_replay (y : Header) slices (s : HC) :
  validSlot y -> length slices = 3%nat ->
  exists slices',
    (if negb (Nat.eqb QuaiNetworkContext ZONE)
     then if negb (Nat.eqb (length (hLocation y)) 0) then setSlice slices y else ret slices
     else ret slices) s
    = Ret slices' s /\
    length slices' = 3%nat.
Proof.
  intros Hy Hlen. destruct (slot_assign y slices s Hy Hlen) as (sl & Hrun & Hsl).
  destruct (negb (Nat.eqb QuaiNetworkContext ZONE)); [ | eauto ].
  destruct (negb (Nat.eqb (length (hLocation y)) 0)); [ eauto | ].
  exists slices. split; [ reflexivity | exact Hlen ].
Qed.

Lemma replay_writes :
  forall (l : list Header) slices (s : HC),
    Forall validSlot l -> length slices = 3%nat ->
    exists slices' s',
      replay (map Some l) slices s = Ret slices' s' /\
      length slices' = 3%nat /\ replayed l s s'.
Proof.
  induction l as [|x rest IH]; intros slices s Hall Hlen.
  - exists slices, s. split; [ reflexivity | ]. split; [ exact Hlen | ].
    split; [ auto | ]. split; [ | reflexivity ]. intros _ y Hy. inversion Hy.
  - cbn [map replay Hash_ Number64]. rewrite !bind_ret_l, bind_modify.
    inversion Hall as [|x' rest' Hx Hrest]; subst.
    destruct (slot_replay x slices
                (set_headerDb (rawdb.WriteCanonicalHash (hHash x) (hNumber x)) s) Hx Hlen)
      as (sl1 & Hsl & Hlen1).
    unfold bind at 1. rewrite Hsl.
    destruct (IH sl1 (set_headerDb (rawdb.WriteCanonicalHash (hHash x) (hNumber x)) s)
                Hrest Hlen1) as (sl' & s' & Hrun & Hlen' & R1 & R2 & R3).
    exists sl', s'. split; [ exact Hrun | ]. split; [ exact Hlen' | ].
    split; [ | split ].
    + intros m Hm. rewrite R1 by (intros y Hy; apply Hm; right; exact Hy).
      cbn. apply lookup_insert_ne. apply Hm. left.
    + intros Hnd y Hy. simpl in Hnd. apply NoDup_cons in Hnd as [Hnotin Hnd].
      apply elem_of_cons in Hy as [->|Hy]; [ | exact (R2 Hnd y Hy) ].
      rewrite R1.
      * cbn. apply lookup_insert_eq.
      * intros y Hy Heq. apply Hnotin. apply list_elem_of_fmap. exists y. split; [ | exact Hy ].
        symmetry. exact Heq.
    + rewrite R3. reflexivity.
Qed.

Lemma unwound_base db0 (c : Header) (s : HC) : unwound db0 c c s s.
Proof.
  split; [ auto | ]. split; [ auto | ]. split; [ | reflexivity ].
  intros y Hy. exfalso. exact (strictlyAbove_here _ _ _ _ Hy eq_refl).
Qed.

Lemma unwound_step_db db0 (c p p' : Header) (s s1 s' : HC) :
  rawdb.ReadHeader db0 (hParent p) (sub64 (hNumber p) 1) = Some p' ->
  hNumber p' < hNumber p -> hNumber c <= hNumber p' ->
  headerDb s1 = rawdb.DeleteCanonicalHash (hNumber p) (headerDb s) ->
  unwound db0 c p' s1 s' ->
  unwound db0 c p s s'.
Proof.
  intros Hread Hlt Hcp Hdb (Hu1 & Hu2 & Hu3 & Hu4).
  rewrite Hdb in Hu1, Hu2, Hu4.
  split; [ | split; [ | split ] ].
  - intros n v Hn. apply Hu1 in Hn. cbn in Hn.
    apply lookup_delete_Some in Hn as [_ Hn]. exact Hn.
  - intros n Hn. rewrite (Hu2 n Hn). cbn. apply lookup_delete_ne. lia.
  - intros y Hy. destruct (strictlyAbove_cases _ _ _ _ _ Hread Hy) as [->|Hy'].
    + destruct (dbCanonical (headerDb s') !! hNumber p) as [v|] eqn:Hv; [ | reflexivity ].
      apply Hu1 in Hv. cbn in Hv. rewrite lookup_delete_eq in Hv. discriminate.
    + apply Hu3. exact Hy'.
  - rewrite Hu4. reflexivity.
Qed.

Lemma reorgLoop_sibling db0 (c : Header) (g0 : Hash) :
  storeFunctional db0 ->
  forall fuel p n stack slices (s : HC),
    sameDepth db0 c p n ->
    dbHeaders (headerDb s) = dbHeaders db0 -> cacheAgrees s ->
    genesisHashes s !! 0%nat = Some g0 ->
    (forall y, strictlyAbove db0 c p y -> hHash y <> g0) ->
    (forall y, descends db0 c y -> descends db0 y p -> validSlot y) ->
    length slices = 3%nat ->
    (N.to_nat (hNumber p - hNumber c) < fuel)%nat ->
    exists news slices' s',
      reorgLoop fuel (Some c) (Some p) (Some n) stack slices s
      = Ret (stack ++ map Some news, slices') s' /\
      length slices' = 3%nat /\ unwound db0 c p s s' /\
      (forall y, y ∈ news <-> strictlyAbove db0 c n y) /\
      StronglySorted (fun a b => hNumber b < hNumber a) news.
Proof.
  intros HF.
  induction fuel as [|fuel IH];
    intros p n stack slices s Hsd Hdb Hcache Hg Hguard Hslots Hlen Hfuel; [ lia | ].
  inversion Hsd as [Hp Hn|p0 n0 p' n' Hpc Hnc Hrp Hlp Hrn Hln Hsd']; subst.
  - cbn [reorgLoop Hash_]. rewrite !bind_ret_l, N.eqb_refl.
    cbn [collectNew Hash_]. rewrite !bind_ret_l, N.eqb_refl, bind_ret_l.
    exists [], slices, s. rewrite app_nil_r.
    split; [ reflexivity | ]. split; [ exact Hlen | ]. split; [ apply unwound_base | ].
    split; [ | constructor ].
    intros y. split; [ intros Hy; inversion Hy | ].
    intros Hy. exfalso. exact (strictlyAbove_here _ _ _ _ Hy eq_refl).
  - destruct (sameDepth_descends _ _ _ _ Hsd') as [Hdp' Hdn'].
    pose proof (descends_number _ _ _ Hdp') as Hcp'.
    pose proof (descends_number _ _ _ Hdn') as Hcn'.
    cbn [reorgLoop Hash_ Number64 Parent]. rewrite !bind_ret_l.
    rewrite (proj2 (N.eqb_neq _ _) Hpc). rewrite bind_modify.
    pose proof Hrp as Hrp'. unfold rawdb.ReadHeader in Hrp'.
    destruct (GetHeader_reads db0
                (set_headerDb (rawdb.DeleteCanonicalHash (hNumber p)) s)
                (hParent p) (sub64 (hNumber p) 1) p' HF Hdb Hcache Hrp')
      as (c1 & Hget1 & Hcache1).
    unfold bind at 1. rewrite Hget1. rewrite !bind_ret_l.
    rewrite (proj2 (N.eqb_neq _ _) Hnc). cbv zeta.
    pose proof Hrn as Hrn'. unfold rawdb.ReadHeader in Hrn'.
    destruct (GetHeader_reads db0
                (set_headerCache c1 (set_headerDb (rawdb.DeleteCanonicalHash (hNumber p)) s))
                (hParent n) (sub64 (hNumber n) 1) n' HF Hdb Hcache1 Hrn')
      as (c2 & Hget2 & Hcache2).
    unfold bind at 1. rewrite Hget2. cbn [Hash_]. rewrite bind_ret_l.
    set (s3 := set_headerCache c2
                 (set_headerCache c1 (set_headerDb (rawdb.DeleteCanonicalHash (hNumber p)) s)))
      in *.
    assert (Hg3 : genesisHashes s3 !! 0%nat = Some g0) by exact Hg.
    unfold GenesisHash. cbv [bind gets]. rewrite Hg3. cbv [ret].
    assert (Hn_above : strictlyAbove db0 c n n).
    { split; [ apply (descends_step _ _ n n'); assumption | ].
      split; [ apply descends_here | exact Hnc ]. }
    assert (Hup : forall y, strictlyAbove db0 c n' y -> strictlyAbove db0 c n y).
    { intros y (H1 & H2 & H3). split; [ exact H1 | ]. split; [ | exact H3 ].
      apply (descends_step _ _ n n'); assumption. }
    destruct (N.eqb_spec (hHash p') g0) as [Hgen|Hngen].
    + assert (Hp'c : hHash p' = hHash c).
      { destruct (N.eq_dec (hHash p') (hHash c)) as [Hyes|Hno]; [ exact Hyes | ].
        exfalso. apply (Hguard p'); [ | exact Hgen ].
        split; [ exact Hdp' | ]. split; [ | exact Hno ].
        apply (descends_step _ _ p p'); [ exact Hrp | exact Hlp | apply descends_here ]. }
      destruct (sameDepth_base _ _ _ _ Hsd' Hp'c) as [-> ->].
      exists [n], slices, s3. split; [ reflexivity | ]. split; [ exact Hlen | ].
      split; [ | split ].
      * apply (unwound_step_db db0 c p c s s3 s3 Hrp Hlp Hcp' eq_refl). apply unwound_base.
      * intros y. split.
        -- intros Hy. apply list_elem_of_singleton in Hy as ->. exact Hn_above.
        -- intros Hy. destruct (strictlyAbove_cases _ _ _ _ _ Hrn Hy) as [->|Hy'];
             [ left | exfalso; exact (strictlyAbove_here _ _ _ _ Hy' eq_refl) ].
      * repeat constructor.
    + assert (Hv : validSlot p').
      { apply Hslots; [ exact Hdp' | ].
        apply (descends_step _ _ p p'); [ exact Hrp | exact Hlp | apply descends_here ]. }
      destruct (slot_assign p' slices s3 Hv Hlen) as (sl & Hsl & Hlensl).
      change (fun s0 : HC => Ret slices s0) with (@ret HC (list (option Header)) slices).
      rewrite Hsl.
      destruct (IH p' n' (stack ++ [Some n]) sl s3 Hsd' Hdb Hcache2 Hg3)
        as (news & slices' & s' & Hrun & Hlen' & Hu & Hmem & Hsorted); try assumption.
      { intros y (H1 & H2 & H3). apply Hguard. split; [ exact H1 | ]. split; [ | exact H3 ].
        apply (descends_step _ _ p p'); assumption. }
      { intros y H1 H2. apply Hslots; [ exact H1 | ].
        apply (descends_step _ _ p p'); assumption. }
      { lia. }
      exists (n :: news), slices', s'. split.
      { rewrite Hrun, <- app_assoc. reflexivity. }
      split; [ exact Hlen' | ]. split; [ | split ].
      * exact (unwound_step_db db0 c p p' s s3 s' Hrp Hlp Hcp' eq_refl Hu).
      * intros y. split.
        -- intros Hy. apply elem_of_cons in Hy as [->|Hy]; [ exact Hn_above | ].
           apply Hup. apply Hmem. exact Hy.
        -- intros Hy. destruct (strictlyAbove_cases _ _ _ _ _ Hrn Hy) as [->|Hy'];
             [ left | right; apply Hmem; exact Hy' ].
      * constructor; [ exact Hsorted | ]. apply Forall_forall. intros y Hy.
        apply Hmem in Hy. destruct Hy as (_ & Hyn' & _).
        pose proof (descends_number _ _ _ Hyn'). lia.
Qed.

(** X24.  A reorg between branches of equal length works: when the old
    head and the new head reach the header that [findCommonHeader] returns
    after the same number of parent steps (store with one header per hash,
    header cache within the store), every header on the way has a location
    byte of 1 to 3 for the operating context (or the context is the zone
    context), and no header of the old branch above the common header
    carries the hash [GenesisHashes[0]], then [SetCurrentHeader] returns
    three slots and no error, the new head is the current header, every
    header of the new branch above the common header is the canonical
    entry of its number, the entries of a number up to that of the common
    header are kept, the entry of an old-branch header whose number no
    new-branch header has is deleted, and the header records are
    untouched. *)
Theorem SetCurrentHeader_equal_branches (fuel : nat) (head prev c : Header) (g0 : Hash)
    (s s1 : HC) :
  storeFunctional (headerDb s) -> cacheAgrees s ->
  currentHeader s = Some prev ->
  hHash prev <> hParent head ->
  findCommonHeader fuel (Some head) (headStored head s) = Ret (Some c) s1 ->
  sameDepth (headerDb s) c prev head ->
  genesisHashes s !! 0%nat = Some g0 ->
  (forall y, strictlyAbove (headerDb s) c prev y -> hHash y <> g0) ->
  (forall y, descends (headerDb s) c y ->
     descends (headerDb s) y prev \/ descends (headerDb s) y head -> validSlot y) ->
  (N.to_nat (hNumber prev - hNumber c) < fuel)%nat ->
  exists slices s',
    SetCurrentHeader fuel head s = Ret (slices, None) s' /\
    length slices = 3%nat /\
    currentHeader s' = Some head /\
    (forall y, strictlyAbove (headerDb s) c head y ->
       dbCanonical (headerDb s') !! hNumber y = Some (hHash y)) /\
    (forall n, n <= hNumber c ->
       dbCanonical (headerDb s') !! n = dbCanonical (headerDb s) !! n) /\
    (forall y, strictlyAbove (headerDb s) c prev y ->
       (forall y', strictlyAbove (headerDb s) c head y' -> hNumber y' <> hNumber y) ->
       dbCanonical (headerDb s') !! hNumber y = None) /\
    dbHeaders (headerDb s') = dbHeaders (headerDb s).
Proof.
  intros HF Hcache Hcur Hnff Hfc Hsd Hg Hguard Hslots Hfuel.
  assert (Hs1 : sameButCaches (headStored head s) s1).
  { apply (findCommonHeader_frame fuel (Some head)). rewrite Hfc. reflexivity. }
  assert (Hdb1 : headerDb s1 = headerDb (headStored head s)) by apply Hs1.
  assert (Hinv : trimInv (headerDb s) 0 (headStored head s)).
  { split; [ auto | ]. split; [ auto | exact Hcache ]. }
  pose proof (findCommonHeader_keeps _ fuel (Some head)
                (trimInv_readStable (headerDb s) 0) _ Hinv) as Hkeep.
  rewrite Hfc in Hkeep. simpl in Hkeep.
  assert (Hcache1 : cacheAgrees s1).
  { intros k x Hx. rewrite Hdb1. apply Hkeep. exact Hx. }
  destruct (reorgLoop_sibling (headerDb s) c g0 HF fuel prev head [] (replicate 3 None) s1 Hsd)
    as (news & sl & s2 & Hloop & Hlensl & Hu & Hmem & Hsorted); try assumption.
  { rewrite Hdb1. reflexivity. }
  { destruct Hs1 as (HG & _). rewrite HG. exact Hg. }
  { intros y H1 H2. apply Hslots; [ exact H1 | left; exact H2 ]. }
  { reflexivity. }
  destruct (replay_writes (rev news) sl s2) as (sl' & s' & Hreplay & Hlen' & R1 & R2 & R3).
  { apply Forall_forall. intros y Hy. apply list_elem_of_In, in_rev, list_elem_of_In in Hy.
    apply Hmem in Hy. destruct Hy as (H1 & H2 & _).
    apply Hslots; [ exact H1 | right; exact H2 ]. }
  { exact Hlensl. }
  assert (Hrun : SetCurrentHeader fuel head s = Ret (sl', None) s').
  { unfold SetCurrentHeader.
    rewrite (CurrentHeader_some prev) by exact Hcur. cbv zeta.
    rewrite !bind_modify. rewrite (proj2 (N.eqb_neq _ _) Hnff).
    unfold headStored in Hfc. unfold bind at 1. rewrite Hfc.
    unfold bind at 1. rewrite Hloop. cbn [fst snd app].
    rewrite <- map_rev. unfold bind. rewrite Hreplay. reflexivity. }
  assert (Hin : forall y, y ∈ rev news <-> strictlyAbove (headerDb s) c head y).
  { intros y. rewrite <- Hmem. rewrite !list_elem_of_In. symmetry. apply in_rev. }
  destruct Hu as (Hu1 & Hu2 & Hu3 & Hu4).
  assert (Hcan1 : dbCanonical (headerDb s1) = dbCanonical (headerDb s))
    by (rewrite Hdb1; reflexivity).
  exists sl', s'. split; [ exact Hrun | ]. split; [ exact Hlen' | ].
  split; [ | split; [ | split; [ | split ] ] ].
  - pose proof (SetCurrentHeader_stores_head fuel head prev s Hcur) as Hst.
    rewrite Hrun in Hst. apply Hst.
  - intros y Hy. apply R2; [ | apply Hin; exact Hy ].
    rewrite map_rev. apply NoDup_ListNoDup, NoDup_rev, NoDup_ListNoDup.
    apply decreasing_NoDup. exact Hsorted.
  - intros n Hn. rewrite R1.
    + rewrite (Hu2 n Hn), Hcan1. reflexivity.
    + intros y Hy. apply Hin in Hy. pose proof (strictlyAbove_number _ _ _ _ Hy). lia.
  - intros y Hy Hfree. rewrite R1.
    + apply Hu3. exact Hy.
    + intros y' Hy'. apply Hfree. apply Hin. exact Hy'.
  - rewrite R3, Hu4, Hdb1. reflexivity.
Qed.

End SiblingReorg.

(** ** The appender: registration below capacity *)

Section RegisterMore.
Context `{Env} {view : ChainView}.

Local Abbreviation HC := (HeaderChain BlockChain).

(** X25.  Registration below capacity: a block that passes the checks on
    a chain whose registry is not full and has no nil entry makes [Append]
    return nil with the header written to the store and exactly one entry
    added to the registry, which is then sorted by number and a
    permutation of the old registry with the header; a header that is
    registered already is registered once more, [Append] merging nothing. *)
Theorem Append_registers_head (fuel : nat) (block : Block) (s s0 : HC) (hs : list Header) :
  appended block s s0 ->
  length (heads s) <> maxHeadsQueueLimit ->
  nonNil (heads s) = Some hs ->
  exists s',
    Append fuel block s = Ret None s' /\
    Permutation (heads s ++ [Some (blockHeader block)]) (heads s') /\
    ascending (heads s') /\
    length (heads s') = Datatypes.S (length (heads s)) /\
    headerDb s' = rawdb.WriteHeader (blockHeader block) (headerDb s).
Proof.
  intros Happ Hlen Hnn. rewrite (Append_below_capacity fuel block s s0 Happ Hlen).
  destruct (appended_frame block s s0 Happ) as (_ & _ & _ & _ & Hdb0 & _ & _ & _ & Hh0).
  destruct (registerHead_returns (blockHeader block) (afterBody block s0) hs) as [s' Hreg].
  { rewrite afterBody_heads, Hh0. exact Hnn. }
  pose proof (registerHead_spec (blockHeader block) (afterBody block s0)) as Hspec.
  rewrite Hreg in Hspec. simpl in Hspec. destruct Hspec as (Hl & Hasc & Hperm & Hdb).
  rewrite afterBody_heads, Hh0 in Hl, Hperm. rewrite afterBody_headerDb, Hdb0 in Hdb.
  exists s'. unfold bind. rewrite Hreg.
  split; [ reflexivity | ]. split; [ exact Hperm | ]. split; [ exact Hasc | ].
  split; [ exact Hl | exact Hdb ].
Qed.

End RegisterMore.

(** ** Blocks by hash *)

Section BlocksMore.
Context `{Env} `{BlockSource BlockChain}.

Local Abbreviation HC := (HeaderChain BlockChain).

Lemma GetBlocksFromHash_loop_bound (k : nat) :
  forall hash number acc (s : HC),
    exists l,
      GetBlocksFromHash_loop k hash number acc s = Ret (acc ++ l) s /\
      (length l <= k)%nat /\
      (forall b, head l = Some b -> bcGetBlock (bc s) hash number = Some b).
Proof.
  induction k as [|k IH]; intros hash number acc s.
  - exists []. rewrite app_nil_r. split; [ reflexivity | ]. split; [ simpl; lia | discriminate ].
  - cbn [GetBlocksFromHash_loop]. unfold GetBlock. cbv [bind gets ret].
    destruct (bcGetBlock (bc s) hash number) as [b|] eqn:Hb.
    + destruct (IH (hParent (blockHeader b)) (sub64 number 1) (acc ++ [b]) s)
        as (l & Hrun & Hlen & _).
      exists (b :: l). rewrite Hrun, <- app_assoc.
      split; [ reflexivity | ]. split; [ simpl; lia | ].
      intros b' [= <-]. reflexivity.
    + exists []. rewrite app_nil_r. split; [ reflexivity | ]. split; [ simpl; lia | discriminate ].
Qed.

(** X26.  [GetBlocksFromHash] always returns and changes nothing but the
    number cache; it hands back at most [n] blocks, none when [n] is zero
    or negative and none when the hash has no number; the first block it
    returns is the one the body chain holds under the hash and its number. *)
Theorem GetBlocksFromHash_bounds (hash : Hash) (n : Z) (s : HC) :
  exists blocks s',
    GetBlocksFromHash hash n s = Ret blocks s' /\
    sameButCaches s s' /\
    (length blocks <= Z.to_nat n)%nat /\
    ((n <= 0)%Z -> blocks = []) /\
    (returned (GetBlockNumber hash s) = Some None -> blocks = []) /\
    (forall b, head blocks = Some b ->
       exists number,
         returned (GetBlockNumber hash s) = Some (Some number) /\
         bcGetBlock (bc s) hash number = Some b).
Proof.
  unfold GetBlocksFromHash.
  destruct (GetBlockNumber_returns hash s) as (r & s1 & Hnum & _).
  assert (Hs1 : sameButCaches s s1).
  { pose proof (proj2 (cacheStable_readStable _ (sameButCaches_stable s)) hash s
                  (sameButCaches_refl s)) as Hk.
    rewrite Hnum in Hk. exact Hk. }
  unfold bind. rewrite Hnum. destruct r as [number|].
  - destruct (GetBlocksFromHash_loop_bound (Z.to_nat n) hash number [] s1)
      as (l & Hrun & Hlen & Hfirst).
    exists l, s1. split; [ exact Hrun | ]. split; [ exact Hs1 | ]. split; [ exact Hlen | ].
    split; [ | split ].
    + intros Hn. destruct l as [|b l]; [ reflexivity | simpl in Hlen; lia ].
    + discriminate.
    + intros b Hb. exists number. split; [ reflexivity | ].
      assert (Hbc : bc s1 = bc s) by apply Hs1.
      rewrite <- Hbc. apply Hfirst. exact Hb.
  - exists [], s1. split; [ reflexivity | ]. split; [ exact Hs1 | ].
    split; [ simpl; lia | ]. split; [ reflexivity | ]. split; [ reflexivity | discriminate ].
Qed.

End BlocksMore.

(** ** The genesis record under sequences of calls *)

Section GenesisRecord.
Context `{Env} {view : ChainView}.
Variable U : Database.
Variable g : Header.
Hypothesis HF : storeFunctional U.
Hypothesis HK : hashKeyed U.
Hypothesis HL : wellLinked U.

Local Abbreviation HC := (HeaderChain BlockChain).

Lemma rooted_readStable : readStable (rooted U g).
Proof.
  split.
  - intros hash number s ((Hsub & Hc & Hh) & Hg & HG & Hrec). unfold GetHeader. rewrite bind_gets.
    destruct (lru.Get hash (headerCache s)) as [[x|] c'] eqn:Hget.
    + rewrite bind_modify. simpl.
      split; [ split; [ exact Hsub | split; [ | exact Hh ] ] | repeat split; assumption ].
      intros k y Hy. simpl in Hy. apply Hc.
      apply (lru_Get_elem hash). rewrite Hget. exact Hy.
    + rewrite bind_gets.
      destruct (rawdb.ReadHeader (headerDb s) hash number) as [x|] eqn:Hr; simpl.
      * split; [ split; [ exact Hsub | split; [ | exact Hh ] ] | repeat split; assumption ].
        intros k y Hy. simpl in Hy. apply lru_Add_elem in Hy as [[= -> ->]|Hy].
        -- exists number. apply Hsub. exact Hr.
        -- apply Hc, Hy.
      * repeat split; assumption.
  - intros hash s Hs. unfold GetBlockNumber. rewrite bind_gets.
    destruct (lru.Get hash (numberCache s)) as [[x|] c'].
    + rewrite bind_modify. exact Hs.
    + rewrite bind_gets. destruct (rawdb.ReadHeaderNumber _ _); exact Hs.
Qed.

Lemma rooted_viewStable : viewStable (rooted U g).
Proof.
  split; [ exact rooted_readStable | ].
  intros hash number s Hs. unfold GetTd. rewrite bind_gets.
  destruct (rawdb.ReadTd _ _ _); [ rewrite bind_modify | ]; exact Hs.
Qed.

Lemma rooted_GetHeader hash number p (s s' : HC) :
  rooted U g s ->
  GetHeader hash number s = Ret (Some p) s' ->
  exists k, dbHeaders U !! (hash, k) = Some p.
Proof.
  intros ((Hsub & Hc & _) & _). unfold GetHeader. rewrite bind_gets.
  destruct (lru.Get hash (headerCache s)) as [[x|] c'] eqn:Hget.
  - rewrite bind_modify. intros [= <- _]. apply Hc.
    apply lru_Get_hit. rewrite Hget. reflexivity.
  - rewrite bind_gets.
    destruct (rawdb.ReadHeader (headerDb s) hash number) as [x|] eqn:Hr;
      [ rewrite bind_modify | ]; intros [= <- _].
    exists number. apply Hsub. exact Hr.
Qed.

Lemma rooted_GetHeaderByHash hash c (s s' : HC) :
  rooted U g s ->
  GetHeaderByHash hash s = Ret (Some c) s' ->
  exists k, dbHeaders U !! (hash, k) = Some c.
Proof.
  intros Hs. unfold GetHeaderByHash. unfold bind.
  pose proof (proj2 rooted_readStable hash s Hs) as Hk.
  destruct (GetBlockNumber hash s) as [[n|] s1|s1|]; try discriminate.
  simpl in Hk. apply rooted_GetHeader. exact Hk.
Qed.

(** The common header of a header of [U] lies on its branch in [U], or
    has the hash of the genesis header. *)
Lemma findCommonHeader_rooted fuel :
  forall x (s : HC) c s',
    (exists n, dbHeaders U !! (hHash x, n) = Some x) ->
    rooted U g s ->
    findCommonHeader fuel (Some x) s = Ret (Some c) s' ->
    descends U c x \/ hHash c = hHash g.
Proof.
  induction fuel as [|fuel IH]; intros x s c s' [n Hx] Hs Hrun; [ discriminate | ].
  simpl in Hrun. rewrite bind_gets in Hrun. cbv zeta in Hrun.
  destruct (N.eqb_spec (rawdb.ReadCanonicalHash (headerDb s) (hNumber x)) (hHash x))
    as [Heq|Hne].
  - rewrite Heq in Hrun. left.
    destruct (rooted_GetHeaderByHash _ _ _ _ Hs Hrun) as (k & Hk).
    rewrite (HF _ _ _ _ _ Hk Hx). apply descends_here.
  - unfold GenesisHash in Hrun. unfold bind at 1 2 in Hrun. unfold gets in Hrun at 1.
    pose proof Hs as (_ & _ & HG & _). rewrite HG in Hrun. cbv [ret] in Hrun.
    destruct (N.eqb_spec (rawdb.ReadCanonicalHash (headerDb s) (hNumber x)) (hHash g))
      as [Hg'|_].
    + rewrite Hg' in Hrun. right.
      destruct (rooted_GetHeaderByHash _ _ _ _ Hs Hrun) as (k & Hk).
      exact (HK _ _ _ Hk).
    + unfold bind in Hrun.
      pose proof (proj1 rooted_readStable (hParent x) (sub64 (hNumber x) 1) s Hs) as Hkeep.
      destruct (GetHeader (hParent x) (sub64 (hNumber x) 1) s) as [[p|] s1|s1|] eqn:Hget;
        try discriminate.
      * destruct (rooted_GetHeader _ _ _ _ _ Hs Hget) as (k & Hk).
        destruct (HL _ _ Hx _ _ Hk) as [-> Hlt].
        simpl in Hkeep.
        assert (Hp : exists n', dbHeaders U !! (hHash p, n') = Some p).
        { exists (sub64 (hNumber x) 1). rewrite (HK _ _ _ Hk). exact Hk. }
        destruct (IH p s1 c s' Hp Hkeep Hrun) as [Hd|Hgen].
        -- left. apply (descends_step _ _ x p); assumption.
        -- right. exact Hgen.
      * destruct fuel; discriminate.
Qed.

Lemma rooted_delete hash n (s : HC) :
  (hash, n) <> (hHash g, 0) ->
  rooted U g s -> rooted U g (set_headerDb (rawdb.DeleteHeader hash n) s).
Proof.
  intros Hne ((Hsub & Hc & Hh) & Hg & HG & Hrec).
  split; [ split; [ | split; [ exact Hc | exact Hh ] ] | split; [ exact Hg | split; [ exact HG | ] ] ].
  - intros k y. simpl. intros Hk. apply lookup_delete_Some in Hk as [_ Hk]. apply Hsub, Hk.
  - simpl. rewrite lookup_delete_ne by exact Hne. exact Hrec.
Qed.

Lemma rooted_bc f (s : HC) : rooted U g s -> rooted U g (set_bc f s).
Proof. intros Hs. exact Hs. Qed.

(** Down the branch of a header of [U], [trim] deletes records of a
    number above the common header's only, stale cache entries and
    records gone before notwithstanding. *)
Lemma trim_rooted c fuel :
  forall x (s : HC),
    descends U c x -> rooted U g s ->
    holds (trim fuel (Some c) (Some x) s) (fun _ => rooted U g) (rooted U g).
Proof.
  induction fuel as [|fuel IH]; intros x s Hd Hs; simpl; [ exact Logic.I | ].
  rewrite !bind_ret_l.
  destruct (N.eqb_spec (hHash x) (hHash c)) as [Heq|Hne]; [ exact Hs | ].
  rewrite !bind_modify.
  inversion Hd as [Hc|y p Hread Hlt Hd' Hy]; subst; [ congruence | ].
  pose proof (descends_number _ _ _ Hd') as Hcp.
  assert (Hs1 : rooted U g (set_bc (bcTrim x)
                 (set_headerDb (rawdb.DeleteHeader (hHash x) (hNumber x)) s))).
  { apply rooted_bc, rooted_delete; [ | exact Hs ]. intros [= _ Hx]. lia. }
  pose proof (proj1 rooted_readStable (hParent x) (sub64 (hNumber x) 1) _ Hs1) as Hkeep.
  unfold bind at 1.
  destruct (GetHeader (hParent x) (sub64 (hNumber x) 1) _) as [[q|] s2|s2|] eqn:Hget;
    simpl in Hkeep |- *; try exact Hkeep.
  destruct (rooted_GetHeader _ _ _ _ _ Hs1 Hget) as (k & Hk).
  unfold rawdb.ReadHeader in Hread.
  rewrite (HF _ _ _ _ _ Hk Hread). apply IH; assumption.
Qed.

Lemma rooted_heads l (s : HC) :
  (forall h, Some h ∈ l -> Some h ∈ heads s) -> rooted U g s -> rooted U g (set_heads l s).
Proof.
  intros Hl ((Hsub & Hc & Hh) & Hrest).
  split; [ split; [ exact Hsub | split; [ exact Hc | ] ] | exact Hrest ].
  intros h Hin. apply Hh, Hl, Hin.
Qed.

Lemma evictOldest_rooted fuel : keeps (rooted U g) (evictOldest fuel).
Proof.
  intros s Hs. unfold evictOldest. rewrite bind_gets.
  destruct (Nat.eqb _ _); [ | exact Hs ].
  destruct (heads s) as [|oldest rest] eqn:Hheads; [ exact Hs | ].
  pose proof (findCommonHeader_keeps _ fuel oldest rooted_readStable s Hs) as Hkeep.
  unfold bind at 1.
  destruct (findCommonHeader fuel oldest s) as [c s1|s1|] eqn:Hfind; simpl in Hkeep;
    [ | exact Hkeep | exact Logic.I ].
  assert (H1 : heads s1 = heads s).
  { apply (findCommonHeader_frame fuel oldest). rewrite Hfind. reflexivity. }
  destruct c as [c|]; [ | exact Hkeep ].
  destruct oldest as [o|]; [ | destruct fuel; discriminate ].
  assert (Ho : exists n, dbHeaders U !! (hHash o, n) = Some o).
  { destruct Hs as ((_ & _ & Hh) & _). apply Hh. rewrite Hheads. left. }
  assert (Htrim : holds (trim fuel (Some c) (Some o) s1) (fun _ => rooted U g) (rooted U g)).
  { destruct (findCommonHeader_rooted fuel o s c s1 Ho Hs Hfind) as [Hd|Hgen].
    - apply trim_rooted; assumption.
    - apply (trim_keeps (rooted U g)); [ exact rooted_readStable | | | exact Hkeep ].
      + intros t hash n Hne Ht. apply rooted_delete; [ | exact Ht ].
        intros [= Hh _]. apply (Hne c eq_refl). congruence.
      + intros t x Ht. exact Ht. }
  unfold bind at 1.
  destruct (trim fuel (Some c) (Some o) s1) as [e s2|s2|] eqn:Hrun; simpl in Htrim;
    [ | exact Htrim | exact Logic.I ].
  assert (H2 : heads s2 = heads s1).
  { apply (trim_heads fuel (Some c) (Some o)). rewrite Hrun. reflexivity. }
  destruct e as [e|]; [ exact Htrim | ].
  rewrite bind_modify. simpl. apply rooted_heads; [ | exact Htrim ].
  intros h Hin. rewrite H2, H1, Hheads. right. exact Hin.
Qed.

Lemma registerHead_rooted header :
  (exists n, dbHeaders U !! (hHash header, n) = Some header) ->
  keeps (rooted U g) (registerHead header).
Proof.
  intros Hin s Hs. unfold registerHead, sortHeads.
  rewrite bind_modify, bind_gets. cbn [heads set_heads]. cbv zeta. rewrite bind_modify.
  assert (Hr : rooted U g (set_heads (fst (sortSlice (heads s ++ [Some header])))
                             (set_heads (heads s ++ [Some header]) s))).
  { destruct Hs as ((Hsub & Hc & Hh) & Hrest).
    split; [ split; [ exact Hsub | split; [ exact Hc | ] ] | exact Hrest ].
    cbn [heads set_heads]. intros h Hh'.
    rewrite <- (sortSlice_Permutation (heads s ++ [Some header])) in Hh'.
    apply elem_of_app in Hh' as [Hh'|Hh']; [ apply Hh, Hh' | ].
    apply list_elem_of_singleton in Hh'. injection Hh' as ->. exact Hin. }
  destruct (snd _); exact Hr.
Qed.

Lemma rooted_write header (s : HC) :
  dbHeaders U !! (hHash header, hNumber header) = Some header ->
  hHash header <> hHash g ->
  rooted U g s -> rooted U g (set_headerDb (rawdb.WriteHeader header) s).
Proof.
  intros Hin Hne ((Hsub & Hc & Hh) & Hg & HG & Hrec).
  split; [ split; [ | split; [ exact Hc | exact Hh ] ] | split; [ exact Hg | split; [ exact HG | ] ] ].
  - intros k y. simpl. intros Hk. apply lookup_insert_Some in Hk as [[<- <-]|[_ Hk]].
    + exact Hin.
    + apply Hsub, Hk.
  - simpl. rewrite lookup_insert_ne by congruence. exact Hrec.
Qed.

Lemma Append_rooted fuel block :
  dbHeaders U !! (hHash (blockHeader block), hNumber (blockHeader block))
    = Some (blockHeader block) ->
  hHash (blockHeader block) <> hHash g ->
  keeps (rooted U g) (Append fuel block).
Proof.
  intros Hin Hne. unfold Append.
  apply keeps_bind; [ apply Appendable_keeps, rooted_viewStable | ].
  intros [e|]; [ apply keeps_ret | ]. cbv zeta.
  apply keeps_bind; [ apply keeps_gets | intros db ].
  destruct (batchWrite _ _); [ apply keeps_ret | ].
  apply keeps_bind; [ apply keeps_modify; intros ?; apply rooted_write; assumption | intros _ ].
  apply keeps_bind; [ apply keeps_gets | intros b ].
  apply keeps_bind; [ apply keeps_modify; intros ? Hs; exact Hs | intros _ ].
  destruct (snd (fst (bcAppend block b))).
  { apply keeps_bind; [ | intros _; apply keeps_ret ].
    apply keeps_modify. intros ?. apply rooted_delete. congruence. }
  apply keeps_bind; [ apply keeps_modify; intros ? Hs; exact Hs | intros _ ].
  apply keeps_bind.
  { destruct (Nat.ltb _ _); [ apply keeps_modify; intros ? Hs; exact Hs | apply keeps_ret ]. }
  intros _.
  apply keeps_bind; [ apply evictOldest_rooted | ].
  intros [e|]; [ apply keeps_ret | ].
  apply keeps_bind; [ | intros _; apply keeps_ret ].
  apply registerHead_rooted. eauto.
Qed.

Lemma SetCurrentHeader_rooted fuel head : keeps (rooted U g) (SetCurrentHeader fuel head).
Proof.
  apply SetCurrentHeader_keeps; [ exact rooted_readStable | | | ];
    intros; assumption.
Qed.

Lemma Reset_rooted fuel : keeps (rooted U g) (Reset fuel).
Proof.
  unfold Reset, ResetWithGenesisBlock.
  apply keeps_bind; [ apply keeps_gets | intros g0 ].
  apply keeps_bind; [ apply keeps_gets | intros hs ].
  apply keeps_bind; [ | intros _; apply keeps_ret ].
  apply (trimAll_keeps _ fuel g).
  - exact rooted_readStable.
  - intros s (_ & Hg & _). exact Hg.
  - intros s hash n Hne Hs. apply rooted_delete; [ congruence | exact Hs ].
  - intros s x Hs. exact Hs.
Qed.

Lemma afterCall_rooted c (s s' : HC) :
  admitted U g c -> rooted U g s -> afterCall c s = Some s' -> rooted U g s'.
Proof.
  intros Hc Hs. destruct c as [fuel block|fuel head|fuel|hash number|hash]; simpl.
  - destruct Hc as [Hin Hne]. apply (keeps_final _ _ s s' (Append_rooted fuel block Hin Hne) Hs).
  - apply (keeps_final _ _ s s' (SetCurrentHeader_rooted fuel head) Hs).
  - apply (keeps_final _ _ s s' (Reset_rooted fuel) Hs).
  - apply (keeps_final _ _ s s' (proj1 rooted_readStable hash number) Hs).
  - apply (keeps_final _ _ s s' (GetHeaderByHash_keeps _ hash rooted_readStable) Hs).
Qed.

(** X28.  The genesis record survives every sequence of calls.  [U] is
    a well-formed family of headers: one header per hash, each under its
    own hash, a parent recorded one number below and with a smaller
    number.  From a chain that stores its genesis header [g] at number 0,
    has the hash of [g] as genesis hash of the context and stores, caches
    and registers headers of [U] only, every sequence of [Append],
    [SetCurrentHeader], [Reset], [GetHeader] and [GetHeaderByHash] calls
    that each end, returning or panicking, with the appended headers in
    [U] and of another hash than [g], leaves such a chain again, the
    record of [g] in its store: an eviction trims the branch of the oldest
    head above its common header only, also when records of that branch
    are gone and the header cache still serves them. *)
Theorem genesis_record_survives (l : list call) (s s' : HC) :
  Forall (admitted U g) l ->
  rooted U g s ->
  afterCalls l s = Some s' ->
  rooted U g s' /\ rawdb.ReadHeader (headerDb s') (hHash g) 0 = Some g.
Proof.
  intros Hl Hs Hrun.
  assert (Hr : rooted U g s').
  { revert s Hs Hrun. induction Hl as [|c l Hc Hl IH]; intros s Hs; simpl.
    - intros [= <-]. exact Hs.
    - destruct (afterCall c s) as [s1|] eqn:Hcall; [ | discriminate ].
      apply IH. exact (afterCall_rooted c s s1 Hc Hs Hcall). }
  split; [ exact Hr | ]. apply Hr.
Qed.

End GenesisRecord.

(** ** The further properties on the concrete chains *)

(** X1 on the chain [forked], with the consensus collaborator that reads
    through the chain view: the block without location is refused once
    its parent A2 has been read, which leaves A2 in the header cache and
    nothing else behind. *)
Lemma Append_rejected_unchanged_witness :
  exists s0,
    Append (H := Cases.reading) 10 Cases.misplaced Demo.forked
      = Ret (Some "invalid location"%string) s0 /\
    sameButCaches Demo.forked s0 /\
    lru.Contains 120 (headerCache Demo.forked) = false /\
    lru.Contains 120 (headerCache s0) = true.
Proof.
  destruct (VerifyHeader (Env := Cases.reading) (blockHeader Cases.misplaced) Demo.forked)
    as [[e|] s0|s0|] eqn:Hv; try (vm_compute in Hv; discriminate).
  destruct (Append_rejected_unchanged (H := Cases.reading) 10 Cases.misplaced Demo.forked s0 e)
    as [Hrun Hsame]; [ left; exact Hv | ].
  exists s0. vm_compute in Hv. injection Hv as <- <-.
  split; [ exact Hrun | ]. split; [ exact Hsame | ]. split; reflexivity.
Defined.

(** X2 on the chain [full]: appending A3 evicts C1 and selects nothing. *)
Lemma Append_selects_nothing_witness :
  exists s',
    finalState (Append (H := Demo.env) 10 Demo.blockA3 Demo.full) = Some s' /\
    dbCanonical (headerDb s') = dbCanonical (headerDb Demo.full) /\
    currentHeader s' = Some Demo.G.
Proof.
  destruct (Append (H := Demo.env) 10 Demo.blockA3 Demo.full) as [e s'|s'|] eqn:Hrun;
    try (vm_compute in Hrun; discriminate).
  exists s'. split; [ reflexivity | ].
  destruct (Append_selects_nothing (H := Demo.env) 10 Demo.blockA3 Demo.full s')
    as (Hcanon & Hcur & _).
  - rewrite Hrun. reflexivity.
  - split; [ exact Hcanon | exact Hcur ].
Defined.

(** X3 on the chain [forked], whose registry is empty: A3 is appended and
    found by its hash. *)
Lemma Append_then_GetHeaderByHash_witness :
  exists s1 s2,
    finalState (Append (H := Demo.env) 10 Demo.blockA3 Demo.forked) = Some s1 /\
    GetHeaderByHash (H := Demo.env) 130 s1 = Ret (Some Demo.A3) s2 /\
    HasHeader (H := Demo.env) 130 3 s1 = Ret true s1.
Proof.
  destruct (Append (H := Demo.env) 10 Demo.blockA3 Demo.forked) as [e s1|s1|] eqn:Hrun;
    try (vm_compute in Hrun; discriminate).
  destruct (Append_then_GetHeaderByHash (H := Demo.env) 10 Demo.blockA3 Demo.forked
              Demo.forked s1)
    as [[s2 Hget] Hhas].
  - repeat split.
  - discriminate.
  - reflexivity.
  - reflexivity.
  - rewrite Hrun. reflexivity.
  - exists s1, s2. split; [ reflexivity | ]. split; [ exact Hget | exact Hhas ].
Defined.

(** X4 on the chain [primed], whose header cache holds A3 already: A3 is
    appended on the current head A2 and made the head. *)
Lemma Append_then_SetCurrentHeader_witness :
  lru.Contains 130 (headerCache Cases.primed) = true /\
  exists s1 s2 s3,
    finalState (Append (H := Demo.env) 10 Demo.blockA3 Cases.primed) = Some s1 /\
    finalState (SetCurrentHeader (H := Demo.env) 10 Demo.A3 s1) = Some s2 /\
    GetHeaderByNumber (H := Demo.env) 3 s2 = Ret (Some Demo.A3) s3 /\
    CurrentHeader (H := Demo.env) s2 = Ret Demo.A3 s2.
Proof.
  split; [ reflexivity | ].
  destruct (Append (H := Demo.env) 10 Demo.blockA3 Cases.primed) as [e s1|s1|] eqn:Hrun;
    try (vm_compute in Hrun; discriminate).
  destruct (SetCurrentHeader (H := Demo.env) 10 Demo.A3 s1) as [r s2|s2|] eqn:Hset;
    try (vm_compute in Hrun; injection Hrun as _ <-; vm_compute in Hset; discriminate).
  destruct (Append_then_SetCurrentHeader (H := Demo.env) 10 Demo.blockA3 Demo.A2
              Cases.primed Cases.primed s1 s2) as ([s3 Hnum] & _ & Hcur & _).
  - repeat split.
  - discriminate.
  - reflexivity.
  - reflexivity.
  - discriminate.
  - intros x Hx. vm_compute in Hx.
    inversion Hx as [|? ? ? Hx']; [ reflexivity | inversion Hx' ].
  - rewrite Hrun. reflexivity.
  - change (blockHeader Demo.blockA3) with Demo.A3. rewrite Hset. reflexivity.
  - exists s1, s2, s3. split; [ reflexivity | ]. split; [ rewrite Hset; reflexivity | ].
    split; [ exact Hnum | exact Hcur ].
Defined.

(** X5 on the chain [forked]: a reorg to B4, and a chain without current
    header. *)
Lemma SetCurrentHeader_always_stores_head_witness :
  SetCurrentHeader (H := Demo.env) 10 Demo.G Cases.fresh = Panic Cases.fresh /\
  exists r s',
    SetCurrentHeader (H := Demo.env) 10 Demo.B4 Demo.forked = Ret r s' /\
    currentHeader s' = Some Demo.B4 /\
    rawdb.ReadHeadBlockHash (headerDb s') = 240 /\
    snd r = None /\ length (fst r) = 3%nat.
Proof.
  split.
  - apply (SetCurrentHeader_always_stores_head (H := Demo.env) 10 Demo.G Cases.fresh).
    reflexivity.
  - destruct (SetCurrentHeader_always_stores_head (H := Demo.env) 10 Demo.B4 Demo.forked)
      as (_ & Hstate & Hres).
    destruct (SetCurrentHeader (H := Demo.env) 10 Demo.B4 Demo.forked) as [r s'|s'|] eqn:Hrun;
      try (vm_compute in Hrun; discriminate).
    exists r, s'. split; [ reflexivity | ].
    destruct (Hstate s') as (Hcur & _ & Hhead & _); [ eexists; reflexivity | reflexivity | ].
    destruct (Hres r eq_refl) as [Herr Hlen].
    repeat split; assumption.
Defined.

(** X6 on the chain [forked]: A3, of location byte 1 in context 0,
    extends the head A2 and lands in slot 0. *)
Lemma SetCurrentHeader_fast_forward_slots_witness :
  returned (SetCurrentHeader (H := Demo.env) 10 Demo.A3 Demo.forked)
  = Some ([Some Demo.A3; None; None], None).
Proof.
  destruct (SetCurrentHeader_fast_forward_slots (H := Demo.env) 10 Demo.A3 Demo.A2 Demo.forked
              eq_refl eq_refl) as (_ & Hslot & _).
  apply (Hslot 1); [ discriminate | reflexivity | lia ].
Defined.

(** X7 on the chain [forked]: after selecting A3 the chain is not empty;
    after selecting the genesis header it is. *)
Lemma empty_after_SetCurrentHeader_witness :
  (exists s', finalState (SetCurrentHeader (H := Demo.env) 10 Demo.A3 Demo.forked) = Some s' /\
     empty (H := Demo.env) s' = Ret false s') /\
  (exists s', finalState (SetCurrentHeader (H := Demo.env) 10 Demo.G Demo.forked) = Some s' /\
     empty (H := Demo.env) s' = Ret true s').
Proof.
  split.
  - destruct (SetCurrentHeader (H := Demo.env) 10 Demo.A3 Demo.forked) as [r s'|s'|] eqn:Hrun;
      try (vm_compute in Hrun; discriminate).
    exists s'. split; [ reflexivity | ].
    apply (empty_after_SetCurrentHeader (H := Demo.env) 10 Demo.A3 Demo.G Demo.forked s');
      [ reflexivity | eexists; reflexivity | rewrite Hrun; reflexivity ].
  - destruct (SetCurrentHeader (H := Demo.env) 10 Demo.G Demo.forked) as [r s'|s'|] eqn:Hrun;
      try (vm_compute in Hrun; discriminate).
    exists s'. split; [ reflexivity | ].
    apply (empty_after_SetCurrentHeader (H := Demo.env) 10 Demo.G Demo.G Demo.forked s');
      [ reflexivity | eexists; reflexivity | rewrite Hrun; reflexivity ].
Defined.

Lemma forked_functional : storeFunctional (headerDb Demo.forked).
Proof. apply storeFunctional_check. apply (bool_decide_unpack _). vm_compute. exact Logic.I. Qed.

Lemma forked_keyed : hashKeyed (headerDb Demo.forked).
Proof. apply hashKeyed_check. apply (bool_decide_unpack _). vm_compute. exact Logic.I. Qed.

Lemma forked_linked : wellLinked (headerDb Demo.forked).
Proof. apply wellLinked_check. apply (bool_decide_unpack _). vm_compute. exact Logic.I. Qed.

Lemma forked_recorded : numbersRecorded (headerDb Demo.forked).
Proof. apply numbersRecorded_check. apply (bool_decide_unpack _). vm_compute. exact Logic.I. Qed.

Lemma forked_cache : cacheAgrees Demo.forked.
Proof. intros k x Hx. vm_compute in Hx. inversion Hx. Qed.

Lemma forked_numberCache : numberCacheAgrees Demo.forked.
Proof. intros k x Hx. vm_compute in Hx. inversion Hx. Qed.

Lemma forked_C1_B4 : descends (headerDb Demo.forked) Demo.C1 Demo.B4.
Proof.
  apply (descends_step _ _ Demo.B4 Demo.B3); [ reflexivity | reflexivity | ].
  apply (descends_step _ _ Demo.B3 Demo.B2); [ reflexivity | reflexivity | ].
  apply (descends_step _ _ Demo.B2 Demo.C1); [ reflexivity | reflexivity | ].
  apply descends_here.
Qed.

(** X8 on the chain [forked]: an unknown hash, and the stored header B4. *)
Lemma HasHeader_false_GetHeader_nil_witness :
  GetHeader (H := Demo.env) 999 1 Demo.forked = Ret None Demo.forked /\
  HasHeader (H := Demo.env) 240 4 Demo.forked = Ret true Demo.forked.
Proof.
  split.
  - destruct (HasHeader_false_GetHeader_nil (H := Demo.env) 999 1 Demo.forked)
      as (_ & Hnil & _).
    apply Hnil. reflexivity.
  - destruct (HasHeader_false_GetHeader_nil (H := Demo.env) 240 4 Demo.forked)
      as (_ & _ & Hfound).
    destruct (GetHeader (H := Demo.env) 240 4 Demo.forked) as [[h|] s'|s'|] eqn:Hget;
      try (vm_compute in Hget; discriminate).
    exact (Hfound h s' eq_refl).
Defined.

(** X9 on the chain [forked]: B4 is read once, its record is deleted, and
    it is still served. *)
Lemma GetHeader_serves_stale_witness :
  exists h s1 s2,
    GetHeader (H := Demo.env) 240 4 Demo.forked = Ret (Some h) s1 /\
    GetHeader (H := Demo.env) 240 4 (set_headerDb (rawdb.DeleteHeader 240 4) s1)
      = Ret (Some h) s2 /\
    rawdb.ReadHeader (headerDb (set_headerDb (rawdb.DeleteHeader 240 4) s1)) 240 4 = None.
Proof.
  destruct (GetHeader (H := Demo.env) 240 4 Demo.forked) as [[h|] s1|s1|] eqn:Hget;
    try (vm_compute in Hget; discriminate).
  destruct (GetHeader_serves_stale (H := Demo.env) 240 4 h Demo.forked s1
              ltac:(apply Nat.leb_le; reflexivity) Hget (rawdb.DeleteHeader 240 4) 4)
    as [s2 Hstale].
  exists h, s1, s2. split; [ reflexivity | ]. split; [ exact Hstale | ].
  vm_compute in Hget. injection Hget as _ <-. vm_compute. reflexivity.
Defined.

(** X10 on the chain [forked], on 64-bit Linux: the ancestors of B4, an
    unknown origin, and room for [2^62] hashes. *)
Lemma GetBlockHashesFromHash_spec_witness :
  (exists s', GetBlockHashesFromHash (H := Demo.env) (rt := Cases.runtime) 240 10 Demo.forked
              = Ret (Some [230; 220; 110; 100]) s') /\
  (exists s', GetBlockHashesFromHash (H := Demo.env) (rt := Cases.runtime) 240 2 Demo.forked
              = Ret (Some [230; 220]) s') /\
  GetBlockHashesFromHash (H := Demo.env) (rt := Cases.runtime) 999 (2 ^ 62) Demo.forked
    = Ret None Demo.forked /\
  (exists s0, GetBlockHashesFromHash (H := Demo.env) (rt := Cases.runtime) 240 (2 ^ 62) Demo.forked
              = Panic s0).
Proof.
  destruct (GetHeaderByHash (H := Demo.env) 240 Demo.forked) as [[h|] s0|s0|] eqn:Hget;
    try (vm_compute in Hget; discriminate).
  assert (Hh : h = Demo.B4) by (vm_compute in Hget; injection Hget as <- _; reflexivity).
  split; [ | split; [ | split ] ].
  - destruct (GetBlockHashesFromHash_spec (H := Demo.env) (rt := Cases.runtime) 240 10 Demo.forked)
      as (_ & _ & _ & Hlist).
    destruct (Hlist ltac:(vm_compute; discriminate)
                forked_functional forked_keyed forked_linked forked_cache h s0 Hget)
      as [s' Hrun].
    exists s'. rewrite Hrun, Hh. reflexivity.
  - destruct (GetBlockHashesFromHash_spec (H := Demo.env) (rt := Cases.runtime) 240 2 Demo.forked)
      as (_ & _ & _ & Hlist).
    destruct (Hlist ltac:(vm_compute; discriminate)
                forked_functional forked_keyed forked_linked forked_cache h s0 Hget)
      as [s' Hrun].
    exists s'. rewrite Hrun, Hh. reflexivity.
  - destruct (GetBlockHashesFromHash_spec (H := Demo.env) (rt := Cases.runtime)
                999 (2 ^ 62) Demo.forked) as (Hnil & _).
    apply Hnil. reflexivity.
  - destruct (GetBlockHashesFromHash_spec (H := Demo.env) (rt := Cases.runtime)
                240 (2 ^ 62) Demo.forked) as (_ & Hpanic & _).
    exists s0. apply (Hpanic ltac:(vm_compute; reflexivity) h s0 Hget).
Defined.

(** X11 on the chain [forked]: from the canonical A2 of number 2 to
    number 0. *)
Lemma GetAncestor_canonical_shortcut_witness :
  GetAncestor (H := Demo.env) 120 2 2 5 Demo.forked = Ret (100, 0, 5) Demo.forked.
Proof.
  refine (eq_trans
    (GetAncestor_canonical_shortcut (H := Demo.env) 120 2 2 5 Demo.forked _ _ _ _) _).
  - lia.
  - lia.
  - reflexivity.
  - reflexivity.
  - reflexivity.
Defined.

(** X12 on the chain [forked]: three generations back from B4 with a
    budget of 1. *)
Lemma GetAncestor_shape_witness :
  exists h' n' b' s',
    GetAncestor (H := Demo.env) 240 4 3 1 Demo.forked = Ret (h', n', b') s' /\
    b' <= 1 /\ ((h' = zeroHash /\ n' = 0) \/ n' = 1).
Proof.
  destruct (GetAncestor_shape (H := Demo.env) 240 4 3 1 Demo.forked)
    as (h' & n' & b' & s' & Hrun & Hb & Hshape & _); [ reflexivity | reflexivity | ].
  exists h', n', b', s'. split; [ exact Hrun | ]. split; [ exact Hb | ].
  destruct Hshape as [Hz|[_ Hn]]; [ left; exact Hz | right; exact Hn ].
Defined.

(** X13 on the chain [forked]: B4 is trimmed back to C1. *)
Lemma trim_along_branch_witness :
  exists s',
    trim (H := Demo.env) 10 (Some Demo.C1) (Some Demo.B4) Demo.forked = Ret None s' /\
    rawdb.ReadHeader (headerDb s') 240 4 = None.
Proof.
  destruct (trim_along_branch (H := Demo.env) 10 Demo.C1 Demo.B4 Demo.forked
              forked_functional forked_cache forked_C1_B4 ltac:(simpl; lia))
    as (s' & Hrun & _ & Hgone).
  exists s'. split; [ exact Hrun | ].
  apply Hgone. vm_compute. intros [=].
Defined.

(** X14 on the chain [forkedHeads]: after the reset the registry still
    names A2 and B4, whose records are gone. *)
Lemma Reset_keeps_registry_witness :
  exists s',
    Reset (H := Demo.env) 10 Demo.forkedHeads = Ret None s' /\
    heads s' = [Some Demo.A2; Some Demo.B4] /\
    currentHeader s' = Some Demo.A2 /\
    rawdb.ReadHeader (headerDb s') 120 2 = None /\
    rawdb.ReadHeader (headerDb s') 240 4 = None.
Proof.
  destruct (Reset (H := Demo.env) 10 Demo.forkedHeads) as [[e|] s'|s'|] eqn:Hrun;
    try (vm_compute in Hrun; discriminate).
  exists s'. split; [ reflexivity | ].
  destruct (Reset_keeps_registry (H := Demo.env) 10 Demo.forkedHeads s')
    as [(Hheads & Hcur & _) Hret]; [ rewrite Hrun; reflexivity | ].
  destruct (Hret None) as [_ Hdel]; [ rewrite Hrun; reflexivity | ].
  split; [ exact Hheads | ]. split; [ exact Hcur | ]. split.
  - apply (Hdel Demo.G Demo.A2 eq_refl); [ do 1 constructor | vm_compute; intros [=] ].
  - apply (Hdel Demo.G Demo.B4 eq_refl); [ do 2 constructor | vm_compute; intros [=] ].
Defined.

(** X15 on the chain [forked]: the common header of B4 and the canonical
    chain. *)
Lemma findCommonHeader_terminates_on_branch_witness :
  exists c s',
    findCommonHeader (H := Demo.env) 10 (Some Demo.B4) Demo.forked = Ret (Some c) s' /\
    (descends (headerDb Demo.forked) c Demo.B4 \/
     exists k, dbHeaders (headerDb Demo.forked) !! (100, k) = Some c).
Proof.
  destruct (findCommonHeader_terminates_on_branch (H := Demo.env) 10 Demo.B4 100 Demo.forked
              forked_functional forked_keyed forked_linked forked_cache)
    as (r & s' & Hrun & _ & Hbranch).
  - exists 4. reflexivity.
  - reflexivity.
  - simpl. lia.
  - destruct r as [c|]; [ | vm_compute in Hrun; discriminate ].
    exists c, s'. split; [ exact Hrun | ]. apply Hbranch. reflexivity.
Defined.

(** X16 on the service over [forkedHeads], and on the one with a nil
    entry in its registry. *)
Lemma Stop_acts_once_witness :
  (exists sv',
     Stop (H := Demo.env) Cases.service = Ret tt sv' /\
     rawdb.ReadHeadsHashes (headerDb (chainOf sv')) = [120; 240] /\
     rawdb.ReadHeadBlockHash (headerDb (chainOf sv')) = 120 /\
     Stop (H := Demo.env) sv' = Ret tt sv') /\
  (exists sv',
     Stop (H := Demo.env) Cases.serviceNilHead = Panic sv' /\
     chainOf sv' = Demo.withNilHead).
Proof.
  split.
  - destruct (Stop_acts_once (H := Demo.env) Cases.service) as (_ & Hrun & _).
    destruct (Hrun Demo.A2 [Demo.A2; Demo.B4] eq_refl eq_refl eq_refl eq_refl)
      as (sv' & H1 & H2 & H3 & _ & _ & _ & H7 & _).
    exists sv'. repeat split; assumption.
  - destruct (Stop_acts_once (H := Demo.env) Cases.serviceNilHead) as (_ & _ & Hnil).
    destruct (Hnil eq_refl eq_refl ltac:(constructor)) as (sv' & H1 & H2 & _).
    exists sv'. split; assumption.
Defined.

(** X17 on the service over [forkedHeads]: stop, then load on a chain
    built anew over the saved store. *)
Lemma Stop_then_loadLastState_witness :
  exists sv' c1,
    Stop (H := Demo.env) Cases.service = Ret tt sv' /\
    loadLastState (H := Demo.env) (Cases.restarted (headerDb (chainOf sv'))) = Ret None c1 /\
    heads c1 = [Some Demo.A2; Some Demo.B4] /\
    currentHeader c1 = Some Demo.A2.
Proof.
  destruct (Stop_then_loadLastState (H := Demo.env) Cases.service Demo.A2 [Demo.A2; Demo.B4])
    as (sv' & Hstop & Hload); try reflexivity.
  - vm_compute. intros [=].
  - exact forked_functional.
  - exact forked_recorded.
  - intros h [->|Hin]; [ exists 2; reflexivity | ].
    apply elem_of_cons in Hin as [->|Hin]; [ exists 2; reflexivity | ].
    apply elem_of_cons in Hin as [->|Hin]; [ exists 4; reflexivity | inversion Hin ].
  - destruct (Hload (Cases.restarted (headerDb (chainOf sv')))) as (c1 & Hrun & Hh & Hc & _).
    + reflexivity.
    + intros k x Hx. inversion Hx.
    + intros k x Hx. inversion Hx.
    + exists sv', c1. repeat split; assumption.
Defined.

(** X18 on the chain never stopped on, and on a chain with two saved
    heads. *)
Lemma loadLastState_edges_witness :
  loadLastState (H := Demo.env) Cases.fresh = Panic Cases.fresh /\
  exists s',
    loadLastState (H := Demo.env) Cases.savedUnknown = Ret None s' /\
    length (heads s') = 2%nat.
Proof.
  split.
  - apply (loadLastState_edges (H := Demo.env) Cases.fresh); reflexivity.
  - destruct (loadLastState_edges (H := Demo.env) Cases.savedUnknown) as [_ Hret].
    destruct (loadLastState (H := Demo.env) Cases.savedUnknown) as [r s'|s'|] eqn:Hrun;
      try (vm_compute in Hrun; discriminate).
    destruct (Hret r s' eq_refl) as (-> & Hlen & _).
    exists s'. split; [ reflexivity | exact Hlen ].
Defined.

(** X19 on the chain whose second saved head, 999, has no record. *)
Lemma loadLastState_nil_entry_witness :
  exists s',
    loadLastState (H := Demo.env) Cases.savedUnknown = Ret None s' /\
    heads s' !! 1%nat = Some None.
Proof.
  destruct (loadLastState (H := Demo.env) Cases.savedUnknown) as [[e|] s'|s'|] eqn:Hrun;
    try (vm_compute in Hrun; discriminate).
  exists s'. split; [ reflexivity | ].
  apply (loadLastState_nil_entry (H := Demo.env) Cases.savedUnknown s' None 1 999);
    [ reflexivity | reflexivity | reflexivity | exact Hrun ].
Defined.

(** X20 on the header A3, of location [1; 1], in the ontology of three
    regions and three zones. *)
Lemma CheckLocationRange_guards_slots_witness :
  setSlice (H := Demo.env) [None; None; None] Demo.A3 Demo.forked
    = Ret [Some Demo.A3; None; None] Demo.forked /\
  @CheckLocationRange Demo.env Cases.ontology [] Demo.forked = Panic Demo.forked.
Proof.
  destruct (@CheckLocationRange_guards_slots Demo.env Cases.ontology Demo.A3 Demo.forked
              3%Z 3%Z [] eq_refl ltac:(lia) ltac:(lia)) as (Hguard & Hempty & _).
  split; [ | exact Hempty ].
  destruct (Hguard eq_refl ltac:(simpl; lia)) as (b & Hb & _ & Hslot).
  injection Hb as <-. exact Hslot.
Defined.

(** X21 on the chain [withBodies]: the canonical blocks 0 to 2. *)
Lemma ExportN_exports_range_witness :
  @ExportN Demo.env Cases.blocks 10 [] 0 2 Cases.withBodies
  = Ret ([100; 1; 110; 2; 120; 3], None) Cases.withBodies.
Proof.
  refine (eq_trans
    (@ExportN_exports_range Demo.env Cases.blocks 10 [] 0 2
       [Cases.blockOf Demo.G; Cases.blockOf Demo.C1; Cases.blockOf Demo.A2]
       Cases.withBodies _ _ _ _ _) _).
  - lia.
  - reflexivity.
  - reflexivity.
  - intros [|[|[|i]]] b Hb; try discriminate; injection Hb as <-; split; reflexivity.
  - simpl. lia.
  - reflexivity.
Defined.

(** X22 on the chain [withBodies]: a reversed range, and a range up to
    the largest number, which ends on the first missing block. *)
Lemma ExportN_edges_witness :
  (exists e, @ExportN Demo.env Cases.blocks 10 [7] 3 1 Cases.withBodies
             = Ret ([7], Some e) Cases.withBodies) /\
  (exists out e, @ExportN Demo.env Cases.blocks 10 [] 0 (two64 - 1) Cases.withBodies
                 = Ret (out, Some e) Cases.withBodies).
Proof.
  split.
  - destruct (@ExportN_edges Demo.env Cases.blocks 10 [7] 3 1 Cases.withBodies) as (Hrev & _).
    apply Hrev. lia.
  - destruct (@ExportN_edges Demo.env Cases.blocks 10 [] 0 (two64 - 1) Cases.withBodies)
      as (_ & Hshape & Hmax).
    destruct (@ExportN Demo.env Cases.blocks 10 [] 0 (two64 - 1) Cases.withBodies)
      as [[out e] s'|s'|] eqn:Hrun; try (vm_compute in Hrun; discriminate).
    destruct (Hshape (out, e) s' eq_refl) as [-> _].
    pose proof (Hmax (out, e) _ eq_refl ltac:(reflexivity) eq_refl) as Hne.
    destruct e as [e|]; [ | contradiction ].
    exists out, e. reflexivity.
Defined.

(** X23 on the chain [forked]: the head is rolled back from A2 to its
    parent C1. *)
Lemma SetCurrentHeader_rollback_witness :
  exists s',
    SetCurrentHeader (H := Demo.env) 10 Demo.C1 Demo.forked = Ret ([None; None; None], None) s' /\
    currentHeader s' = Some Demo.C1 /\
    dbCanonical (headerDb s') !! 2 = None /\
    dbCanonical (headerDb s') !! 1 = Some 110.
Proof.
  assert (Hd : descends (headerDb Demo.forked) Demo.C1 Demo.A2).
  { apply (descends_step _ _ Demo.A2 Demo.C1); [ reflexivity | reflexivity | ].
    apply descends_here. }
  assert (Habove : forall y, strictlyAbove (headerDb Demo.forked) Demo.C1 Demo.A2 y ->
                     y = Demo.A2).
  { intros y (H1 & H2 & H3).
    inversion H2 as [|x p Hread Hlt Hd']; [ reflexivity | ]. subst.
    vm_compute in Hread. injection Hread as <-.
    exfalso. apply H3. rewrite (descends_antisym _ _ _ H1 Hd'). reflexivity. }
  destruct (SetCurrentHeader_rollback (H := Demo.env) 10 Demo.C1 Demo.A2 100 Demo.forked
              forked_functional forked_keyed forked_recorded forked_cache forked_numberCache)
    as (s' & Hrun & Hcur & _ & Hkept & Hgone & _).
  - reflexivity.
  - exists 2. reflexivity.
  - exists 1. reflexivity.
  - exact Hd.
  - reflexivity.
  - vm_compute. intros [=].
  - reflexivity.
  - intros y Hy. rewrite (Habove y Hy). vm_compute. intros [=].
  - simpl. lia.
  - exists s'. split; [ exact Hrun | ]. split; [ exact Hcur | ]. split.
    + apply (Hgone Demo.A2). split; [ exact Hd | ]. split; [ apply descends_here | ].
      vm_compute. intros [=].
    + rewrite (Hkept 1); [ reflexivity | simpl; lia ].
Defined.

Lemma descends_stored db y x :
  descends db y x -> y = x \/ exists k n, dbHeaders db !! (k, n) = Some y.
Proof.
  induction 1 as [|x p Hread Hlt Hd IH]; [ left; reflexivity | ].
  right. destruct IH as [->|IH]; [ | exact IH ].
  exists (hParent x), (sub64 (hNumber x) 1). exact Hread.
Qed.

Lemma forked_slots k n y :
  dbHeaders (headerDb Demo.forked) !! (k, n) = Some y ->
  1 <= hNumber y -> hLocation y !! 0%nat = Some 1.
Proof.
  intros Hy. apply elem_of_map_to_list in Hy. revert Hy.
  assert (Hall : Forall (fun e : Hash * N * Header =>
                   1 <= hNumber e.2 -> hLocation e.2 !! 0%nat = Some 1)
                 (map_to_list (dbHeaders (headerDb Demo.forked)))).
  { apply (bool_decide_unpack _). vm_compute. exact Logic.I. }
  rewrite Forall_forall in Hall. intros Hy. exact (Hall _ Hy).
Qed.

(** X24 on the chain [forked]: the head moves from A2 to its sibling B2,
    both children of C1. *)
Lemma SetCurrentHeader_equal_branches_witness :
  exists slices s',
    SetCurrentHeader (H := Demo.env) 10 Demo.B2 Demo.forked = Ret (slices, None) s' /\
    currentHeader s' = Some Demo.B2 /\
    dbCanonical (headerDb s') !! 2 = Some 220 /\
    dbCanonical (headerDb s') !! 1 = Some 110.
Proof.
  destruct (findCommonHeader (H := Demo.env) 10 (Some Demo.B2)
              (headStored (H := Demo.env) Demo.B2 Demo.forked))
    as [[c|] s1|s1|] eqn:Hfind; try (vm_compute in Hfind; discriminate).
  assert (Hc : c = Demo.C1) by (vm_compute in Hfind; injection Hfind as <- _; reflexivity).
  subst c.
  assert (Hsd : sameDepth (headerDb Demo.forked) Demo.C1 Demo.A2 Demo.B2).
  { apply (sameDepth_step _ _ Demo.A2 Demo.B2 Demo.C1 Demo.C1);
      try reflexivity; try (vm_compute; intros [=]).
    apply sameDepth_here. }
  assert (Habove : forall y, strictlyAbove (headerDb Demo.forked) Demo.C1 Demo.A2 y ->
                     y = Demo.A2).
  { intros y (H1 & H2 & H3).
    inversion H2 as [|x p Hread Hlt Hd']; [ reflexivity | ]. subst.
    vm_compute in Hread. injection Hread as <-.
    exfalso. apply H3. rewrite (descends_antisym _ _ _ H1 Hd'). reflexivity. }
  destruct (SetCurrentHeader_equal_branches (H := Demo.env) 10 Demo.B2 Demo.A2 Demo.C1 100
              Demo.forked s1 forked_functional forked_cache eq_refl)
    as (slices & s' & Hrun & _ & Hcur & Hnew & Hkept & _).
  - vm_compute. intros [=].
  - exact Hfind.
  - exact Hsd.
  - reflexivity.
  - intros y Hy. rewrite (Habove y Hy). vm_compute. intros [=].
  - intros y Hcy Hy. right. exists 1. split; [ | lia ].
    pose proof (descends_number _ _ _ Hcy) as Hnum.
    assert (Hone : 1 <= hNumber y) by exact Hnum.
    destruct Hy as [Hy|Hy]; apply descends_stored in Hy as [->|(k & n & Hk)];
      try reflexivity; exact (forked_slots k n y Hk Hone).
  - simpl. lia.
  - exists slices, s'. split; [ exact Hrun | ]. split; [ exact Hcur | ]. split.
    + apply (Hnew Demo.B2). split; [ | split; [ apply descends_here | vm_compute; intros [=] ] ].
      apply (descends_step _ _ Demo.B2 Demo.C1); [ reflexivity | reflexivity | ].
      apply descends_here.
    + rewrite (Hkept 1); [ reflexivity | simpl; lia ].
Defined.

(** X25 on the chain [forked]: A3 is appended twice and registered twice. *)
Lemma Append_registers_head_witness :
  exists s1 s2,
    Append (H := Demo.env) 10 Demo.blockA3 Demo.forked = Ret None s1 /\
    Append (H := Demo.env) 10 Demo.blockA3 s1 = Ret None s2 /\
    Permutation [Some Demo.A3; Some Demo.A3] (heads s2).
Proof.
  destruct (Append_registers_head (H := Demo.env) 10 Demo.blockA3 Demo.forked Demo.forked [])
    as (s1 & Hrun1 & Hperm1 & _); [ repeat split | discriminate | reflexivity | ].
  assert (Hheads1 : heads s1 = [Some Demo.A3]).
  { vm_compute in Hrun1. injection Hrun1 as <-. reflexivity. }
  destruct (Append_registers_head (H := Demo.env) 10 Demo.blockA3 s1 s1 [Demo.A3])
    as (s2 & Hrun2 & Hperm2 & _).
  - vm_compute in Hrun1. injection Hrun1 as <-. repeat split.
  - rewrite Hheads1. discriminate.
  - rewrite Hheads1. reflexivity.
  - exists s1, s2. split; [ exact Hrun1 | ]. split; [ exact Hrun2 | ].
    rewrite Hheads1 in Hperm2. exact Hperm2.
Defined.

(** X26 on the chain [withBodies]: the blocks from A2 back to genesis. *)
Lemma GetBlocksFromHash_bounds_witness :
  (exists s', @GetBlocksFromHash Demo.env Cases.blocks 120 5 Cases.withBodies
              = Ret [Cases.blockOf Demo.A2; Cases.blockOf Demo.C1; Cases.blockOf Demo.G] s') /\
  (exists s', @GetBlocksFromHash Demo.env Cases.blocks 120 (-1) Cases.withBodies = Ret [] s').
Proof.
  split.
  - destruct (@GetBlocksFromHash_bounds Demo.env Cases.blocks 120 5 Cases.withBodies)
      as (blocks & s' & Hrun & _).
    exists s'. rewrite Hrun. vm_compute in Hrun. injection Hrun as <- _. reflexivity.
  - destruct (@GetBlocksFromHash_bounds Demo.env Cases.blocks 120 (-1) Cases.withBodies)
      as (blocks & s' & Hrun & _ & _ & Hneg & _).
    exists s'. rewrite Hrun, (Hneg ltac:(lia)). reflexivity.
Defined.

Lemma known_functional : storeFunctional Cases.family.
Proof. apply storeFunctional_check. apply (bool_decide_unpack _). vm_compute. exact Logic.I. Qed.

Lemma known_keyed : hashKeyed Cases.family.
Proof. apply hashKeyed_check. apply (bool_decide_unpack _). vm_compute. exact Logic.I. Qed.

Lemma known_linked : wellLinked Cases.family.
Proof. apply wellLinked_check. apply (bool_decide_unpack _). vm_compute. exact Logic.I. Qed.

(** X28 on the chain [genesisOnly]: after the calls of [Cases.calls] the
    record of B2 is gone, the header cache still holds B2, and the genesis
    record is there. *)
Lemma genesis_record_survives_witness :
  exists s',
    afterCalls (H := Cases.tolerant) Cases.calls Cases.genesisOnly = Some s' /\
    rawdb.ReadHeader (headerDb s') 100 0 = Some Demo.G /\
    lru.Contains 220 (headerCache s') = true /\
    rawdb.ReadHeader (headerDb s') 220 2 = None.
Proof.
  destruct (afterCalls (H := Cases.tolerant) Cases.calls Cases.genesisOnly) as [s'|] eqn:Hrun;
    [ | vm_compute in Hrun; discriminate ].
  destruct (genesis_record_survives (H := Cases.tolerant) Cases.family Demo.G
              known_functional known_keyed known_linked Cases.calls Cases.genesisOnly s')
    as [_ Hrec].
  - unfold Cases.calls.
    repeat match goal with |- Forall _ _ => constructor end;
      try exact Logic.I; (split; [ reflexivity | intros [=] ]).
  - split; [ split; [ | split ] | repeat split ].
    + intros k x Hk. apply elem_of_map_to_list in Hk. vm_compute in Hk.
      inversion Hk as [|? ? ? Hk']; [ reflexivity | inversion Hk' ].
    + intros k y Hy. vm_compute in Hy. inversion Hy.
    + intros h Hh. vm_compute in Hh. inversion Hh.
  - exact Hrun.
  - exists s'. split; [ reflexivity | ]. split; [ exact Hrec | ].
    vm_compute in Hrun. injection Hrun as <-. repeat split.
Defined.
